(** * Dist2Cycle training tutorial: a shallow embedding

    The notebook [tutorials/simplicial/dist2Cycle_train.ipynb] builds label
    arrays, derives structural matrices of a simplicial complex, defines the
    [Dist2Cycle] model (a [torch.nn.Module]) and runs a training loop.

    Conventions of the embedding:
    - float tensors are lists (of lists) of real numbers: rounding, overflow
      and NaN are outside the model, every float operation is exact;
    - Python integers are [Z], Python slices follow CPython's index
      adjustment;
    - tensors that are mutated in place (parameters, their [.grad], the label
      buffer shared by [y_true], [y_train] and [y_test]) live in a heap of
      cells addressed by locations; everything that can raise returns
      [option], [None] standing for an uncaught exception;
    - the numerical backend that the notebook only calls (random
      initialisation, partial derivatives, the arithmetic of one Adam update,
      float formatting, the pseudo-inverse) and the message-passing layer
      [Dist2CycleLayer], which lives in another file of the repository, are
      section variables: every result below holds for all of them. *)

From Stdlib Require Import Reals Lra Lia ZArith String.
From stdpp Require Import base option list gmap strings pretty.

Set Default Proof Using "Type".
Set Warnings "-register-all".

Abbreviation matrix := (list (list R)).

(* ================================================================= *)
(** ** Python slices and ranges *)

Module Py.

(** Index adjustment of a slice bound for a sequence of length [n] and
    step 1: negative bounds count from the end, everything is clipped to
    [0, n]. *)
Definition adjust (n i : Z) : Z :=
  if (i <? 0)%Z then Z.max (n + i) 0 else Z.min i n.

Definition len {A} (l : list A) : Z := Z.of_nat (length l).

(** [l[:stop]] *)
Definition slice_to {A} (stop : Z) (l : list A) : list A :=
  take (Z.to_nat (adjust (len l) stop)) l.

(** [l[start:]] *)
Definition slice_from {A} (start : Z) (l : list A) : list A :=
  drop (Z.to_nat (adjust (len l) start)) l.

(** [range(lo, hi)] *)
Definition range (lo hi : Z) : list Z :=
  (λ k, (lo + Z.of_nat k)%Z) <$> seq 0 (Z.to_nat (hi - lo)).

End Py.

(* ================================================================= *)
(** ** Tensors *)

(** A tensor of rank 1 or 2 over any element type; the notebook uses no
    other rank. *)
Inductive tensor (A : Type) :=
| T1 (v : list A)
| T2 (m : list (list A)).
Arguments T1 {A} v.
Arguments T2 {A} m.

Definition tmap {A B} (f : A → B) (t : tensor A) : tensor B :=
  match t with
  | T1 v => T1 (f <$> v)
  | T2 m => T2 (fmap (M:=list) f <$> m)
  end.

(** The shape of a tensor: its length, or the lengths of its rows. *)
Inductive shape_t :=
| Shape1 (n : nat)
| Shape2 (rows : list nat).

Definition shape {A} (t : tensor A) : shape_t :=
  match t with
  | T1 v => Shape1 (length v)
  | T2 m => Shape2 (length <$> m)
  end.

#[global] Instance shape_eq_dec : EqDecision shape_t.
Proof. solve_decision. Defined.

(** Pointwise pairing of two tensors; tensors of different shapes cannot be
    combined (broadcasting never occurs between the tensors paired here). *)
Definition tzip {A B} (a : tensor A) (b : tensor B) : option (tensor (A * B)) :=
  if decide (shape a = shape b) then
    match a, b with
    | T1 u, T1 v => Some (T1 (zip u v))
    | T2 m, T2 n => Some (T2 (zip_with zip m n))
    | _, _ => None
    end
  else None.

(** [torch.zeros_like] *)
Definition zeros_like (t : tensor R) : tensor R := tmap (λ _, 0%R) t.

(** A tensor of the shape of [t] whose entries are given by index. *)
Definition tabulate_like {A} (t : tensor A) (f1 : nat → R) (f2 : nat → nat → R)
  : tensor R :=
  match t with
  | T1 v => T1 (imap (λ i _, f1 i) v)
  | T2 m => T2 (imap (λ i row, imap (λ j _, f2 i j) row) m)
  end.

(* ================================================================= *)
(** ** The operations of torch used by the notebook

    These definitions compute on real numbers. They describe the program
    where every float32 result is finite and is not rounded; the mean of
    no values is 0 here (torch returns nan), and [eq] compares tensors of
    one shape only (torch also broadcasts). The module [F32] below computes
    the softmax and the thresholding on float32 values with their
    infinities and NaN. *)

Module Torch.

Definition sum (l : list R) : R := foldr Rplus 0%R l.

(** [.mean()] of a rank-1 float tensor *)
Definition mean (l : list R) : R := (sum l / INR (length l))%R.

Definition dot (u v : list R) : R := sum (zip_with Rmult u v).

(** [torch.nn.functional.linear(x, W, b)]: [x @ W.T + b] for a weight of
    shape [out, in] and a bias of shape [out]. The product raises when a
    row of [x] does not have [in] entries. *)
Definition linear (W : matrix) (b : list R) (x : matrix) : option matrix :=
  if forallb (λ row, forallb (λ w_j, length row =? length w_j) W) x
     && (length W =? length b)
  then Some ((λ row, zip_with (λ w_j b_j, (dot row w_j + b_j)%R) W b) <$> x)
  else None.

(** [torch.softmax(., dim=-1)] on one row. torch subtracts the row maximum
    before exponentiating, which leaves the quotient unchanged. *)
Definition softmax_row (z : list R) : list R :=
  let e := exp <$> z in (λ x, (x / sum e)%R) <$> e.

Definition softmax (logits : matrix) : matrix := softmax_row <$> logits.

(** [x > 0.5] *)
Definition gt_half (x : R) : bool :=
  if Rlt_dec (1 / 2) x then true else false.

(** [torch.where(y_hat > 0.5, torch.tensor(1), torch.tensor(0))] *)
Definition where_gt_half (y_hat : matrix) : list (list Z) :=
  fmap (M:=list) (λ x, if gt_half x then 1%Z else 0%Z) <$> y_hat.

(** [==] between an integer and a float entry: the integer is promoted. *)
Definition eq_entry (p : Z) (t : R) : bool :=
  if Req_dec_T (IZR p) t then true else false.

(** [torch.eq(pred, target)] for tensors of one shape. *)
Definition eq (pred : list (list Z)) (target : matrix) : option (list (list bool)) :=
  if decide (shape (T2 pred) = shape (T2 target))
  then Some (zip_with (zip_with eq_entry) pred target)
  else None.

(** [.all(dim=1)] *)
Definition all_dim1 (m : list (list bool)) : list bool := forallb (λ b : bool, b) <$> m.

(** [.float()] of a boolean tensor *)
Definition float_of_bool (b : bool) : R := if b then 1%R else 0%R.

(** [(pred == target).all(dim=1).float().mean().item()] *)
Definition accuracy (pred : list (list Z)) (target : matrix) : option R :=
  e ← eq pred target;
  Some (mean (float_of_bool <$> all_dim1 e)).

Definition sigmoid (x : R) : R := (1 / (1 + exp (- x)))%R.

(** [torch.nn.functional.binary_cross_entropy_with_logits(input, target)]
    with the default mean reduction; it raises unless the target has the
    size of the input. *)
Definition bce_entry (xt : R * R) : R :=
  let '(x, t) := xt in
  (- (t * ln (sigmoid x) + (1 - t) * ln (1 - sigmoid x)))%R.

Definition binary_cross_entropy_with_logits (input target : matrix) : option R :=
  match tzip (T2 input) (T2 target) with
  | Some (T2 p) => Some (mean (bce_entry <$> concat p))
  | _ => None
  end.

End Torch.

(* ================================================================= *)
(** ** The same operations on float32 values

    The definitions of [Torch] compute on real numbers. The tensors of the
    program hold float32 values: finite numbers, the two infinities and
    NaN. The definitions below compute [forward] and the thresholding on
    such values. A result whose magnitude exceeds
    [max_float] overflows to an infinity, and infinities and NaN combine as
    IEEE 754 prescribes. Three things stay idealised: a finite result in
    range is exact (no rounding to 24 bits, no underflow), zero has no
    sign, and the dot product of [linear] is summed from the right, while
    the order of torch's kernel is not fixed. The properties proved of
    these definitions are stated so that they do not depend on this: they
    start from the logits whatever their values, bound a sum within a
    tolerance, and compare logits strictly in one direction only. *)

Module F32.

Inductive float :=
| Finite (x : R)
| PInf
| NInf
| NaN.

(** The largest finite float32, [(2 - 2^-23) * 2^127]. *)
Definition max_float : R := ((2 - / 2 ^ 23) * 2 ^ 127)%R.

(** The float of an exactly computed result. *)
Definition round (x : R) : float :=
  if Rlt_dec max_float x then PInf
  else if Rlt_dec x (- max_float) then NInf
  else Finite x.

Definition neg (a : float) : float :=
  match a with
  | Finite x => Finite (- x)
  | PInf => NInf
  | NInf => PInf
  | NaN => NaN
  end.

Definition add (a b : float) : float :=
  match a, b with
  | NaN, _ | _, NaN => NaN
  | PInf, NInf | NInf, PInf => NaN
  | PInf, _ | _, PInf => PInf
  | NInf, _ | _, NInf => NInf
  | Finite x, Finite y => round (x + y)
  end.

Definition sub (a b : float) : float := add a (neg b).

Definition signed_inf (positive : bool) : float :=
  if positive then PInf else NInf.

(** The product of an infinity of the given sign and [b]. *)
Definition mul_inf (positive : bool) (b : float) : float :=
  match b with
  | NaN => NaN
  | PInf => signed_inf positive
  | NInf => signed_inf (negb positive)
  | Finite y =>
      if Rlt_dec 0 y then signed_inf positive
      else if Rlt_dec y 0 then signed_inf (negb positive)
      else NaN
  end.

Definition mul (a b : float) : float :=
  match a, b with
  | Finite x, Finite y => round (x * y)
  | PInf, _ => mul_inf true b
  | NInf, _ => mul_inf false b
  | _, PInf => mul_inf true a
  | _, NInf => mul_inf false a
  | NaN, _ | _, NaN => NaN
  end.

Definition div (a b : float) : float :=
  match a, b with
  | NaN, _ | _, NaN => NaN
  | Finite x, Finite y =>
      if Req_dec_T y 0 then
        if Rlt_dec 0 x then PInf else if Rlt_dec x 0 then NInf else NaN
      else round (x / y)
  | Finite _, PInf | Finite _, NInf => Finite 0
  | PInf, Finite y => if Rlt_dec y 0 then NInf else PInf
  | NInf, Finite y => if Rlt_dec y 0 then PInf else NInf
  | PInf, PInf | PInf, NInf | NInf, PInf | NInf, NInf => NaN
  end.

Definition exp (a : float) : float :=
  match a with
  | Finite x => round (Rtrigo_def.exp x)
  | PInf => PInf
  | NInf => Finite 0
  | NaN => NaN
  end.

(** The maximum of two values; NaN propagates. *)
Definition max (a b : float) : float :=
  match a, b with
  | NaN, _ | _, NaN => NaN
  | PInf, _ | _, PInf => PInf
  | NInf, c | c, NInf => c
  | Finite x, Finite y => Finite (Rmax x y)
  end.

Definition sum (l : list float) : float := foldr add (Finite 0) l.

Definition dot (u v : list float) : float := sum (zip_with mul u v).

(** [torch.nn.functional.linear(x, W, b)], as [Torch.linear]. *)
Definition linear (W : list (list float)) (b : list float)
    (x : list (list float)) : option (list (list float)) :=
  if forallb (λ row, forallb (λ w_j, length row =? length w_j) W) x
     && (length W =? length b)
  then Some ((λ row, zip_with (λ w_j b_j, add (dot row w_j) b_j) W b) <$> x)
  else None.

(** [torch.softmax(., dim=-1)] on one row: the row maximum is subtracted
    before exponentiating. *)
Definition softmax_row (z : list float) : list float :=
  let m := foldr max NInf z in
  let e := (λ x, exp (sub x m)) <$> z in
  let s := sum e in
  (λ x, div x s) <$> e.

Definition softmax (logits : list (list float)) : list (list float) :=
  softmax_row <$> logits.

(** A layer of the model, by its forward function on [x_1e], [Linv] and
    [adjacency]; [None] when the call raises. *)
Definition layer : Type :=
  list (list float) → list (list float) → list (list float) →
  option (list (list float)).

(** [for layer in self.layers: x_1 = layer(x_1e, Linv, adjacency)]: every
    layer is called on the input [x_1e], and [x_1] holds the last result. *)
Fixpoint forward_layers (layers : list layer)
    (x_1e Linv adjacency : list (list float)) (x_1 : option (list (list float)))
  : option (option (list (list float))) :=
  match layers with
  | [] => Some x_1
  | layer :: layers' =>
      x_1' ← layer x_1e Linv adjacency;
      forward_layers layers' x_1e Linv adjacency (Some x_1')
  end.

(** [Dist2Cycle.forward(self, x_1e, Linv, adjacency)], for the forward
    functions of [self.layers] and the values [W] and [b] of the weight and
    the bias of [self.linear]. *)
Definition forward (layers : list layer) (W : list (list float))
    (b : list float) (x_1e Linv adjacency : list (list float))
  : option (list (list float)) :=
  _ ← forward_layers layers x_1e Linv adjacency None;
  logits ← linear W b x_1e;
  Some (softmax logits).

(** [x > 0.5]; a comparison with NaN is false. *)
Definition gt_half (a : float) : bool :=
  match a with
  | Finite x => if Rlt_dec (1 / 2) x then true else false
  | PInf => true
  | NInf | NaN => false
  end.

(** [torch.where(y_hat > 0.5, torch.tensor(1), torch.tensor(0))] *)
Definition where_gt_half (y_hat : list (list float)) : list (list Z) :=
  fmap (M:=list) (λ x, if gt_half x then 1%Z else 0%Z) <$> y_hat.

(** The order of float values; NaN is not comparable. *)
Definition lt (a b : float) : Prop :=
  match a, b with
  | Finite x, Finite y => (x < y)%R
  | NInf, Finite _ | NInf, PInf | Finite _, PInf => True
  | _, _ => False
  end.

Definition is_finite (a : float) : Prop :=
  match a with Finite _ => True | _ => False end.

Definition nonneg (a : float) : Prop :=
  match a with
  | Finite x => (0 <= x)%R
  | PInf => True
  | NInf | NaN => False
  end.

(** The tolerance on the sum of a row: 8 units in the last place of 1. *)
Definition tolerance : R := (/ 2 ^ 20)%R.

(** A row whose entries are non-negative and whose sum is a finite number
    within the tolerance of 1. *)
Definition is_distribution (row : list float) : Prop :=
  Forall nonneg row ∧
  ∃ s, sum row = Finite s ∧ (Rabs (s - 1) <= tolerance)%R.

End F32.

(* ================================================================= *)
(** ** Objects: heap cells, array views, modules *)

Abbreviation loc := nat (only parsing).

(** A tensor object: its storage and its [.grad] attribute. *)
Record cell := Cell { data : tensor R; grad : option (tensor R) }.

(** A numpy basic slice (and the torch tensor made from it by
    [torch.from_numpy]) is a view: rows [lo, hi) of the buffer at [base]. *)
Record ndarray := View { base : loc; lo : nat; hi : nat }.

Definition view_len (v : ndarray) : Z := Z.of_nat (hi v - lo v).

(** [v[start:]] and [v[:stop]] *)
Definition view_slice_from (start : Z) (v : ndarray) : ndarray :=
  {| base := base v;
     lo := lo v + Z.to_nat (Py.adjust (view_len v) start);
     hi := hi v |}.

Definition view_slice_to (stop : Z) (v : ndarray) : ndarray :=
  {| base := base v;
     lo := lo v;
     hi := lo v + Z.to_nat (Py.adjust (view_len v) stop) |}.

(** [torch.nn.Module]: the registered parameters, the registered
    sub-modules, and the plain instance attributes. The only plain
    attributes the notebook stores are Python lists of modules. *)
Inductive module :=
| mkModule (_parameters : list (string * loc))
           (_modules : list (string * module))
           (__dict__ : list (string * list module)).

(** What the notebook assigns to attributes of a module. *)
Inductive value :=
| VParameter (p : loc)
| VModule (m : module)
| VList (ms : list module).

Fixpoint assoc {V} (name : string) (d : list (string * V)) : option V :=
  match d with
  | [] => None
  | (k, v) :: d' => if decide (k = name) then Some v else assoc name d'
  end.

Fixpoint assoc_set {V} (name : string) (v : V) (d : list (string * V))
  : list (string * V) :=
  match d with
  | [] => [(name, v)]
  | (k, v0) :: d' =>
      if decide (k = name) then (k, v) :: d' else (k, v0) :: assoc_set name v d'
  end.

Definition remove_from {V} (name : string) (d : list (string * V))
  : list (string * V) :=
  filter (λ kv, kv.1 ≠ name) d.

Definition empty_module : module := mkModule [] [] [].

(** [Module.__setattr__]: a [Parameter] is registered in [_parameters], a
    [Module] in [_modules]; any other object, a list of modules included,
    becomes a plain attribute. *)
Definition setattr (self : module) (name : string) (v : value) : module :=
  let '(mkModule ps ms d) := self in
  match v with
  | VParameter p =>
      mkModule (assoc_set name p ps) (remove_from name ms) (remove_from name d)
  | VModule m =>
      mkModule (remove_from name ps) (assoc_set name m ms) (remove_from name d)
  | VList l =>
      mkModule ps ms (assoc_set name l d)
  end.

(** Attribute lookup: the instance dictionary first, then
    [Module.__getattr__] over the registered parameters and sub-modules. *)
Definition getattr (self : module) (name : string) : option value :=
  let '(mkModule ps ms d) := self in
  match assoc name d with
  | Some l => Some (VList l)
  | None =>
      match assoc name ps with
      | Some p => Some (VParameter p)
      | None => VModule <$> assoc name ms
      end
  end.

Definition getattr_module (self : module) (name : string) : option module :=
  match getattr self name with Some (VModule m) => Some m | _ => None end.

Definition getattr_parameter (self : module) (name : string) : option loc :=
  match getattr self name with Some (VParameter p) => Some p | _ => None end.

Definition getattr_list (self : module) (name : string) : option (list module) :=
  match getattr self name with Some (VList l) => Some l | _ => None end.

(** [Module.named_parameters(recurse=True)]: the module's own parameters,
    then those of the registered sub-modules, in registration order. *)
Fixpoint named_parameters (self : module) : list loc :=
  match self with
  | mkModule ps ms _ =>
      (snd <$> ps) ++ concat (map (λ km, named_parameters km.2) ms)
  end.

(** Duplicates are reported once, at their first occurrence. *)
Fixpoint unique (seen : list loc) (l : list loc) : list loc :=
  match l with
  | [] => []
  | p :: l' =>
      if decide (p ∈ seen) then unique seen l' else p :: unique (p :: seen) l'
  end.

(** [Module.parameters()] *)
Definition parameters (self : module) : list loc :=
  unique [] (named_parameters self).

(* ================================================================= *)
(** ** Structural matrices of the dataset *)

(** The part of a simplicial complex that the queries below read: its
    0-simplices and its 1-simplices, in the order the dataset lists them. *)
Record SimplicialComplex := mkComplex {
  nodes : list nat;
  edges : list (nat * nat)
}.

Definition is_shape (r c : nat) (M : matrix) : Prop :=
  length M = r ∧ Forall (λ row, length row = c) M.

Definition transpose (cols : nat) (M : matrix) : matrix :=
  (λ j, (λ row : list R, nth j row 0%R) <$> M) <$> seq 0 cols.

(** [P @ Q] for [Q] with [cols] columns *)
Definition matmul (cols : nat) (P Q : matrix) : matrix :=
  (λ row, Torch.dot row <$> transpose cols Q) <$> P.

(** [np.eye(n)] *)
Definition eye (n : nat) : matrix :=
  (λ i, (λ j, if decide (i = j) then 1%R else 0%R) <$> seq 0 n) <$> seq 0 n.

(** Entrywise combination of two matrices of one shape. *)
Definition pointwise (f : R → R → R) (P Q : matrix) : option matrix :=
  match tzip (T2 P) (T2 Q) with
  | Some (T2 m) => Some (fmap (M:=list) (λ ab, f ab.1 ab.2) <$> m)
  | _ => None
  end.

Section Structure.

(** [numpy.linalg.pinv] *)
Variable pinv : matrix → matrix.

Variable dataset : SimplicialComplex.

(** [dataset.incidence_matrix(rank=1)]: one row per node, one column per
    edge; an edge leaves its first vertex and enters its second. *)
Definition incidence_1 : matrix :=
  (λ v, (λ e : nat * nat,
           if decide (v = e.1) then (-1)%R
           else if decide (v = e.2) then 1%R else 0%R) <$> edges dataset)
    <$> nodes dataset.

(** [dataset.down_laplacian_matrix(rank=1)]: [B1.T @ B1] *)
Definition ld : matrix :=
  let n_edges := length (edges dataset) in
  matmul n_edges (transpose n_edges incidence_1) incidence_1.

(** [npla.pinv(ld + np.eye(ld.shape[0]))] *)
Definition L_tilde_pinv : option matrix :=
  pinv <$> pointwise Rplus ld (eye (length ld)).

End Structure.

(* ================================================================= *)
(** ** The notebook *)

Section Notebook.

(** The state of torch's default random generator, and one draw from it. *)
Context {RNG : Type}.
Variable sample : RNG → R * RNG.

(** [Dist2CycleLayer] is defined in [topomodelx.nn.simplicial]: the named
    parameter tensors its constructor creates for a channel count (drawn
    from the generator), and its forward computation from the current
    values of these parameters and the three inputs. *)
Variable Dist2CycleLayer_params : nat → RNG → list (string * tensor R) * RNG.
Variable Dist2CycleLayer_forward :
  list (tensor R) → matrix → matrix → matrix → option matrix.

(** Automatic differentiation: the partial derivatives of the loss with
    respect to the entries of the linear layer's weight and bias, as
    functions of the weight, the bias, the model input and the target. *)
Variable dloss_dweight : matrix → list R → matrix → matrix → nat → nat → R.
Variable dloss_dbias : matrix → list R → matrix → matrix → nat → R.

(** The arithmetic of Adam on one entry: from the learning rate, the step
    number and (parameter, gradient, first moment, second moment) to the
    new parameter and moments. *)
Variable adam_rule : R → Z → R * R * R * R → R * R * R.

(** The format specification [:.4f]. *)
Variable format_4f : R → string.

(** The interpreter state the notebook acts on. *)
Record World := mkWorld {
  rng : RNG;
  heap : list cell;
  stdout : list string;
  grad_enabled : bool
}.

Definition with_rng (g : RNG) (w : World) : World :=
  mkWorld g (heap w) (stdout w) (grad_enabled w).
Definition with_heap (h : list cell) (w : World) : World :=
  mkWorld (rng w) h (stdout w) (grad_enabled w).
Definition with_grad_enabled (b : bool) (w : World) : World :=
  mkWorld (rng w) (heap w) (stdout w) b.

(** [print(s, flush=True)] *)
Definition print (s : string) (w : World) : World :=
  mkWorld (rng w) (heap w) (stdout w ++ [s]) (grad_enabled w).

(** A new tensor object. *)
Definition alloc (t : tensor R) (w : World) : loc * World :=
  (length (heap w), with_heap (heap w ++ [Cell t None]) w).

(** Reading an array view. *)
Definition read (v : ndarray) (w : World) : option matrix :=
  c ← heap w !! base v;
  match data c with
  | T2 m => Some (take (hi v - lo v) (drop (lo v) m))
  | T1 _ => None
  end.

(* --------------------------------------------------------------- *)
(** *** Random initialisation *)

Fixpoint draw (n : nat) (g : RNG) : list R * RNG :=
  match n with
  | O => ([], g)
  | S n' =>
      let '(x, g1) := sample g in
      let '(xs, g2) := draw n' g1 in
      (x :: xs, g2)
  end.

Fixpoint draw_matrix (rows cols : nat) (g : RNG) : matrix * RNG :=
  match rows with
  | O => ([], g)
  | S rows' =>
      let '(r, g1) := draw cols g in
      let '(rs, g2) := draw_matrix rows' cols g1 in
      (r :: rs, g2)
  end.

(** Each named tensor becomes a [Parameter] object of its own. *)
Fixpoint new_parameters (ts : list (string * tensor R)) (w : World)
  : list (string * loc) * World :=
  match ts with
  | [] => ([], w)
  | (name, t) :: ts' =>
      let '(p, w1) := alloc t w in
      let '(ps, w2) := new_parameters ts' w1 in
      ((name, p) :: ps, w2)
  end.

(** [Dist2CycleLayer(channels=channels)] *)
Definition Dist2CycleLayer_new (channels : nat) (w : World) : module * World :=
  let '(ts, g) := Dist2CycleLayer_params channels (rng w) in
  let '(ps, w1) := new_parameters ts (with_rng g w) in
  (mkModule ps [] [], w1).

(** [torch.nn.Linear(in_features, out_features)]: the weight of shape
    [out_features, in_features] is initialised first, then the bias. *)
Definition Linear_new (in_features out_features : nat) (w : World)
  : module * World :=
  let '(W, g1) := draw_matrix out_features in_features (rng w) in
  let '(b, g2) := draw out_features g1 in
  let '(weight, w1) := alloc (T2 W) (with_rng g2 w) in
  let '(bias, w2) := alloc (T1 b) w1 in
  (setattr (setattr empty_module "weight" (VParameter weight))
           "bias" (VParameter bias), w2).

(* --------------------------------------------------------------- *)
(** *** class Dist2Cycle *)

(** The loop of [__init__]: [layers.append(Dist2CycleLayer(channels))]
    for each element of [range(n_layers)]. *)
Fixpoint append_layers (channels : nat) (r : list Z)
    (layers : list module) (w : World) : list module * World :=
  match r with
  | [] => (layers, w)
  | _ :: r' =>
      let '(layer, w1) := Dist2CycleLayer_new channels w in
      append_layers channels r' (layers ++ [layer]) w1
  end.

(** [Dist2Cycle.__init__(self, channels, n_layers)] *)
Definition Dist2Cycle_init (channels : nat) (n_layers : Z) (w : World)
  : module * World :=
  let self := empty_module in
  let '(layers, w1) := append_layers channels (Py.range 0 n_layers) [] w in
  let '(linear, w2) := Linear_new channels 2 w1 in
  let self := setattr self "linear" (VModule linear) in
  let self := setattr self "layers" (VList layers) in
  (self, w2).

(** The result of a forward pass: its entries and whether it is attached
    to the autograd graph. *)
Record Tensor := mkTensor { values : matrix; requires_grad : bool }.

Definition param_data (w : World) (p : loc) : option (tensor R) :=
  data <$> heap w !! p.

(** [layer(x_1e, Linv, adjacency)] *)
Definition Dist2CycleLayer_call (layer : module) (w : World)
    (x_1e Linv adjacency : matrix) : option matrix :=
  ps ← mapM (param_data w) (parameters layer);
  Dist2CycleLayer_forward ps x_1e Linv adjacency.

(** [self.linear(x)] *)
Definition Linear_call (self : module) (w : World) (x : matrix)
  : option matrix :=
  weight ← getattr_parameter self "weight";
  bias ← getattr_parameter self "bias";
  Wt ← param_data w weight;
  bt ← param_data w bias;
  match Wt, bt with
  | T2 W, T1 b => Torch.linear W b x
  | _, _ => None
  end.

(** The loop of [forward]: [x_1 = layer(x_1e, Linv, adjacency)] for each
    layer; [x_1] is the local variable, unbound before the first
    iteration. *)
Fixpoint forward_layers (layers : list module) (w : World)
    (x_1e Linv adjacency : matrix) (x_1 : option matrix)
  : option (option matrix) :=
  match layers with
  | [] => Some x_1
  | layer :: layers' =>
      x_1' ← Dist2CycleLayer_call layer w x_1e Linv adjacency;
      forward_layers layers' w x_1e Linv adjacency (Some x_1')
  end.

(** [Dist2Cycle.forward(self, x_1e, Linv, adjacency)] *)
Definition forward (self : module) (w : World)
    (x_1e Linv adjacency : matrix) : option Tensor :=
  layers ← getattr_list self "layers";
  x_1 ← forward_layers layers w x_1e Linv adjacency None;
  linear ← getattr_module self "linear";
  logits ← Linear_call linear w x_1e;
  Some (mkTensor (Torch.softmax logits) (grad_enabled w)).

(** [self.linear.out_features]: the number of rows of the weight. *)
Definition out_features (self : module) (w : World) : option nat :=
  linear ← getattr_module self "linear";
  weight ← getattr_parameter linear "weight";
  Wt ← param_data w weight;
  match Wt with
  | T2 W => Some (length W)
  | T1 _ => None
  end.

(* --------------------------------------------------------------- *)
(** *** torch.optim.Adam *)

Record AdamState := mkAdamState {
  step : Z;
  exp_avg : tensor R;
  exp_avg_sq : tensor R
}.

Record Adam := mkAdam {
  param_groups : list loc;
  lr : R;
  state : gmap loc AdamState
}.

(** [torch.optim.Adam(params, lr=lr)]; an empty parameter list is
    refused. *)
Definition Adam_new (params : list loc) (lr : R) : option Adam :=
  match params with
  | [] => None
  | _ => Some (mkAdam params lr ∅)
  end.

(** [optimizer.zero_grad()]: the gradients of the optimizer's parameters
    are reset to [None]. *)
Definition zero_grad (optimizer : Adam) (w : World) : World :=
  with_heap
    (foldl (λ h p, alter (λ c, Cell (data c) None) p h)
           (heap w) (param_groups optimizer))
    w.

(** The per-parameter state is created at the parameter's first update. *)
Definition initial_state (p : tensor R) : AdamState :=
  mkAdamState 0 (zeros_like p) (zeros_like p).

(** One Adam update of a tensor [p] with gradient [g] and state [s]: the
    step counter is incremented, then parameter and moments are updated
    entry by entry. *)
Definition single_tensor_adam (lr : R) (p g : tensor R) (s : AdamState)
  : option (tensor R * AdamState) :=
  let t := (step s + 1)%Z in
  pg ← tzip p g;
  pgm ← tzip pg (exp_avg s);
  pgmv ← tzip pgm (exp_avg_sq s);
  let r := tmap (adam_rule lr t) pgmv in
  Some (tmap (λ x, x.1.1) r,
        mkAdamState t (tmap (λ x, x.1.2) r) (tmap (λ x, x.2) r)).

(** The update of one parameter of the optimizer; a parameter without
    gradient is skipped. *)
Definition Adam_update (p : loc) (st : World * Adam) : option (World * Adam) :=
  let '(w, optimizer) := st in
  c ← heap w !! p;
  match grad c with
  | None => Some (w, optimizer)
  | Some g =>
      let s := default (initial_state (data c)) (state optimizer !! p) in
      '(p', s') ← single_tensor_adam (lr optimizer) (data c) g s;
      Some (with_heap (<[p := Cell p' (grad c)]> (heap w)) w,
            mkAdam (param_groups optimizer) (lr optimizer)
                   (<[p := s']> (state optimizer)))
  end.

Fixpoint Adam_step_params (ps : list loc) (st : World * Adam)
  : option (World * Adam) :=
  match ps with
  | [] => Some st
  | p :: ps' => st' ← Adam_update p st; Adam_step_params ps' st'
  end.

(** [optimizer.step()] *)
Definition Adam_step (optimizer : Adam) (w : World) : option (World * Adam) :=
  Adam_step_params (param_groups optimizer) (w, optimizer).

(* --------------------------------------------------------------- *)
(** *** loss.backward() *)

(** A gradient is stored in [.grad], or added to the one already
    there. *)
Definition accumulate (g : tensor R) (c : cell) : option cell :=
  match grad c with
  | None => Some (Cell (data c) (Some g))
  | Some g0 =>
      s ← tzip g0 g;
      Some (Cell (data c) (Some (tmap (λ ab, (ab.1 + ab.2)%R) s)))
  end.

Definition add_grad (p : loc) (g : tensor R) (w : World) : option World :=
  c ← heap w !! p;
  c' ← accumulate g c;
  Some (with_heap (<[p := c']> (heap w)) w).

(** [loss.backward()] for [loss = bce(model(x_1e, ..)[:n], target)]. The
    leaves of the loss's graph are the weight and the bias of
    [model.linear]: [forward] computes the logits from them and from its
    input only. A loss that is not attached to the graph cannot be
    differentiated. *)
Definition backward (model : module) (y_hat : Tensor)
    (x_1e target : matrix) (w : World) : option World :=
  if requires_grad y_hat then
    linear ← getattr_module model "linear";
    weight ← getattr_parameter linear "weight";
    bias ← getattr_parameter linear "bias";
    Wt ← param_data w weight;
    bt ← param_data w bias;
    match Wt, bt with
    | T2 W, T1 b =>
        w1 ← add_grad weight
               (tabulate_like Wt (λ _, 0%R) (dloss_dweight W b x_1e target)) w;
        add_grad bias
               (tabulate_like bt (dloss_dbias W b x_1e target) (λ _ _, 0%R)) w1
    | _, _ => None
    end
  else None.

(* --------------------------------------------------------------- *)
(** *** The training cell *)

Definition test_interval : Z := 2.
Definition num_epochs : Z := 60.

Definition epoch_line (epoch_i : Z) (loss accuracy : R) : string :=
  "Epoch: " +:+ pretty epoch_i +:+ " loss: " +:+ format_4f loss
    +:+ " Train_acc: " +:+ format_4f accuracy.

Definition test_line (test_accuracy : R) : string :=
  "Test_acc: " +:+ format_4f test_accuracy.

Section Training.

(** The inputs of the model, fixed by the feature cell. *)
Variables x_1e Linv adjacency : matrix.

(** The label views and the model, fixed by the cells before. *)
Variables y_train y_test : ndarray.
Variable model : module.

(** The evaluation under [with torch.no_grad():]. The previous gradient
    mode is restored on exit. *)
Definition evaluate (w : World) : option World :=
  let prev := grad_enabled w in
  let w := with_grad_enabled false w in
  y_hat_test ← forward model w x_1e Linv adjacency;
  let y_pred_test := Torch.where_gt_half (values y_hat_test) in
  target ← read y_test w;
  test_accuracy ←
    Torch.accuracy (Py.slice_from (- view_len y_test) y_pred_test) target;
  let w := print (test_line test_accuracy) w in
  Some (with_grad_enabled prev w).

(** The body of the loop, for one value of [epoch_i]. It returns the new
    state and the value of [loss.item()]. [model.train()] only sets the
    training flag of modules, which nothing here reads. *)
Definition epoch (st : World * Adam) (epoch_i : Z)
  : option (World * Adam * R) :=
  let '(w, optimizer) := st in
  let w := zero_grad optimizer w in
  y_hat ← forward model w x_1e Linv adjacency;
  target ← read y_train w;
  loss ← Torch.binary_cross_entropy_with_logits
            (Py.slice_to (view_len y_train) (values y_hat)) target;
  let epoch_loss := [loss] in
  w ← backward model y_hat x_1e target w;
  '(w, optimizer) ← Adam_step optimizer w;
  let y_pred := Torch.where_gt_half (values y_hat) in
  target ← read y_train w;
  accuracy ←
    Torch.accuracy (Py.slice_from (- view_len y_train) y_pred) target;
  let w := print (epoch_line epoch_i (Torch.mean epoch_loss) accuracy) w in
  if (epoch_i `mod` test_interval =? 0)%Z then
    w ← evaluate w;
    Some (w, optimizer, loss)
  else Some (w, optimizer, loss).

(** [for epoch_i in range(1, num_epochs + 1): ...]; the values of
    [loss.item()] are collected in order. *)
Fixpoint train_loop (epochs : list Z) (st : World * Adam) (losses : list R)
  : option (World * Adam * list R) :=
  match epochs with
  | [] => Some (st, losses)
  | epoch_i :: epochs' =>
      '(st', loss) ← epoch st epoch_i;
      train_loop epochs' st' (losses ++ [loss])
  end.

Definition train (num_epochs : Z) (st : World * Adam)
  : option (World * Adam * list R) :=
  train_loop (Py.range 1 (num_epochs + 1)) st [].

(* --------------------------------------------------------------- *)
(** *** The training cell on values

    The same computation, on the values an epoch reads and updates instead
    of on the heap. It serves as the reference against which the loop
    above is analysed. *)

(** What the loop reads and never writes. *)
Record env := mkEnv {
  e_layers : list (option (list (tensor R)));
  e_train_len : Z;
  e_train : option matrix;
  e_test_len : Z;
  e_test : option matrix;
  e_lr : R;
  e_grad_enabled : bool
}.

(** What the loop updates. *)
Record vals := mkVals {
  v_weight : tensor R;
  v_bias : tensor R;
  v_state_weight : option AdamState;
  v_state_bias : option AdamState
}.

Fixpoint layers_values (ls : list (option (list (tensor R)))) : option unit :=
  match ls with
  | [] => Some tt
  | l :: ls' =>
      ps ← l;
      _ ← Dist2CycleLayer_forward ps x_1e Linv adjacency;
      layers_values ls'
  end.

Definition forward_values (ls : list (option (list (tensor R))))
    (Wt bt : tensor R) (tracked : bool) : option Tensor :=
  _ ← layers_values ls;
  match Wt, bt with
  | T2 W, T1 b =>
      logits ← Torch.linear W b x_1e;
      Some (mkTensor (Torch.softmax logits) tracked)
  | _, _ => None
  end.

Definition evaluate_values (e : env) (v : vals) : option string :=
  y_hat_test ← forward_values (e_layers e) (v_weight v) (v_bias v) false;
  let y_pred_test := Torch.where_gt_half (values y_hat_test) in
  target ← e_test e;
  test_accuracy ←
    Torch.accuracy (Py.slice_from (- e_test_len e) y_pred_test) target;
  Some (test_line test_accuracy).

Definition epoch_values (e : env) (v : vals) (epoch_i : Z)
  : option (vals * R * list string) :=
  y_hat ← forward_values (e_layers e) (v_weight v) (v_bias v)
             (e_grad_enabled e);
  target ← e_train e;
  loss ← Torch.binary_cross_entropy_with_logits
            (Py.slice_to (e_train_len e) (values y_hat)) target;
  if requires_grad y_hat then
    match v_weight v, v_bias v with
    | T2 W, T1 b =>
        let gW := tabulate_like (T2 W) (λ _, 0%R) (dloss_dweight W b x_1e target) in
        let gb := tabulate_like (T1 b) (dloss_dbias W b x_1e target) (λ _ _, 0%R) in
        '(W', sW) ← single_tensor_adam (e_lr e) (T2 W) gW
                      (default (initial_state (T2 W)) (v_state_weight v));
        '(b', sb) ← single_tensor_adam (e_lr e) (T1 b) gb
                      (default (initial_state (T1 b)) (v_state_bias v));
        let v' := mkVals W' b' (Some sW) (Some sb) in
        let y_pred := Torch.where_gt_half (values y_hat) in
        accuracy ←
          Torch.accuracy (Py.slice_from (- e_train_len e) y_pred) target;
        let line := epoch_line epoch_i (Torch.mean [loss]) accuracy in
        if (epoch_i `mod` test_interval =? 0)%Z then
          line' ← evaluate_values e v';
          Some (v', loss, [line; line'])
        else Some (v', loss, [line])
    | _, _ => None
    end
  else None.

Fixpoint train_values (e : env) (epochs : list Z) (v : vals)
    (losses : list R) (out : list string)
  : option (vals * list R * list string) :=
  match epochs with
  | [] => Some (v, losses, out)
  | epoch_i :: epochs' =>
      '(v', loss, lines) ← epoch_values e v epoch_i;
      train_values e epochs' v' (losses ++ [loss]) (out ++ lines)
  end.

(** Where the loop finds what it reads and updates: the layers of the
    model and the locations of the weight and the bias of its linear layer,
    all distinct from each other and from the label buffers. *)
Record wiring := mkWiring {
  k_layers : list module;
  k_weight : loc;
  k_bias : loc
}.

Definition wired (k : wiring) : Prop :=
  getattr_list model "layers" = Some (k_layers k) ∧
  (∃ linear,
     getattr_module model "linear" = Some linear ∧
     getattr_parameter linear "weight" = Some (k_weight k) ∧
     getattr_parameter linear "bias" = Some (k_bias k)) ∧
  k_weight k ≠ k_bias k ∧
  (∀ layer p, layer ∈ k_layers k → p ∈ parameters layer →
              p ≠ k_weight k ∧ p ≠ k_bias k) ∧
  (base y_train ≠ k_weight k ∧ base y_train ≠ k_bias k) ∧
  (base y_test ≠ k_weight k ∧ base y_test ≠ k_bias k).

Definition layer_values (w : World) (layers : list module)
  : list (option (list (tensor R))) :=
  (λ layer, mapM (param_data w) (parameters layer)) <$> layers.

Definition env_of (k : wiring) (w : World) (o : Adam) : env :=
  mkEnv (layer_values w (k_layers k))
        (view_len y_train) (read y_train w)
        (view_len y_test) (read y_test w)
        (lr o) (grad_enabled w).

Definition vals_of (k : wiring) (w : World) (o : Adam) : option vals :=
  Wt ← param_data w (k_weight k);
  bt ← param_data w (k_bias k);
  Some (mkVals Wt bt (state o !! k_weight k) (state o !! k_bias k)).

End Training.

(* --------------------------------------------------------------- *)
(** *** The cells in order *)

Definition y_head : list Z :=
  [1; 1; 1; 1; 1; 1; 1; 1; 1; 0; 1; 1; 1; 1; 0; 0; 1; 1; 0; 1; 0; 1;
   0; 0; 0; 0; 0; 0; 0; 0; 0; 0; 0; 0]%Z.

(** [y = np.append(y, y)] then [y = np.append(y, [1, ...])] *)
Definition y : list Z :=
  (y_head ++ y_head) ++ [1; 1; 1; 1; 1; 1; 0; 0; 0; 1]%Z.

(** [np.zeros((r, c))] *)
Definition zeros (r c : nat) : matrix := replicate r (replicate c 0%R).

(** [m[:, j] = col], for a column of as many entries as [m] has rows. *)
Definition set_column (j : nat) (col : list R) (m : matrix) : option matrix :=
  if decide (length col = length m)
  then Some (zip_with (λ (row : list R) x, <[j := x]> row) m col)
  else None.

(** The contents of [y_true] after the two column assignments. *)
Definition y_true : option matrix :=
  m ← set_column 0 (IZR <$> y) (zeros 78 2);
  set_column 1 (IZR <$> ((λ v, 1 - v)%Z <$> y)) m.

(** The label cell: the buffer of [y_true] and the two views
    [y_test = y_true[-4:]] and [y_train = y_true[:30]]; [torch.from_numpy]
    shares the memory of its argument. It returns
    [(y_true, y_train, y_test)]. *)
Definition label_cell (w : World) : option (ndarray * ndarray * ndarray * World) :=
  m ← y_true;
  let '(b, w1) := alloc (T2 m) w in
  let y_true := View b 0 (length m) in
  let y_test := view_slice_from (-4) y_true in
  let y_train := view_slice_to 30 y_true in
  Some (y_true, y_train, y_test, w1).

Definition channels_nodes : nat := 78.

(** The cells from the labels to the training loop, for the adjacency
    matrix [A] and the pseudo-inverse [L_tilde_pinv] of the feature cell
    and for an epoch count. *)
Definition notebook (A L_tilde_pinv : matrix) (num_epochs : Z) (w : World)
  : option (World * Adam * list R) :=
  '(_, y_train, y_test, w) ← label_cell w;
  let adjacency := A in
  let Linv := L_tilde_pinv in
  res ← pointwise Rmult adjacency Linv;
  let x_1e := res in
  let '(model, w) := Dist2Cycle_init channels_nodes 10 w in
  optimizer ← Adam_new (parameters model) (4 / 10);
  train x_1e Linv adjacency y_train y_test model num_epochs (w, optimizer).

(* --------------------------------------------------------------- *)
(** *** The feature cells *)

(** [dataset.get_simplex_attributes(name)] is a dictionary from simplices
    to feature vectors; [.items()] lists it in insertion order. *)
Definition attributes : Type := list (list nat * list R).

(** [x = []] then [for k, v in d.items(): x.append(v)] *)
Fixpoint append_values (items : attributes) (x : list (list R))
  : list (list R) :=
  match items with
  | [] => x
  | (_, v) :: items' => append_values items' (x ++ [v])
  end.

(** [np.stack(arrays)] for one-dimensional arrays: it raises on an empty
    list and when the arrays do not all have the same shape. *)
Definition stack (arrays : list (list R)) : option matrix :=
  match arrays with
  | [] => None
  | a :: _ =>
      if forallb (λ v, length v =? length a) arrays then Some arrays else None
  end.

(** A feature cell: [x_1 = np.stack(x_1)] after the loop. *)
Definition feature_cell (d : attributes) : option matrix :=
  stack (append_values d []).

(** [print(f"There are {x.shape[0]} <kind> with features of dimension
    {x.shape[1]}.")] for a stacked array [x]. *)
Definition shape_line (kind : string) (x : matrix) : string :=
  "There are " +:+ pretty (length x) +:+ " " +:+ kind
    +:+ " with features of dimension "
    +:+ pretty (length (default [] (head x))) +:+ ".".

Definition report_cell (kind : string) (x : matrix) (w : World) : World :=
  print (shape_line kind x) w.

(* --------------------------------------------------------------- *)
(** *** What the constructors allocate *)

(** The cells created for a list of named tensors, and the dictionary that
    names them when the first is allocated at [base]. *)
Definition cells_of (ts : list (string * tensor R)) : list cell :=
  (λ nt, Cell nt.2 None) <$> ts.

Definition params_at (base : nat) (ts : list (string * tensor R))
  : list (string * loc) :=
  zip (ts.*1) (seq base (length ts)).

(** The tensors of [k] layers constructed one after the other. *)
Fixpoint layer_tensors (channels k : nat) (g : RNG)
  : list (list (string * tensor R)) * RNG :=
  match k with
  | O => ([], g)
  | S k' =>
      let '(ts, g1) := Dist2CycleLayer_params channels g in
      let '(tss, g2) := layer_tensors channels k' g1 in
      (ts :: tss, g2)
  end.

Fixpoint layers_at (base : nat) (tss : list (list (string * tensor R)))
  : list module :=
  match tss with
  | [] => []
  | ts :: tss' =>
      mkModule (params_at base ts) [] [] :: layers_at (base + length ts) tss'
  end.

(* ================================================================= *)
(** ** Properties *)

(** Inversion of a successful chain of binds in the option monad. *)
Ltac bind_inv H :=
  repeat match type of H with
  | (?m ≫= _) = Some _ =>
      let x := fresh "x" in
      let E := fresh "E" in
      destruct m as [x|] eqn:E; [simpl in H|discriminate H]
  end.

(** *** Slices *)

Lemma slice_to_take {A} (n : nat) (l : list A) :
  Py.slice_to (Z.of_nat n) l = take n l.
Proof.
  unfold Py.slice_to, Py.adjust, Py.len.
  destruct (Z.ltb_spec (Z.of_nat n) 0); [lia|].
  destruct (decide (n ≤ length l)).
  - f_equal. lia.
  - rewrite !take_ge by lia. reflexivity.
Qed.

(** [l[-n:]] keeps the last [n] elements; for [n = 0] it is [l[0:]], the
    whole list. *)
Lemma slice_from_neg_drop {A} (n : nat) (l : list A) :
  0 < n → Py.slice_from (- Z.of_nat n) l = drop (length l - n) l.
Proof.
  intros Hn. unfold Py.slice_from, Py.adjust, Py.len.
  destruct (Z.ltb_spec (- Z.of_nat n) 0); [|lia].
  f_equal. lia.
Qed.

Lemma length_range (lo hi : Z) : length (Py.range lo hi) = Z.to_nat (hi - lo).
Proof. unfold Py.range. by rewrite length_fmap, length_seq. Qed.

(** *** Shapes *)

Lemma shape_tmap {A B} (f : A → B) (t : tensor A) : shape (tmap f t) = shape t.
Proof.
  destruct t as [v|m]; simpl; f_equal.
  - apply length_fmap.
  - rewrite <- list_fmap_compose. apply list_fmap_ext.
    intros _ row _. simpl. apply length_fmap.
Qed.

Lemma shape_zeros_like (t : tensor R) : shape (zeros_like t) = shape t.
Proof. apply shape_tmap. Qed.

Lemma fmap_imap {A B C} (g : B → C) (h : A → C) (f : nat → A → B) (l : list A) :
  (∀ i x, g (f i x) = h x) → g <$> imap f l = h <$> l.
Proof.
  revert f. induction l as [|x l IH]; intros f Hf; simpl; [done|].
  f_equal; [apply Hf|]. apply IH. intros i y. apply Hf.
Qed.

Lemma shape_tabulate_like {A} (t : tensor A) f1 f2 :
  shape (tabulate_like t f1 f2) = shape t.
Proof.
  destruct t as [v|m]; simpl; f_equal.
  - apply length_imap.
  - apply fmap_imap. intros i row. apply length_imap.
Qed.

Lemma tzip_Some {A B} (a : tensor A) (b : tensor B) c :
  tzip a b = Some c → shape a = shape b ∧ shape c = shape a.
Proof.
  unfold tzip. case_decide as Hs; [|done].
  destruct a as [u|m], b as [v|n]; try done; intros [= <-]; split; try done;
    simpl in *; f_equal.
  - injection Hs as Hs. rewrite length_zip. lia.
  - injection Hs as Hs. revert n Hs.
    induction m as [|r m IH]; intros [|r' n] Hs; simpl in *; try done.
    injection Hs as Hr Hs. f_equal; [|by apply IH].
    rewrite length_zip. lia.
Qed.

Lemma tzip_is_Some {A B} (a : tensor A) (b : tensor B) :
  shape a = shape b → ∃ c, tzip a b = Some c ∧ shape c = shape a.
Proof.
  intros Hs. unfold tzip. rewrite decide_True by done.
  destruct a as [u|m], b as [v|n]; try done; eexists; (split; [reflexivity|]).
  - apply (tzip_Some (T1 u) (T1 v)). unfold tzip. by rewrite decide_True.
  - apply (tzip_Some (T2 m) (T2 n)). unfold tzip. by rewrite decide_True.
Qed.

(** *** Softmax and the linear layer *)

Lemma sum_fmap_div (s : R) (l : list R) :
  Torch.sum ((λ x, x / s)%R <$> l) = (Torch.sum l / s)%R.
Proof.
  induction l as [|x l IH]; csimpl.
  - unfold Rdiv. lra.
  - rewrite IH. unfold Rdiv. lra.
Qed.

Lemma sum_exp_nonneg (z : list R) : (0 <= Torch.sum (exp <$> z))%R.
Proof.
  induction z as [|x z IH]; csimpl; [lra|].
  pose proof (exp_pos x). lra.
Qed.

Lemma sum_exp_pos (z : list R) : z ≠ [] → (0 < Torch.sum (exp <$> z))%R.
Proof.
  destruct z as [|x z]; [done|]. intros _. csimpl.
  pose proof (exp_pos x). pose proof (sum_exp_nonneg z). lra.
Qed.

Lemma softmax_row_nonneg (z : list R) :
  Forall (λ p, (0 <= p)%R) (Torch.softmax_row z).
Proof.
  unfold Torch.softmax_row. destruct (decide (z = [])) as [->|Hz]; [constructor|].
  pose proof (sum_exp_pos z Hz) as Hs.
  rewrite Forall_fmap, Forall_fmap. apply Forall_forall. intros x _. simpl.
  apply Rlt_le, Rdiv_lt_0_compat; [apply exp_pos|done].
Qed.

Lemma softmax_row_sum (z : list R) :
  z ≠ [] → Torch.sum (Torch.softmax_row z) = 1%R.
Proof.
  intros Hz. unfold Torch.softmax_row. rewrite sum_fmap_div.
  pose proof (sum_exp_pos z Hz). field. lra.
Qed.

Lemma linear_Some (W : matrix) (b : list R) (x out : matrix) :
  Torch.linear W b x = Some out →
  length out = length x ∧ Forall (λ row, length row = length W) out.
Proof.
  unfold Torch.linear. case_match eqn:Hc; [|done]. intros [= <-].
  apply andb_prop in Hc as [_ Hb]. apply Nat.eqb_eq in Hb.
  split; [apply length_fmap|].
  rewrite Forall_fmap. apply Forall_forall. intros row _. simpl.
  rewrite length_zip_with. lia.
Qed.

Lemma Linear_call_Some (linear : module) (w : World) (x logits : matrix) :
  Linear_call linear w x = Some logits →
  ∃ weight bias W b,
    getattr_parameter linear "weight" = Some weight ∧
    getattr_parameter linear "bias" = Some bias ∧
    param_data w weight = Some (T2 W) ∧
    param_data w bias = Some (T1 b) ∧
    Torch.linear W b x = Some logits.
Proof.
  unfold Linear_call. intros H. bind_inv H.
  repeat case_match; simplify_eq. eauto 10.
Qed.

Lemma forward_Some (self : module) (w : World) (x_1e Linv adjacency : matrix)
    (y_hat : Tensor) :
  forward self w x_1e Linv adjacency = Some y_hat →
  ∃ layers x_1 linear logits,
    getattr_list self "layers" = Some layers ∧
    forward_layers layers w x_1e Linv adjacency None = Some x_1 ∧
    getattr_module self "linear" = Some linear ∧
    Linear_call linear w x_1e = Some logits ∧
    y_hat = mkTensor (Torch.softmax logits) (grad_enabled w).
Proof.
  unfold forward. intros H. bind_inv H. injection H as <-. eauto 10.
Qed.

(** In exact arithmetic, if the linear layer has the two output features
    it is built with, every row of the tensor returned by [forward] is a
    probability vector. The float32 computation, where a logit can be
    infinite or NaN, is treated with [F32.forward] further down. *)
Lemma forward_rows_are_distributions (self : module) (w : World)
    (x_1e Linv adjacency : matrix) (y_hat : Tensor) :
  out_features self w = Some 2 →
  forward self w x_1e Linv adjacency = Some y_hat →
  Forall (λ row, Forall (λ p, (0 <= p)%R) row ∧ Torch.sum row = 1%R)
         (values y_hat).
Proof.
  intros Hout (layers & x_1 & linear & logits & _ & _ & Hlin & Hcall & ->)%forward_Some.
  apply Linear_call_Some in Hcall as (weight & bias & W & b & Hw & _ & HW & _ & Hl).
  unfold out_features in Hout. rewrite Hlin in Hout. simpl in Hout.
  rewrite Hw in Hout. simpl in Hout. rewrite HW in Hout. injection Hout as HlenW.
  apply linear_Some in Hl as [_ Hrows].
  simpl. unfold Torch.softmax. rewrite Forall_fmap.
  eapply Forall_impl; [exact Hrows|]. intros row Hlen. simpl.
  split; [apply softmax_row_nonneg|].
  apply softmax_row_sum. intros ->. simpl in Hlen. lia.
Qed.

(** *** Construction of the model *)

Lemma new_parameters_spec (ts : list (string * tensor R)) (w : World) :
  new_parameters ts w =
    (params_at (length (heap w)) ts, with_heap (heap w ++ cells_of ts) w).
Proof.
  revert w. induction ts as [|[name t] ts IH]; intros w.
  - simpl. unfold cells_of, with_heap. simpl. rewrite app_nil_r. by destruct w.
  - simpl. rewrite IH. unfold params_at, cells_of, with_heap. simpl.
    rewrite length_app, Nat.add_1_r, <- app_assoc. reflexivity.
Qed.

Lemma Dist2CycleLayer_new_spec (channels : nat) (w : World) ts g :
  Dist2CycleLayer_params channels (rng w) = (ts, g) →
  Dist2CycleLayer_new channels w =
    (mkModule (params_at (length (heap w)) ts) [] [],
     mkWorld g (heap w ++ cells_of ts) (stdout w) (grad_enabled w)).
Proof.
  intros H. unfold Dist2CycleLayer_new. rewrite H, new_parameters_spec.
  reflexivity.
Qed.

Lemma append_layers_spec (channels : nat) (r : list Z) (layers : list module)
    (w : World) tss g :
  layer_tensors channels (length r) (rng w) = (tss, g) →
  append_layers channels r layers w =
    (layers ++ layers_at (length (heap w)) tss,
     mkWorld g (heap w ++ cells_of (concat tss)) (stdout w) (grad_enabled w)).
Proof.
  revert layers w tss g. induction r as [|k r IH]; intros layers w tss g H.
  - simpl in *. injection H as <- <-. simpl.
    rewrite !app_nil_r. by destruct w.
  - simpl in H.
    destruct (Dist2CycleLayer_params channels (rng w)) as [ts g1] eqn:Hts.
    destruct (layer_tensors channels (length r) g1) as [tss' g2] eqn:Htss.
    injection H as <- <-. simpl.
    rewrite (Dist2CycleLayer_new_spec _ _ _ _ Hts).
    rewrite (IH _ _ tss' g2) by exact Htss. simpl.
    unfold cells_of. rewrite length_app, length_fmap, fmap_app, <- !app_assoc.
    reflexivity.
Qed.

Lemma Dist2Cycle_init_spec (channels : nat) (n_layers : Z) (w : World)
    tss g1 W g2 b g3 :
  layer_tensors channels (Z.to_nat n_layers) (rng w) = (tss, g1) →
  draw_matrix 2 channels g1 = (W, g2) →
  draw 2 g2 = (b, g3) →
  let weight := length (heap w) + length (concat tss) in
  Dist2Cycle_init channels n_layers w =
    (mkModule []
       [("linear", mkModule [("weight", weight); ("bias", S weight)] [] [])]
       [("layers", layers_at (length (heap w)) tss)],
     mkWorld g3
       (heap w ++ cells_of (concat tss) ++ [Cell (T2 W) None; Cell (T1 b) None])
       (stdout w) (grad_enabled w)).
Proof.
  intros Htss HW Hb weight. unfold Dist2Cycle_init.
  rewrite (append_layers_spec _ _ _ _ tss g1)
    by (by rewrite length_range, Z.sub_0_r).
  unfold Linear_new. simpl rng. rewrite HW, Hb. unfold alloc. simpl.
  subst weight. unfold cells_of.
  rewrite !length_app, !length_fmap, Nat.add_1_r, <- !app_assoc. reflexivity.
Qed.

(** *** The parameters a module reports *)

Lemma unique_elem_of (seen l : list nat) (p : nat) :
  p ∈ unique seen l → p ∈ l.
Proof.
  revert seen. induction l as [|x l IH]; intros seen; simpl; [done|].
  case_decide.
  - intros Hp. right. by eapply IH.
  - intros [->|Hp]%elem_of_cons; [left|right]. by eapply IH.
Qed.

Lemma unique_NoDup (seen l : list nat) :
  NoDup l → (∀ p, p ∈ l → p ∉ seen) → unique seen l = l.
Proof.
  revert seen. induction l as [|x l IH]; intros seen Hnd Hseen; simpl; [done|].
  apply NoDup_cons in Hnd as [Hx Hnd].
  rewrite decide_False by (apply Hseen; left).
  f_equal. apply IH; [done|].
  intros p Hp [->|Hin]%elem_of_cons; [done|].
  by apply (Hseen p); [right|].
Qed.

Lemma params_at_snd (base : nat) (ts : list (string * tensor R)) :
  (params_at base ts).*2 = seq base (length ts).
Proof.
  unfold params_at. apply snd_zip. by rewrite length_fmap, length_seq.
Qed.

Lemma parameters_layers_at (base : nat) tss (layer : module) (p : nat) :
  layer ∈ layers_at base tss → p ∈ parameters layer →
  base ≤ p < base + length (concat tss).
Proof.
  revert base. induction tss as [|ts tss IH]; intros base; simpl.
  - by intros ?%elem_of_nil.
  - rewrite length_app. intros [->|Hl]%elem_of_cons Hp.
    + apply unique_elem_of in Hp. simpl in Hp.
      rewrite app_nil_r, params_at_snd in Hp.
      apply elem_of_seq in Hp. lia.
    + specialize (IH _ Hl Hp). lia.
Qed.

(** *** The optimizer writes its own parameters only *)

Lemma Adam_update_frame (p : nat) (w w' : World) (o o' : Adam) :
  Adam_update p (w, o) = Some (w', o') →
  (∀ l, l ≠ p → heap w' !! l = heap w !! l) ∧
  length (heap w') = length (heap w) ∧
  rng w' = rng w ∧ stdout w' = stdout w ∧ grad_enabled w' = grad_enabled w ∧
  param_groups o' = param_groups o ∧ lr o' = lr o.
Proof.
  unfold Adam_update. intros H. bind_inv H.
  destruct (grad x) as [g|].
  - bind_inv H. destruct x0 as [p' s']. injection H as <- <-. simpl.
    split; [|by rewrite length_insert].
    intros l Hl. by apply list_lookup_insert_ne.
  - by injection H as <- <-.
Qed.

Lemma Adam_step_params_frame (ps : list nat) (w w' : World) (o o' : Adam) :
  Adam_step_params ps (w, o) = Some (w', o') →
  (∀ l, l ∉ ps → heap w' !! l = heap w !! l) ∧
  length (heap w') = length (heap w) ∧
  rng w' = rng w ∧ stdout w' = stdout w ∧ grad_enabled w' = grad_enabled w ∧
  param_groups o' = param_groups o ∧ lr o' = lr o.
Proof.
  revert w o. induction ps as [|p ps IH]; intros w o H; simpl in H.
  - by injection H as <- <-.
  - bind_inv H. destruct x as [w1 o1].
    apply Adam_update_frame in E as (Hf1 & Hl1 & Hr1 & Hs1 & Hg1 & Hp1 & Hlr1).
    apply IH in H as (Hf & Hl & Hr & Hs & Hg & Hp & Hlr).
    repeat split; try congruence.
    intros l Hl'.
    rewrite Hf by (intros Hin; apply Hl'; by right).
    apply Hf1. intros ->. apply Hl'. left.
Qed.

Lemma Dist2Cycle_init_parameters (channels : nat) (n_layers : Z)
    (w0 w1 : World) (self : module) :
  Dist2Cycle_init channels n_layers w0 = (self, w1) →
  ∃ tss linear weight,
    getattr_list self "layers" = Some (layers_at (length (heap w0)) tss) ∧
    getattr_module self "linear" = Some linear ∧
    getattr_parameter linear "weight" = Some weight ∧
    getattr_parameter linear "bias" = Some (S weight) ∧
    weight = length (heap w0) + length (concat tss) ∧
    parameters self = [weight; S weight].
Proof.
  destruct (layer_tensors channels (Z.to_nat n_layers) (rng w0))
    as [tss g1] eqn:Htss.
  destruct (draw_matrix 2 channels g1) as [W g2] eqn:HW.
  destruct (draw 2 g2) as [b g3] eqn:Hb.
  rewrite (Dist2Cycle_init_spec _ _ _ _ _ _ _ _ _ Htss HW Hb).
  intros [= <- <-]. eexists tss, _, _.
  repeat split; try reflexivity.
  unfold parameters. simpl. rewrite decide_False; [done|].
  rewrite elem_of_cons, elem_of_nil. lia.
Qed.

(** C3. For the model built by [Dist2Cycle.__init__], [model.parameters()]
    is exactly the weight and the bias of the final linear layer: the
    message-passing layers are held in a plain list attribute and none of
    their parameters is reported. An optimizer over these parameters
    therefore leaves the cell of every layer parameter as it was, at every
    step and from every state. *)
Theorem optimizer_leaves_layers_unchanged
    (channels : nat) (n_layers : Z) (w0 w1 : World) (self : module)
    (layers : list module) (layer : module) (p : nat)
    (optimizer optimizer' : Adam) (w w' : World) :
  Dist2Cycle_init channels n_layers w0 = (self, w1) →
  getattr_list self "layers" = Some layers →
  layer ∈ layers →
  p ∈ parameters layer →
  param_groups optimizer = parameters self →
  Adam_step optimizer w = Some (w', optimizer') →
  (∃ linear weight bias,
     getattr_module self "linear" = Some linear ∧
     getattr_parameter linear "weight" = Some weight ∧
     getattr_parameter linear "bias" = Some bias ∧
     parameters self = [weight; bias]) ∧
  (p ∉ parameters self) ∧
  heap w' !! p = heap w !! p.
Proof.
  intros Hinit Hlayers Hlayer Hp Hgroups Hstep.
  apply Dist2Cycle_init_parameters in Hinit
    as (tss & linear & weight & Hl & Hlin & Hw & Hb & Hweight & Hps).
  rewrite Hl in Hlayers. injection Hlayers as <-.
  pose proof (parameters_layers_at _ _ _ _ Hlayer Hp) as Hrange.
  assert (p ∉ parameters self) as Hnot.
  { rewrite Hps, !elem_of_cons, elem_of_nil. lia. }
  split; [eauto 10|]. split; [done|].
  unfold Adam_step in Hstep.
  apply Adam_step_params_frame in Hstep as [Hframe _].
  apply Hframe. by rewrite Hgroups.
Qed.

(** *** Which cells the operations of an epoch touch *)

Lemma with_heap_id (w : World) : with_heap (heap w) w = w.
Proof. by destruct w. Qed.

Lemma foldl_alter_lookup (f : cell → cell) (ps : list nat) (h : list cell) (l : nat) :
  (∀ c, f (f c) = f c) →
  foldl (λ h p, alter f p h) h ps !! l
  = (if decide (l ∈ ps) then f else λ c, c) <$> h !! l.
Proof.
  intros Hf. revert h. induction ps as [|p ps IH]; intros h; cbn [foldl].
  - rewrite decide_False by apply not_elem_of_nil. by destruct (h !! l).
  - rewrite IH. destruct (decide (l = p)) as [->|Hne].
    + rewrite list_lookup_alter_eq, (decide_True (P := p ∈ p :: ps)) by left.
      destruct (h !! p) as [c|]; simpl; [|done].
      case_decide; by rewrite ?Hf.
    + rewrite list_lookup_alter_ne by done.
      destruct (decide (l ∈ ps)) as [Hin|Hnin].
      * by rewrite decide_True by (by right).
      * rewrite decide_False; [done|].
        rewrite elem_of_cons. by intros [?|?].
Qed.

Lemma foldl_alter_length (f : cell → cell) (ps : list nat) (h : list cell) :
  length (foldl (λ h p, alter f p h) h ps) = length h.
Proof.
  revert h. induction ps as [|p ps IH]; intros h; simpl; [done|].
  by rewrite IH, length_alter.
Qed.

Lemma zero_grad_heap (o : Adam) (w : World) (l : nat) :
  heap (zero_grad o w) !! l
  = (if decide (l ∈ param_groups o)
     then λ c, Cell (data c) None else λ c, c) <$> heap w !! l.
Proof. unfold zero_grad. simpl. by apply foldl_alter_lookup. Qed.

Lemma zero_grad_param_data (o : Adam) (w : World) (l : nat) :
  param_data (zero_grad o w) l = param_data w l.
Proof.
  unfold param_data. rewrite zero_grad_heap.
  destruct (heap w !! l) as [c|]; simpl; [|done]. by case_decide.
Qed.

Lemma zero_grad_frame (o : Adam) (w : World) (l : nat) :
  l ∉ param_groups o → heap (zero_grad o w) !! l = heap w !! l.
Proof.
  intros Hl. rewrite zero_grad_heap, decide_False by done.
  by destruct (heap w !! l).
Qed.

Lemma zero_grad_length (o : Adam) (w : World) :
  length (heap (zero_grad o w)) = length (heap w).
Proof. unfold zero_grad. simpl. apply foldl_alter_length. Qed.

Lemma accumulate_data (g : tensor R) (c c' : cell) :
  accumulate g c = Some c' → data c' = data c.
Proof.
  unfold accumulate. destruct (grad c); intros H.
  - bind_inv H. by injection H as <-.
  - by injection H as <-.
Qed.

Lemma add_grad_Some (p : nat) (g : tensor R) (w w' : World) :
  add_grad p g w = Some w' →
  ∃ c c', heap w !! p = Some c ∧ accumulate g c = Some c' ∧
          w' = with_heap (<[p := c']> (heap w)) w.
Proof. unfold add_grad. intros H. bind_inv H. injection H as <-. eauto. Qed.

Lemma add_grad_param_data (p : nat) (g : tensor R) (w w' : World) (l : nat) :
  add_grad p g w = Some w' → param_data w' l = param_data w l.
Proof.
  intros (c & c' & Hc & Hacc & ->)%add_grad_Some. unfold param_data. simpl.
  destruct (decide (l = p)) as [->|Hne].
  - rewrite list_lookup_insert_eq by (by eapply lookup_lt_Some).
    rewrite Hc. simpl. f_equal. by eapply accumulate_data.
  - by rewrite list_lookup_insert_ne.
Qed.

Lemma add_grad_frame (p : nat) (g : tensor R) (w w' : World) :
  add_grad p g w = Some w' →
  (∀ l, l ≠ p → heap w' !! l = heap w !! l) ∧
  length (heap w') = length (heap w) ∧
  rng w' = rng w ∧ stdout w' = stdout w ∧ grad_enabled w' = grad_enabled w.
Proof.
  intros (c & c' & Hc & Hacc & ->)%add_grad_Some. simpl.
  split; [|by rewrite length_insert].
  intros l Hl. by rewrite list_lookup_insert_ne.
Qed.

(** *** One epoch *)

Section TrainingProperties.

Variables x_1e Linv adjacency : matrix.
Variables y_train y_test : ndarray.
Variable model : module.

Local Abbreviation evaluate := (evaluate x_1e Linv adjacency y_test model).
Local Abbreviation epoch := (epoch x_1e Linv adjacency y_train y_test model).
Local Abbreviation train_loop := (train_loop x_1e Linv adjacency y_train y_test model).
Local Abbreviation train := (train x_1e Linv adjacency y_train y_test model).

Lemma backward_Some (y_hat : Tensor) (target : matrix) (w w' : World) :
  backward model y_hat x_1e target w = Some w' →
  ∃ linear weight bias W b w1,
    requires_grad y_hat = true ∧
    getattr_module model "linear" = Some linear ∧
    getattr_parameter linear "weight" = Some weight ∧
    getattr_parameter linear "bias" = Some bias ∧
    param_data w weight = Some (T2 W) ∧
    param_data w bias = Some (T1 b) ∧
    add_grad weight
      (tabulate_like (T2 W) (λ _, 0%R) (dloss_dweight W b x_1e target)) w
      = Some w1 ∧
    add_grad bias
      (tabulate_like (T1 b) (dloss_dbias W b x_1e target) (λ _ _, 0%R)) w1
      = Some w'.
Proof.
  unfold backward. intros H. destruct (requires_grad y_hat); [|done].
  bind_inv H. repeat case_match; simplify_eq. bind_inv H. eauto 15.
Qed.

Lemma backward_frame (y_hat : Tensor) (target : matrix) (w w' : World) :
  backward model y_hat x_1e target w = Some w' →
  (∀ l, param_data w' l = param_data w l) ∧
  length (heap w') = length (heap w) ∧
  rng w' = rng w ∧ stdout w' = stdout w ∧ grad_enabled w' = grad_enabled w.
Proof.
  intros (linear & weight & bias & W & b & w1 & _ & _ & _ & _ & _ & _ & H1 & H2)
    %backward_Some.
  pose proof (add_grad_frame _ _ _ _ H1) as (_ & ? & ? & ? & ?).
  pose proof (add_grad_frame _ _ _ _ H2) as (_ & ? & ? & ? & ?).
  repeat split; try congruence.
  intros l. rewrite (add_grad_param_data _ _ _ _ l H2).
  apply (add_grad_param_data _ _ _ _ l H1).
Qed.

Lemma backward_frame_heap (y_hat : Tensor) (target : matrix) (w w' : World)
    linear weight bias (l : nat) :
  backward model y_hat x_1e target w = Some w' →
  getattr_module model "linear" = Some linear →
  getattr_parameter linear "weight" = Some weight →
  getattr_parameter linear "bias" = Some bias →
  l ≠ weight → l ≠ bias → heap w' !! l = heap w !! l.
Proof.
  intros (linear' & weight' & bias' & W & b & w1 & _ & Hl & Hw & Hb & _ & _ & H1 & H2)
    %backward_Some Hl' Hw' Hb' Hne1 Hne2.
  simplify_eq.
  pose proof (add_grad_frame _ _ _ _ H1) as (Hf1 & _).
  pose proof (add_grad_frame _ _ _ _ H2) as (Hf2 & _).
  by rewrite Hf2, Hf1.
Qed.

Lemma evaluate_Some (w w' : World) :
  evaluate w = Some w' →
  ∃ y_hat_test target test_accuracy,
    forward model (with_grad_enabled false w) x_1e Linv adjacency
      = Some y_hat_test ∧
    requires_grad y_hat_test = false ∧
    read y_test w = Some target ∧
    Torch.accuracy
      (Py.slice_from (- view_len y_test)
         (Torch.where_gt_half (values y_hat_test))) target
      = Some test_accuracy ∧
    w' = print (test_line test_accuracy) w.
Proof.
  unfold evaluate. intros H. bind_inv H. injection H as <-.
  exists x, x0, x1. repeat split; try done.
  by apply forward_Some in E as (? & ? & ? & ? & _ & _ & _ & _ & ->).
Qed.

Lemma epoch_Some (w : World) (o : Adam) (epoch_i : Z) (w' : World) (o' : Adam)
    (loss : R) :
  epoch (w, o) epoch_i = Some (w', o', loss) →
  ∃ y_hat target w1 w2 target' accuracy,
    forward model (zero_grad o w) x_1e Linv adjacency = Some y_hat ∧
    read y_train (zero_grad o w) = Some target ∧
    Torch.binary_cross_entropy_with_logits
      (Py.slice_to (view_len y_train) (values y_hat)) target = Some loss ∧
    backward model y_hat x_1e target (zero_grad o w) = Some w1 ∧
    Adam_step o w1 = Some (w2, o') ∧
    read y_train w2 = Some target' ∧
    Torch.accuracy
      (Py.slice_from (- view_len y_train)
         (Torch.where_gt_half (values y_hat))) target' = Some accuracy ∧
    let w3 := print (epoch_line epoch_i (Torch.mean [loss]) accuracy) w2 in
    if (epoch_i `mod` test_interval =? 0)%Z
    then evaluate w3 = Some w' else w' = w3.
Proof.
  unfold epoch. intros H. bind_inv H. destruct x3 as [w2 o2].
  simpl in H. bind_inv H.
  assert (x1 = loss ∧ o2 = o' ∧
          if (epoch_i `mod` test_interval =? 0)%Z
          then evaluate (print (epoch_line epoch_i (Torch.mean [x1]) x4) w2)
               = Some w'
          else w' = print (epoch_line epoch_i (Torch.mean [x1]) x4) w2)
    as (-> & -> & Hbranch).
  { destruct (_ =? _)%Z; [bind_inv H|]; by simplify_eq. }
  exists x, x0, x2, w2, x3, x4. repeat split; done.
Qed.

Lemma mean_singleton (x : R) : Torch.mean [x] = x.
Proof. unfold Torch.mean. simpl. field. Qed.

Lemma forward_layers_ext (layers : list module) (w1 w2 : World) x_1 :
  heap w1 = heap w2 →
  forward_layers layers w1 x_1e Linv adjacency x_1
  = forward_layers layers w2 x_1e Linv adjacency x_1.
Proof.
  intros Hh. revert x_1. induction layers as [|layer layers IH]; intros x_1;
    simpl; [done|].
  unfold Dist2CycleLayer_call, param_data. rewrite Hh.
  destruct (mapM _ _) as [ps|]; simpl; [|done].
  destruct (Dist2CycleLayer_forward _ _ _ _) as [y|]; simpl; [apply IH|done].
Qed.

Lemma forward_ext (self : module) (w1 w2 : World) :
  heap w1 = heap w2 → grad_enabled w1 = grad_enabled w2 →
  forward self w1 x_1e Linv adjacency = forward self w2 x_1e Linv adjacency.
Proof.
  intros Hh Hg. unfold forward, Linear_call, param_data.
  rewrite Hh, Hg. destruct (getattr_list self "layers") as [layers|]; [|done].
  simpl. by rewrite (forward_layers_ext layers w1 w2).
Qed.

(** C8. A completed epoch appends to the console exactly the line
    [Epoch: <n> loss: <loss:.4f> Train_acc: <acc:.4f>] and, when the epoch
    index is divisible by 2, after it the line [Test_acc: <acc:.4f>], and
    nothing else. The test accuracy is that of a forward pass made with
    gradient tracking disabled on the parameters the epoch ends with,
    thresholded and compared on its last [len(y_test)] rows with
    [y_test]. *)
Theorem epoch_prints (w : World) (o : Adam) (epoch_i : Z)
    (w' : World) (o' : Adam) (loss : R) :
  epoch (w, o) epoch_i = Some (w', o', loss) →
  ∃ accuracy : R,
    let line := "Epoch: " +:+ pretty epoch_i +:+ " loss: " +:+ format_4f loss
                  +:+ " Train_acc: " +:+ format_4f accuracy in
    if (epoch_i `mod` 2 =? 0)%Z then
      ∃ (y_hat_test : Tensor) (target : matrix) (test_accuracy : R),
        forward model (with_grad_enabled false w') x_1e Linv adjacency
          = Some y_hat_test ∧
        requires_grad y_hat_test = false ∧
        read y_test w' = Some target ∧
        Torch.accuracy
          (Py.slice_from (- view_len y_test)
             (Torch.where_gt_half (values y_hat_test))) target
          = Some test_accuracy ∧
        stdout w' = stdout w ++ [line; "Test_acc: " +:+ format_4f test_accuracy]
    else stdout w' = stdout w ++ [line].
Proof.
  intros (y_hat & target & w1 & w2 & target' & accuracy & _ & _ & _ & Hbw & Hstep
          & _ & _ & Hbranch)%epoch_Some.
  apply backward_frame in Hbw as (_ & _ & _ & Hout1 & _).
  apply Adam_step_params_frame in Hstep as (_ & _ & _ & Hout2 & _).
  assert (stdout w2 = stdout w) as Hout by (by rewrite Hout2, Hout1).
  exists accuracy. simpl in *. rewrite mean_singleton in Hbranch.
  change test_interval with 2%Z in Hbranch.
  destruct (epoch_i `mod` 2 =? 0)%Z.
  - apply evaluate_Some in Hbranch
      as (y_hat_test & tgt & test_accuracy & Hfw & Hrg & Hread & Hacc & ->).
    exists y_hat_test, tgt, test_accuracy. repeat split; try done.
    + rewrite <- Hfw. by apply forward_ext.
    + simpl. rewrite Hout, <- app_assoc. reflexivity.
  - subst w'. simpl. by rewrite Hout.
Qed.

(** C2 (what the code does). In a completed epoch the loss is computed on
    the first [len(y_train)] rows of the model output, but the accuracy
    printed as [Train_acc] compares [y_train] with the last [len(y_train)]
    rows of the thresholded output: for an output of 78 rows and 30
    training labels, rows 48..77 and not rows 0..29. *)
Theorem train_accuracy_uses_last_rows (w : World) (o : Adam) (epoch_i : Z)
    (w' : World) (o' : Adam) (loss : R) :
  epoch (w, o) epoch_i = Some (w', o', loss) →
  lo y_train < hi y_train →
  let n := hi y_train - lo y_train in
  ∃ (y_hat : Tensor) (target target' : matrix) (accuracy : R) (rest : list string),
    forward model (zero_grad o w) x_1e Linv adjacency = Some y_hat ∧
    Torch.binary_cross_entropy_with_logits (take n (values y_hat)) target
      = Some loss ∧
    Torch.accuracy
      (drop (length (values y_hat) - n) (Torch.where_gt_half (values y_hat)))
      target' = Some accuracy ∧
    read y_train (zero_grad o w) = Some target ∧
    read y_train w' = Some target' ∧
    stdout w' = stdout w ++ epoch_line epoch_i loss accuracy :: rest.
Proof.
  intros (y_hat & target & w1 & w2 & target' & accuracy & Hfw & Hread & Hloss
          & Hbw & Hstep & Hread' & Hacc & Hbranch)%epoch_Some Hn n.
  apply backward_frame in Hbw as (_ & _ & _ & Hout1 & _).
  apply Adam_step_params_frame in Hstep as (_ & _ & _ & Hout2 & _).
  unfold view_len in *. fold n in Hloss, Hacc.
  rewrite slice_to_take in Hloss.
  rewrite slice_from_neg_drop in Hacc by (subst n; lia).
  assert (length (Torch.where_gt_half (values y_hat)) = length (values y_hat))
    as Hlen by (unfold Torch.where_gt_half; apply length_fmap).
  rewrite Hlen in Hacc.
  simpl in Hbranch. rewrite mean_singleton in Hbranch.
  assert (read y_train w' = read y_train w2 ∧
          ∃ rest, stdout w' = stdout w2 ++ epoch_line epoch_i loss accuracy :: rest)
    as [Hr [rest Hout]].
  { destruct (_ =? _)%Z.
    - apply evaluate_Some in Hbranch as (? & ? & ta & _ & _ & _ & _ & ->).
      split; [done|]. exists [test_line ta]. simpl.
      by rewrite <- app_assoc.
    - subst w'. split; [done|]. by exists []. }
  exists y_hat, target, target', accuracy, rest.
  split_and!; try done; [congruence|].
  rewrite Hout, Hout2, Hout1. reflexivity.
Qed.

(** *** The loop computes what the value-level loop computes *)

Local Abbreviation wired := (wired y_train y_test model).
Local Abbreviation env_of := (env_of y_train y_test).
Local Abbreviation layers_values := (layers_values x_1e Linv adjacency).
Local Abbreviation forward_values := (forward_values x_1e Linv adjacency).
Local Abbreviation evaluate_values := (evaluate_values x_1e Linv adjacency).
Local Abbreviation epoch_values := (epoch_values x_1e Linv adjacency).
Local Abbreviation train_values := (train_values x_1e Linv adjacency).

Lemma forward_layers_values {A} (layers : list module) (w : World) x_1
    (r : option A) :
  forward_layers layers w x_1e Linv adjacency x_1 ≫= (λ _, r)
  = layers_values (layer_values w layers) ≫= (λ _, r).
Proof.
  revert x_1. induction layers as [|layer layers IH]; intros x_1; [done|].
  unfold layer_values. csimpl. unfold Dist2CycleLayer_call.
  destruct (mapM _ _) as [ps|]; simpl; [|done].
  destruct (Dist2CycleLayer_forward _ _ _ _) as [y|]; simpl; [apply IH|done].
Qed.

Lemma forward_wired (k : wiring) (w : World) (Wt bt : tensor R) :
  wired k →
  param_data w (k_weight k) = Some Wt →
  param_data w (k_bias k) = Some bt →
  forward model w x_1e Linv adjacency
  = forward_values (layer_values w (k_layers k)) Wt bt (grad_enabled w).
Proof.
  intros (Hl & (linear & Hlin & Hw & Hb) & _) HW Hb'.
  unfold forward, forward_values. rewrite Hl. simpl.
  rewrite forward_layers_values.
  destruct (layers_values _) as [[]|]; simpl; [|done].
  rewrite Hlin. simpl. unfold Linear_call. rewrite Hw, Hb. simpl.
  rewrite HW, Hb'. simpl.
  destruct Wt as [|W], bt as [b|]; try done.
Qed.

Lemma read_ext (v : ndarray) (w w' : World) :
  heap w' !! base v = heap w !! base v → read v w' = read v w.
Proof. unfold read. by intros ->. Qed.

Lemma mapM_ext_in {A B} (f g : A → option B) (l : list A) :
  (∀ x, x ∈ l → f x = g x) → mapM f l = mapM g l.
Proof.
  induction l as [|x l IH]; intros H; [done|].
  change (mapM f (x :: l)) with (y ← f x; k ← mapM f l; mret (y :: k)).
  change (mapM g (x :: l)) with (y ← g x; k ← mapM g l; mret (y :: k)).
  rewrite H by left. rewrite IH; [done|].
  intros y Hy. apply H. by right.
Qed.

Lemma layer_values_ext (layers : list module) (w w' : World) :
  (∀ layer p, layer ∈ layers → p ∈ parameters layer →
              param_data w' p = param_data w p) →
  layer_values w' layers = layer_values w layers.
Proof.
  intros H. unfold layer_values. apply list_fmap_ext. intros i layer Hi.
  apply list_elem_of_lookup_2 in Hi.
  apply mapM_ext_in. intros p Hp. by apply (H layer).
Qed.

(** Two worlds that differ at most in the cells of the weight and the bias
    and in the console. *)
Definition same_others (k : wiring) (w w' : World) : Prop :=
  (∀ l, l ≠ k_weight k → l ≠ k_bias k → heap w' !! l = heap w !! l) ∧
  length (heap w') = length (heap w) ∧
  rng w' = rng w ∧ grad_enabled w' = grad_enabled w.

Lemma same_others_refl (k : wiring) (w : World) : same_others k w w.
Proof. by repeat split. Qed.

Lemma same_others_trans (k : wiring) (w1 w2 w3 : World) :
  same_others k w1 w2 → same_others k w2 w3 → same_others k w1 w3.
Proof.
  intros (Hfst & ? & ? & ?) (Hsnd & ? & ? & ?). repeat split; try congruence.
  intros l Hw Hb. by rewrite Hsnd, Hfst.
Qed.

Lemma same_others_print (k : wiring) (w w' : World) (s : string) :
  same_others k w w' → same_others k w (print s w').
Proof. by intros (? & ? & ? & ?). Qed.

Lemma env_of_same_others (k : wiring) (w w' : World) (o o' : Adam) :
  wired k → same_others k w w' → lr o' = lr o →
  env_of k w' o' = env_of k w o.
Proof.
  intros (_ & _ & _ & Hlayers & [? ?] & [? ?]) (Hh & _ & _ & Hg) Hlr.
  unfold env_of. rewrite Hlr, Hg. f_equal.
  - apply layer_values_ext. intros layer p Hl Hp.
    destruct (Hlayers layer p Hl Hp). unfold param_data. by rewrite Hh.
  - apply read_ext. by apply Hh.
  - apply read_ext. by apply Hh.
Qed.

Lemma add_grad_fresh (p : nat) (g d : tensor R) (w : World) :
  heap w !! p = Some (Cell d None) →
  add_grad p g w = Some (with_heap (<[p := Cell d (Some g)]> (heap w)) w).
Proof. intros H. unfold add_grad. by rewrite H. Qed.

Lemma Adam_update_cell (p : nat) (d g : tensor R) (w : World) (o : Adam) :
  heap w !! p = Some (Cell d (Some g)) →
  Adam_update p (w, o)
  = match single_tensor_adam (lr o) d g
            (default (initial_state d) (state o !! p)) with
    | Some (p', s') =>
        Some (with_heap (<[p := Cell p' (Some g)]> (heap w)) w,
              mkAdam (param_groups o) (lr o) (<[p := s']> (state o)))
    | None => None
    end.
Proof.
  intros H. unfold Adam_update. rewrite H. simpl.
  by destruct (single_tensor_adam _ _ _ _) as [[p' s']|].
Qed.

(** The gradient step of an epoch, from a world in which the gradients of
    the weight and the bias have been reset. *)
Lemma update_refines (k : wiring) (w0 : World) (o : Adam) (y_hat : Tensor)
    (target : matrix) (W : matrix) (b : list R) :
  wired k →
  param_groups o = [k_weight k; k_bias k] →
  heap w0 !! k_weight k = Some (Cell (T2 W) None) →
  heap w0 !! k_bias k = Some (Cell (T1 b) None) →
  requires_grad y_hat = true →
  let gW := tabulate_like (T2 W) (λ _, 0%R) (dloss_dweight W b x_1e target) in
  let gb := tabulate_like (T1 b) (dloss_dbias W b x_1e target) (λ _ _, 0%R) in
  let step := backward model y_hat x_1e target w0 ≫= Adam_step o in
  match single_tensor_adam (lr o) (T2 W) gW
          (default (initial_state (T2 W)) (state o !! k_weight k)) with
  | None => step = None
  | Some (W', sW) =>
      match single_tensor_adam (lr o) (T1 b) gb
              (default (initial_state (T1 b)) (state o !! k_bias k)) with
      | None => step = None
      | Some (b', sb) =>
          ∃ w2 o2,
            step = Some (w2, o2) ∧
            param_data w2 (k_weight k) = Some W' ∧
            param_data w2 (k_bias k) = Some b' ∧
            state o2 !! k_weight k = Some sW ∧
            state o2 !! k_bias k = Some sb ∧
            param_groups o2 = param_groups o ∧ lr o2 = lr o ∧
            stdout w2 = stdout w0 ∧
            same_others k w0 w2
      end
  end.
Proof.
  intros (_ & (linear & Hlin & Hw & Hb) & Hne & _) Hgroups HW Hbias Hrg gW gb step.
  assert (k_weight k < length (heap w0)) as HlW by (by eapply lookup_lt_Some).
  assert (k_bias k < length (heap w0)) as Hlb by (by eapply lookup_lt_Some).
  set (h1 := <[k_weight k := Cell (T2 W) (Some gW)]> (heap w0)).
  set (h2 := <[k_bias k := Cell (T1 b) (Some gb)]> h1).
  assert (backward model y_hat x_1e target w0 = Some (with_heap h2 w0)) as Hbw.
  { unfold backward. rewrite Hrg, Hlin. simpl. rewrite Hw, Hb. simpl.
    unfold param_data. rewrite HW, Hbias. simpl.
    rewrite (add_grad_fresh _ _ _ _ HW). simpl.
    rewrite (add_grad_fresh _ _ (T1 b)); [done|]. simpl.
    by rewrite list_lookup_insert_ne. }
  subst step. rewrite Hbw. cbn [mbind option_bind].
  unfold Adam_step. rewrite Hgroups. cbn [Adam_step_params].
  rewrite (Adam_update_cell _ (T2 W) gW).
  2:{ simpl. subst h2. rewrite list_lookup_insert_ne by done.
      subst h1. by rewrite list_lookup_insert_eq. }
  destruct (single_tensor_adam _ _ gW _) as [[W' sW]|]; [|done].
  cbn [mbind option_bind].
  rewrite (Adam_update_cell _ (T1 b) gb).
  2:{ simpl. rewrite list_lookup_insert_ne by done.
      subst h2. rewrite list_lookup_insert_eq; [done|].
      subst h1. by rewrite length_insert. }
  cbn [state lr]. rewrite lookup_insert_ne by done.
  destruct (single_tensor_adam _ _ gb _) as [[b' sb]|]; [|done].
  cbn [mbind option_bind].
  eexists _, _. split; [reflexivity|]. unfold param_data. simpl.
  subst h2 h1.
  assert (k_bias k ≠ k_weight k) as Hne' by (intros E; by apply Hne).
  repeat split.
  - rewrite list_lookup_insert_ne by done.
    rewrite list_lookup_insert_eq; [done|]. by rewrite !length_insert.
  - rewrite list_lookup_insert_eq; [done|]. by rewrite !length_insert.
  - rewrite lookup_insert_ne by done. by rewrite lookup_insert_eq.
  - by rewrite lookup_insert_eq.
  - done.
  - intros l H1 H2. simpl. by rewrite !list_lookup_insert_ne.
  - simpl. by rewrite !length_insert.
Qed.

Lemma vals_of_Some (k : wiring) (w : World) (o : Adam) (v : vals) :
  vals_of k w o = Some v →
  param_data w (k_weight k) = Some (v_weight v) ∧
  param_data w (k_bias k) = Some (v_bias v) ∧
  v_state_weight v = state o !! k_weight k ∧
  v_state_bias v = state o !! k_bias k.
Proof. unfold vals_of. intros H. bind_inv H. by injection H as <-. Qed.

Lemma evaluate_refines (k : wiring) (w : World) (o : Adam) (v : vals) :
  wired k → vals_of k w o = Some v →
  evaluate w
  = (line ← evaluate_values (env_of k w o) v; Some (print line w)).
Proof.
  intros Hwired (HW & Hb & _ & _)%vals_of_Some.
  unfold evaluate, evaluate_values.
  rewrite (forward_wired k _ (v_weight v) (v_bias v)) by done.
  change (layer_values (with_grad_enabled false w) (k_layers k))
    with (e_layers (env_of k w o)).
  change (grad_enabled (with_grad_enabled false w)) with false.
  destruct (forward_values _ _ _ _) as [y_hat_test|]; [|done]. simpl.
  change (read y_test (with_grad_enabled false w)) with (read y_test w).
  destruct (read y_test w) as [target|]; [|done]. simpl.
  by destruct (Torch.accuracy _ _) as [test_accuracy|].
Qed.

Lemma bind_assoc_Some {A B C} (m : option A) (f : A → option B)
    (g : B → option C) (r : B) :
  m ≫= f = Some r → m ≫= (λ x, f x ≫= g) = g r.
Proof. destruct m as [a|]; simpl; [|done]. by intros ->. Qed.

Lemma bind_assoc_None {A B C} (m : option A) (f : A → option B)
    (g : B → option C) :
  m ≫= f = None → m ≫= (λ x, f x ≫= g) = None.
Proof. destruct m as [a|]; simpl; [|done]. by intros ->. Qed.

Lemma zero_grad_wired (k : wiring) (w : World) (o : Adam) (v : vals) :
  wired k →
  param_groups o = [k_weight k; k_bias k] →
  vals_of k w o = Some v →
  heap (zero_grad o w) !! k_weight k = Some (Cell (v_weight v) None) ∧
  heap (zero_grad o w) !! k_bias k = Some (Cell (v_bias v) None) ∧
  same_others k w (zero_grad o w).
Proof.
  intros _ Hgroups (HW & Hb & _ & _)%vals_of_Some.
  unfold param_data in HW, Hb.
  destruct (heap w !! k_weight k) as [cW|] eqn:HcW; [|done].
  destruct (heap w !! k_bias k) as [cb|] eqn:Hcb; [|done].
  injection HW as HW. injection Hb as Hb.
  rewrite !zero_grad_heap, Hgroups, HcW, Hcb.
  rewrite !decide_True by (rewrite !elem_of_cons; auto).
  simpl. rewrite HW, Hb. repeat split; try done.
  - intros l H1 H2. apply zero_grad_frame. rewrite Hgroups.
    rewrite !elem_of_cons, elem_of_nil. by intros [?|[?|?]].
  - apply zero_grad_length.
Qed.

(** One epoch of the loop against one epoch on values. *)
Lemma epoch_refines (k : wiring) (w : World) (o : Adam) (v : vals) (epoch_i : Z) :
  wired k →
  param_groups o = [k_weight k; k_bias k] →
  vals_of k w o = Some v →
  match epoch_values (env_of k w o) v epoch_i with
  | Some (v', loss, lines) =>
      ∃ w' o',
        epoch (w, o) epoch_i = Some (w', o', loss) ∧
        param_groups o' = param_groups o ∧
        vals_of k w' o' = Some v' ∧
        env_of k w' o' = env_of k w o ∧
        stdout w' = stdout w ++ lines ∧
        same_others k w w'
  | None => epoch (w, o) epoch_i = None
  end.
Proof.
  intros Hwired Hgroups Hv.
  destruct (zero_grad_wired k w o v Hwired Hgroups Hv) as (HW0 & Hb0 & Hso0).
  pose proof (env_of_same_others k w _ o o Hwired Hso0 eq_refl) as He0.
  pose proof Hv as (HW & Hb & HsW & Hsb)%vals_of_Some.
  unfold epoch, epoch_values.
  rewrite (forward_wired k _ (v_weight v) (v_bias v));
    [|done|by rewrite zero_grad_param_data..].
  change (layer_values (zero_grad o w) (k_layers k))
    with (e_layers (env_of k (zero_grad o w) o)).
  change (read y_train (zero_grad o w))
    with (e_train (env_of k (zero_grad o w) o)).
  change (grad_enabled (zero_grad o w))
    with (e_grad_enabled (env_of k (zero_grad o w) o)).
  rewrite He0.
  destruct (forward_values _ _ _ _) as [y_hat|] eqn:Hfw; [|done].
  cbn [mbind option_bind].
  destruct (e_train (env_of k w o)) as [target|] eqn:Htr; [|done].
  cbn [mbind option_bind].
  change (e_train_len (env_of k w o)) with (view_len y_train).
  destruct (Torch.binary_cross_entropy_with_logits _ _) as [loss|]; [|done].
  cbn [mbind option_bind].
  destruct (requires_grad y_hat) eqn:Hrg.
  2:{ unfold backward. by rewrite Hrg. }
  destruct (v_weight v) as [|W] eqn:EW.
  { unfold forward_values in Hfw. by destruct (layers_values _). }
  destruct (v_bias v) as [b|] eqn:Eb.
  2:{ unfold forward_values in Hfw. by destruct (layers_values _). }
  pose proof (update_refines k (zero_grad o w) o y_hat target W b
                Hwired Hgroups HW0 Hb0 Hrg) as Hup.
  cbv zeta in Hup.
  change (e_lr (env_of k w o)) with (lr o). rewrite HsW, Hsb.
  destruct (single_tensor_adam _ _ _ _) as [[W' sW]|].
  2:{ by apply bind_assoc_None. }
  cbn [mbind option_bind].
  destruct (single_tensor_adam _ _ _ _) as [[b' sb]|].
  2:{ by apply bind_assoc_None. }
  cbn [mbind option_bind].
  destruct Hup as (w2 & o2 & Hstep & HW2 & Hb2 & HsW2 & Hsb2 & Hg2 & Hlr2
                   & Hout2 & Hso2).
  pose proof (same_others_trans _ _ _ _ Hso0 Hso2) as Hso.
  assert (read y_train w2 = Some target) as Hread.
  { rewrite <- Htr. apply read_ext. destruct Hwired as (_ & _ & _ & _ & [? ?] & _).
    by apply Hso. }
  set (v' := mkVals W' b' (Some sW) (Some sb)).
  assert (∀ s, vals_of k (print s w2) o2 = Some v') as Hv'.
  { intros s. unfold vals_of.
    change (param_data (print s w2)) with (param_data w2).
    by rewrite HW2, Hb2, HsW2, Hsb2. }
  assert (∀ s, env_of k (print s w2) o2 = env_of k w o) as He'.
  { intros s. apply env_of_same_others; [done| |done].
    by apply same_others_print. }
  rewrite (bind_assoc_Some _ _ _ _ Hstep). cbn beta iota.
  rewrite Hread. cbn [mbind option_bind].
  destruct (Torch.accuracy _ _) as [accuracy|]; [|done].
  cbn [mbind option_bind].
  destruct (epoch_i `mod` test_interval =? 0)%Z.
  - rewrite (evaluate_refines k _ o2 v' Hwired (Hv' _)), He'.
    destruct (evaluate_values _ _) as [line'|]; [|done].
    cbn [mbind option_bind].
    eexists _, _. split; [reflexivity|].
    split; [congruence|]. split; [apply Hv'|].
    split; [apply (He' line')|]. simpl. split.
    + rewrite Hout2, <- app_assoc. reflexivity.
    + by do 2 apply same_others_print.
  - eexists _, _. split; [reflexivity|].
    split; [congruence|]. split; [apply Hv'|].
    split; [apply He'|]. simpl. split.
    + by rewrite Hout2.
    + by apply same_others_print.
Qed.

(** *** The whole loop *)

Lemma train_loop_length (epochs : list Z) (st st' : World * Adam)
    (losses losses' : list R) :
  train_loop epochs st losses = Some (st', losses') →
  length losses' = length losses + length epochs.
Proof.
  revert st losses. induction epochs as [|epoch_i epochs IH];
    intros st losses H; simpl in H.
  - injection H as <- <-. simpl. lia.
  - bind_inv H. destruct x as [st1 loss]. apply IH in H.
    rewrite H, length_app. simpl. lia.
Qed.

Lemma train_loop_refines (k : wiring) (epochs : list Z) (w : World) (o : Adam)
    (v : vals) (losses : list R) (out : list string) :
  wired k →
  param_groups o = [k_weight k; k_bias k] →
  vals_of k w o = Some v →
  match train_values (env_of k w o) epochs v losses out with
  | Some (v', losses', out') =>
      ∃ w' o',
        train_loop epochs (w, o) losses = Some (w', o', losses') ∧
        param_groups o' = param_groups o ∧
        vals_of k w' o' = Some v' ∧
        env_of k w' o' = env_of k w o ∧
        (∀ s0, stdout w = s0 ++ out → stdout w' = s0 ++ out') ∧
        same_others k w w'
  | None => train_loop epochs (w, o) losses = None
  end.
Proof.
  intros Hwired. revert w o v losses out.
  induction epochs as [|epoch_i epochs IH]; intros w o v losses out Hgroups Hv.
  - simpl. exists w, o. repeat split; try done.
  - cbn [train_values train_loop].
    pose proof (epoch_refines k w o v epoch_i Hwired Hgroups Hv) as Hep.
    destruct (epoch_values _ _ _) as [[[v1 loss] lines]|]; [|by rewrite Hep].
    destruct Hep as (w1 & o1 & -> & Hg1 & Hv1 & He1 & Hout1 & Hso1).
    cbn [mbind option_bind].
    rewrite Hgroups in Hg1.
    specialize (IH w1 o1 v1 (losses ++ [loss]) (out ++ lines) Hg1 Hv1).
    rewrite He1 in IH.
    destruct (train_values _ _ _ _ _) as [[[v' losses'] out']|]; [|done].
    destruct IH as (w' & o' & -> & Hg' & Hv' & He' & Hout' & Hso').
    exists w', o'. repeat split; try congruence.
    + intros s0 Hs0. apply Hout'. by rewrite Hout1, Hs0, app_assoc.
    + by apply (same_others_trans _ _ _ _ Hso1).
    + by apply (same_others_trans _ _ _ _ Hso1).
    + by apply (same_others_trans _ _ _ _ Hso1).
    + by apply (same_others_trans _ _ _ _ Hso1).
Qed.

(** *** Well-shaped inputs never raise *)

Lemma is_shape_lengths (r c : nat) (M : matrix) :
  is_shape r c M ↔ length <$> M = replicate r c.
Proof.
  unfold is_shape. revert r. induction M as [|row M IH]; intros r; csimpl.
  - split.
    + by intros [<- _].
    + destruct r; [|done]. intros _. split; [done|constructor].
  - split.
    + intros [<- [Hrow HM]%Forall_cons]. simpl. f_equal; [done|].
      apply IH. by split.
    + destruct r as [|r]; [done|]. simpl. intros [= Hrow HM].
      apply IH in HM as [<- HM]. split; [done|]. by constructor.
Qed.

Lemma is_shape_take (r c n : nat) (M : matrix) :
  is_shape r c M → n ≤ r → is_shape n c (take n M).
Proof.
  intros [<- HM] Hn. split.
  - rewrite length_take. lia.
  - by apply Forall_take.
Qed.

Lemma is_shape_drop (r c n : nat) (M : matrix) :
  is_shape r c M → is_shape (r - n) c (drop n M).
Proof.
  intros [<- HM]. split.
  - by rewrite length_drop.
  - by apply Forall_drop.
Qed.

Lemma linear_total (c : nat) (W : matrix) (b : list R) (x : matrix) :
  Forall (λ row, length row = c) x →
  Forall (λ row, length row = c) W →
  length W = length b →
  ∃ logits, Torch.linear W b x = Some logits ∧
            is_shape (length x) (length W) logits.
Proof.
  intros Hx HW Hb. unfold Torch.linear.
  assert (forallb (λ row : list R,
            forallb (λ w_j : list R, length row =? length w_j) W) x
          && (length W =? length b) = true) as ->.
  { apply andb_true_intro. split; [|by apply Nat.eqb_eq].
    apply Is_true_true, forallb_True.
    eapply Forall_impl; [exact Hx|]. intros row Hrow. simpl.
    apply forallb_True. eapply Forall_impl; [exact HW|]. intros w_j Hw. simpl.
    apply Is_true_true, Nat.eqb_eq. congruence. }
  eexists. split; [reflexivity|]. split; [apply length_fmap|].
  rewrite Forall_fmap. apply Forall_forall. intros row _. simpl.
  rewrite length_zip_with. lia.
Qed.

Lemma is_shape_softmax (r c : nat) (M : matrix) :
  is_shape r c M → is_shape r c (Torch.softmax M).
Proof.
  intros [<- HM]. unfold Torch.softmax. split; [apply length_fmap|].
  rewrite Forall_fmap. eapply Forall_impl; [exact HM|].
  intros row Hrow. simpl. unfold Torch.softmax_row. by rewrite !length_fmap.
Qed.

Lemma where_gt_half_lengths (M : matrix) :
  length <$> Torch.where_gt_half M = length <$> M.
Proof.
  unfold Torch.where_gt_half. rewrite <- list_fmap_compose.
  apply list_fmap_ext. intros i row _. simpl. apply length_fmap.
Qed.

Lemma accuracy_total (n : nat) (pred : list (list Z)) (target : matrix) :
  length <$> pred = replicate n 2 → is_shape n 2 target →
  ∃ a, Torch.accuracy pred target = Some a.
Proof.
  intros Hp Ht%is_shape_lengths. unfold Torch.accuracy, Torch.eq. simpl.
  rewrite Hp, Ht, decide_True by done. simpl. eauto.
Qed.

Lemma bce_total (n : nat) (input target : matrix) :
  is_shape n 2 input → is_shape n 2 target →
  ∃ loss, Torch.binary_cross_entropy_with_logits input target = Some loss.
Proof.
  intros Hi%is_shape_lengths Ht%is_shape_lengths.
  unfold Torch.binary_cross_entropy_with_logits, tzip. simpl.
  rewrite Hi, Ht, decide_True by done. eauto.
Qed.

Lemma single_tensor_adam_total (lr : R) (p g : tensor R) (s : AdamState) :
  shape g = shape p →
  shape (exp_avg s) = shape p →
  shape (exp_avg_sq s) = shape p →
  ∃ p' s', single_tensor_adam lr p g s = Some (p', s') ∧
           shape p' = shape p ∧
           shape (exp_avg s') = shape p ∧
           shape (exp_avg_sq s') = shape p ∧
           step s' = (step s + 1)%Z.
Proof.
  intros Hg Hm Hv. unfold single_tensor_adam.
  destruct (tzip_is_Some p g) as (pg & -> & Hpg); [done|]. simpl.
  destruct (tzip_is_Some pg (exp_avg s)) as (pgm & -> & Hpgm); [congruence|].
  simpl.
  destruct (tzip_is_Some pgm (exp_avg_sq s)) as (pgmv & -> & Hpgmv);
    [congruence|].
  simpl. eexists _, _. split; [reflexivity|]. simpl.
  rewrite !shape_tmap. repeat split; congruence.
Qed.

(** A label view of [m] rows, with [0 < m] no larger than the number of
    rows of the model input, read as [m] rows of two entries. *)
Definition labels_ok (n : Z) (T : option matrix) : Prop :=
  ∃ (m : nat) (rows : matrix),
    n = Z.of_nat m ∧ T = Some rows ∧ 0 < m ≤ length x_1e ∧ is_shape m 2 rows.

(** Shapes under which no operation of an epoch raises: the input has
    [c] columns, the weight is 2 by [c], the bias has 2 entries, the moments
    of the optimizer have the shapes of their parameters, the layers accept
    the input, and gradient tracking is enabled. *)
Definition well_shaped (c : nat) (e : env) (v : vals) : Prop :=
  layers_values (e_layers e) = Some tt ∧
  Forall (λ row, length row = c) x_1e ∧
  shape (v_weight v) = Shape2 [c; c] ∧
  shape (v_bias v) = Shape1 2 ∧
  (∀ s, v_state_weight v = Some s →
        shape (exp_avg s) = Shape2 [c; c] ∧ shape (exp_avg_sq s) = Shape2 [c; c]) ∧
  (∀ s, v_state_bias v = Some s →
        shape (exp_avg s) = Shape1 2 ∧ shape (exp_avg_sq s) = Shape1 2) ∧
  labels_ok (e_train_len e) (e_train e) ∧
  labels_ok (e_test_len e) (e_test e) ∧
  e_grad_enabled e = true.

Lemma forward_values_total (c : nat) ls (Wt bt : tensor R) (tracked : bool) :
  layers_values ls = Some tt →
  Forall (λ row, length row = c) x_1e →
  shape Wt = Shape2 [c; c] →
  shape bt = Shape1 2 →
  ∃ y, forward_values ls Wt bt tracked = Some (mkTensor y tracked) ∧
       is_shape (length x_1e) 2 y.
Proof.
  intros Hls Hx HW Hb. unfold forward_values. rewrite Hls. simpl.
  destruct Wt as [|W]; [done|]. destruct bt as [b|]; [|done].
  simpl in HW, Hb. injection HW as HW. injection Hb as Hb.
  apply (is_shape_lengths 2 c) in HW as [HlW HW].
  destruct (linear_total c W b x_1e) as (logits & -> & Hlogits);
    [done|done|congruence|].
  simpl. eexists. split; [reflexivity|].
  apply is_shape_softmax. by rewrite HlW in Hlogits.
Qed.

Lemma predictions_tail (n m : nat) (y : matrix) :
  is_shape n 2 y → 0 < m ≤ n →
  length <$> Py.slice_from (- Z.of_nat m) (Torch.where_gt_half y)
  = replicate m 2.
Proof.
  intros Hy Hm. pose proof Hy as [Hlen _].
  apply is_shape_lengths in Hy.
  assert (length (Torch.where_gt_half y) = n) as Hl.
  { unfold Torch.where_gt_half. by rewrite length_fmap. }
  rewrite slice_from_neg_drop by lia.
  rewrite fmap_drop, where_gt_half_lengths, Hy, drop_replicate, Hl.
  f_equal. lia.
Qed.

Lemma evaluate_values_total (c : nat) (e : env) (v : vals) :
  well_shaped c e v → ∃ line, evaluate_values e v = Some line.
Proof.
  intros (Hls & Hx & HW & Hb & _ & _ & _ & (m & rows & Hn & Hrows & Hm & Hsh) & _).
  unfold evaluate_values.
  destruct (forward_values_total c _ _ _ false Hls Hx HW Hb) as (y & -> & Hy).
  simpl. rewrite Hrows, Hn. simpl.
  destruct (accuracy_total m
              (Py.slice_from (- Z.of_nat m) (Torch.where_gt_half y)) rows)
    as (a & ->); [eapply predictions_tail; [exact Hy|lia]|done|].
  simpl. eauto.
Qed.

Lemma state_shapes (p : tensor R) (s : option AdamState) (sh : shape_t) :
  shape p = sh →
  (∀ s', s = Some s' → shape (exp_avg s') = sh ∧ shape (exp_avg_sq s') = sh) →
  shape (exp_avg (default (initial_state p) s)) = shape p ∧
  shape (exp_avg_sq (default (initial_state p) s)) = shape p.
Proof.
  intros <- Hs. destruct s as [s'|]; simpl.
  - by apply Hs.
  - by rewrite shape_zeros_like.
Qed.

(** The number of updates a parameter has received. *)
Definition steps_of (s : option AdamState) : Z := default 0%Z (step <$> s).

Lemma epoch_values_total (c : nat) (e : env) (v : vals) (epoch_i : Z) :
  well_shaped c e v →
  ∃ v' loss lines,
    epoch_values e v epoch_i = Some (v', loss, lines) ∧ well_shaped c e v' ∧
    steps_of (v_state_weight v') = (steps_of (v_state_weight v) + 1)%Z ∧
    steps_of (v_state_bias v') = (steps_of (v_state_bias v) + 1)%Z.
Proof.
  intros Hws.
  pose proof Hws as (Hls & Hx & HW & Hb & HsW & Hsb & Htrain & Htest & Hge).
  destruct Htrain as (m & rows & Hn & Hrows & Hm & Hsh).
  unfold epoch_values.
  destruct (forward_values_total c _ _ _ (e_grad_enabled e) Hls Hx HW Hb)
    as (y & -> & Hy).
  cbn [mbind option_bind values requires_grad]. rewrite Hrows, Hn, Hge.
  cbn [mbind option_bind].
  assert (length y = length x_1e) as Hly by apply Hy.
  rewrite slice_to_take.
  destruct (bce_total m (take m y) rows) as (loss & ->);
    [eapply is_shape_take; [exact Hy|lia]|done|].
  cbn [mbind option_bind].
  destruct (v_weight v) as [|W] eqn:EW; [done|].
  destruct (v_bias v) as [b|] eqn:Eb; [|done].
  destruct (state_shapes (T2 W) (v_state_weight v) _ HW HsW) as [Hm1 Hv1].
  destruct (single_tensor_adam_total (e_lr e) (T2 W)
              (tabulate_like (T2 W) (λ _, 0%R) (dloss_dweight W b x_1e rows))
              (default (initial_state (T2 W)) (v_state_weight v)))
    as (W' & sW & -> & HW' & HmW & HvW & HstW);
    [apply shape_tabulate_like|done|done|].
  cbn [mbind option_bind].
  destruct (state_shapes (T1 b) (v_state_bias v) _ Hb Hsb) as [Hm2 Hv2].
  destruct (single_tensor_adam_total (e_lr e) (T1 b)
              (tabulate_like (T1 b) (dloss_dbias W b x_1e rows) (λ _ _, 0%R))
              (default (initial_state (T1 b)) (v_state_bias v)))
    as (b' & sb & -> & Hb' & Hmb & Hvb & Hstb);
    [apply shape_tabulate_like|done|done|].
  cbn [mbind option_bind].
  destruct (accuracy_total m
              (Py.slice_from (- Z.of_nat m) (Torch.where_gt_half y)) rows)
    as (a & ->); [eapply predictions_tail; [exact Hy|lia]|done|].
  cbn [mbind option_bind].
  assert (well_shaped c e (mkVals W' b' (Some sW) (Some sb))) as Hws'.
  { unfold well_shaped. simpl. split_and!; try done; try congruence.
    - intros ? [= <-]. split; congruence.
    - intros ? [= <-]. split; congruence.
    - by exists m, rows. }
  assert (∀ s : option AdamState, ∀ p : tensor R,
            step (default (initial_state p) s) = steps_of s) as Hsteps.
  { by intros [s|] p. }
  rewrite Hsteps in HstW, Hstb.
  destruct (epoch_i `mod` test_interval =? 0)%Z.
  - destruct (evaluate_values_total c e _ Hws') as (line' & ->).
    cbn [mbind option_bind]. eexists _, _, _.
    split; [reflexivity|]. split; [exact Hws'|]. simpl. by split.
  - eexists _, _, _.
    split; [reflexivity|]. split; [exact Hws'|]. simpl. by split.
Qed.

Lemma train_values_total (c : nat) (e : env) (epochs : list Z) (v : vals)
    (losses : list R) (out : list string) :
  well_shaped c e v →
  ∃ v' losses' out',
    train_values e epochs v losses out = Some (v', losses', out') ∧
    well_shaped c e v' ∧
    steps_of (v_state_weight v')
    = (steps_of (v_state_weight v) + Z.of_nat (length epochs))%Z ∧
    steps_of (v_state_bias v')
    = (steps_of (v_state_bias v) + Z.of_nat (length epochs))%Z.
Proof.
  revert v losses out. induction epochs as [|epoch_i epochs IH];
    intros v losses out Hws.
  - simpl. exists v, losses, out.
    split; [done|]. split; [done|]. split; lia.
  - cbn [train_values].
    destruct (epoch_values_total c e v epoch_i Hws)
      as (v1 & loss & lines & -> & Hws1 & HsW & Hsb).
    cbn [mbind option_bind].
    destruct (IH v1 (losses ++ [loss]) (out ++ lines) Hws1)
      as (v' & losses' & out' & -> & Hws' & HsW' & Hsb').
    eexists _, _, _.
    split; [reflexivity|]. split; [done|]. simpl length. split; lia.
Qed.

(** On well-shaped values the loop over [range(1, num_epochs + 1)] runs to
    completion, records [num_epochs] losses and advances the step counters
    of the weight and of the bias by [num_epochs]. *)
Lemma train_runs_num_epochs (k : wiring) (c : nat) (w : World) (o : Adam)
    (v : vals) (num_epochs : Z) :
  wired k →
  param_groups o = [k_weight k; k_bias k] →
  vals_of k w o = Some v →
  well_shaped c (env_of k w o) v →
  (0 ≤ num_epochs)%Z →
  ∃ w' o' losses,
    train num_epochs (w, o) = Some (w', o', losses) ∧
    Z.of_nat (length losses) = num_epochs ∧
    steps_of (state o' !! k_weight k)
    = (steps_of (state o !! k_weight k) + num_epochs)%Z ∧
    steps_of (state o' !! k_bias k)
    = (steps_of (state o !! k_bias k) + num_epochs)%Z.
Proof.
  intros Hwired Hgroups Hv Hws Hn. unfold train.
  pose proof (train_loop_refines k (Py.range 1 (num_epochs + 1)) w o v [] []
                Hwired Hgroups Hv) as Href.
  destruct (train_values_total c _ (Py.range 1 (num_epochs + 1)) v [] [] Hws)
    as (v' & losses & out & Htv & _ & HsW & Hsb).
  rewrite Htv in Href.
  destruct Href as (w' & o' & Htrain & _ & Hv' & _).
  exists w', o', losses. split; [done|].
  apply train_loop_length in Htrain.
  apply vals_of_Some in Hv as (_ & _ & HvW & Hvb).
  apply vals_of_Some in Hv' as (_ & _ & HvW' & Hvb').
  rewrite length_range in *. simpl in Htrain.
  rewrite <- HvW, <- Hvb, <- HvW', <- Hvb', HsW, Hsb, Htrain.
  repeat split; lia.
Qed.

(** C9. With an epoch count of 0 the loop returns at once: the world (and
    in it every parameter cell) and the optimizer, whose state records the
    steps made, are the ones it was given, and no loss was computed. *)
Theorem train_zero_epochs (w : World) (o : Adam) :
  train 0 (w, o) = Some (w, o, []).
Proof. reflexivity. Qed.


Lemma train_same_others (k : wiring) (w : World) (o : Adam) (v : vals)
    (num_epochs : Z) (w' : World) (o' : Adam) (losses : list R) :
  wired k →
  param_groups o = [k_weight k; k_bias k] →
  vals_of k w o = Some v →
  train num_epochs (w, o) = Some (w', o', losses) →
  same_others k w w'.
Proof.
  intros Hwired Hgroups Hv. unfold train. intros Htrain.
  pose proof (train_loop_refines k (Py.range 1 (num_epochs + 1)) w o v [] []
                Hwired Hgroups Hv) as Href.
  destruct (train_values _ _ _ _ _) as [[[v' losses'] out']|].
  - destruct Href as (w'' & o'' & Heq & _ & _ & _ & _ & Hso).
    rewrite Heq in Htrain. by injection Htrain as <- <- <-.
  - by rewrite Href in Htrain.
Qed.

End TrainingProperties.

(** *** The cells before the loop *)

Lemma y_true_value :
  y_true = Some ((λ v, [IZR v; IZR (1 - v)]) <$> y).
Proof. vm_compute. reflexivity. Qed.

Lemma label_cell_spec (w : World) :
  ∃ Y, y_true = Some Y ∧ is_shape 78 2 Y ∧
       let b := length (heap w) in
       label_cell w
       = Some (View b 0 78, View b 0 30, View b 74 78,
               with_heap (heap w ++ [Cell (T2 Y) None]) w).
Proof.
  eexists. split; [apply y_true_value|]. split.
  - split; [reflexivity|]. rewrite Forall_fmap. apply Forall_forall. done.
  - unfold label_cell. rewrite y_true_value. reflexivity.
Qed.

Lemma mapM_param_data_cells (w : World) (pre post : list cell)
    (ts : list (string * tensor R)) :
  heap w = pre ++ cells_of ts ++ post →
  mapM (param_data w) (seq (length pre) (length ts)) = Some (ts.*2).
Proof.
  revert pre. induction ts as [|[name t] ts IH]; intros pre Hh; [done|].
  simpl length. cbn [seq].
  change (mapM (param_data w) (length pre :: seq (S (length pre)) (length ts)))
    with (x ← param_data w (length pre);
          k ← mapM (param_data w) (seq (S (length pre)) (length ts));
          mret (x :: k)).
  assert (param_data w (length pre) = Some t) as ->.
  { unfold param_data. rewrite Hh. unfold cells_of. csimpl.
    by rewrite list_lookup_middle. }
  simpl. specialize (IH (pre ++ [Cell t None])).
  rewrite length_app, Nat.add_1_r in IH. rewrite IH; [done|].
  rewrite Hh, <- app_assoc. reflexivity.
Qed.

Lemma layer_values_layers_at (w : World) (pre post : list cell) tss :
  heap w = pre ++ cells_of (concat tss) ++ post →
  layer_values w (layers_at (length pre) tss) = (λ ts, Some (ts.*2)) <$> tss.
Proof.
  revert pre. induction tss as [|ts tss IH]; intros pre Hh; [done|].
  unfold layer_values. csimpl. f_equal.
  - unfold parameters. simpl. rewrite app_nil_r, params_at_snd.
    rewrite unique_NoDup; [|apply NoDup_seq|intros p _; apply not_elem_of_nil].
    apply (mapM_param_data_cells w pre (cells_of (concat tss) ++ post)).
    rewrite Hh. simpl. unfold cells_of. by rewrite fmap_app, <- app_assoc.
  - specialize (IH (pre ++ cells_of ts)).
    assert (length (pre ++ cells_of ts) = length pre + length ts) as Hlen.
    { unfold cells_of. by rewrite length_app, length_fmap. }
    rewrite Hlen in IH.
    apply IH. rewrite Hh. simpl. unfold cells_of.
    by rewrite fmap_app, <- !app_assoc.
Qed.

(** The model built by [Dist2Cycle.__init__] in a world [w1], with its
    optimizer: how it is wired, and the values the loop starts from. *)
Lemma Dist2Cycle_init_wired (channels : nat) (n_layers : Z) (lr : R)
    (w1 : World) (y_train y_test : ndarray) tss g1 W g2 b g3 :
  base y_train < length (heap w1) →
  base y_test < length (heap w1) →
  layer_tensors channels (Z.to_nat n_layers) (rng w1) = (tss, g1) →
  draw_matrix 2 channels g1 = (W, g2) →
  draw 2 g2 = (b, g3) →
  ∃ model w2 o k,
    Dist2Cycle_init channels n_layers w1 = (model, w2) ∧
    Adam_new (parameters model) lr = Some o ∧
    wired y_train y_test model k ∧
    param_groups o = [k_weight k; k_bias k] ∧
    state o = ∅ ∧
    length (heap w1) ≤ k_weight k ∧
    vals_of k w2 o = Some (mkVals (T2 W) (T1 b) None None) ∧
    env_of y_train y_test k w2 o
    = mkEnv ((λ ts, Some (ts.*2)) <$> tss)
            (view_len y_train) (read y_train w1)
            (view_len y_test) (read y_test w1) lr (grad_enabled w1) ∧
    (∀ l, l < length (heap w1) → heap w2 !! l = heap w1 !! l) ∧
    stdout w2 = stdout w1.
Proof.
  intros Htr Hte Htss HW Hb.
  pose proof (Dist2Cycle_init_spec _ _ _ _ _ _ _ _ _ Htss HW Hb) as Hspec.
  cbv zeta in Hspec.
  set (weight := length (heap w1) + length (concat tss)) in *.
  eexists _, _, (mkAdam [weight; S weight] lr ∅),
    (mkWiring (layers_at (length (heap w1)) tss) weight (S weight)).
  split; [exact Hspec|].
  assert (parameters
            (mkModule []
               [("linear", mkModule [("weight", weight); ("bias", S weight)] [] [])]
               [("layers", layers_at (length (heap w1)) tss)])
          = [weight; S weight]) as Hps.
  { unfold parameters. simpl. rewrite decide_False; [done|].
    rewrite elem_of_cons, elem_of_nil. lia. }
  assert (length (cells_of (concat tss)) = length (concat tss)) as Hlc.
  { unfold cells_of. apply length_fmap. }
  split; [by rewrite Hps|].
  split.
  { unfold wired. simpl. split_and!; try done; try lia.
    - eexists. by split_and!.
    - intros layer p Hl Hp.
      pose proof (parameters_layers_at _ _ _ _ Hl Hp). lia. }
  split; [done|]. split; [done|]. split; [subst weight; simpl; lia|].
  split.
  { unfold vals_of, param_data. simpl.
    rewrite !app_assoc.
    rewrite (lookup_app_r _ [_; _]) by (rewrite length_app, Hlc; lia).
    rewrite (lookup_app_r _ [_; _]) by (rewrite length_app, Hlc; lia).
    rewrite length_app, Hlc.
    replace (weight - _) with 0 by (subst weight; lia).
    replace (S weight - _) with 1 by (subst weight; lia).
    done. }
  split.
  { unfold env_of. simpl. f_equal.
    - by apply (layer_values_layers_at _ (heap w1) [Cell (T2 W) None; Cell (T1 b) None]).
    - apply read_ext. simpl. by rewrite lookup_app_l.
    - apply read_ext. simpl. by rewrite lookup_app_l. }
  split; [|done].
  intros l Hl. simpl. by rewrite lookup_app_l.
Qed.

(** The loss trajectory of the notebook as a function of the generator
    state and of the gradient mode it is started in. *)
Definition notebook_values (A L_tilde_pinv : matrix) (num_epochs : Z)
    (g : RNG) (tracking : bool) : option (list R) :=
  Y ← y_true;
  x_1e ← pointwise Rmult A L_tilde_pinv;
  let '(tss, g1) := layer_tensors channels_nodes 10 g in
  let '(W, g2) := draw_matrix 2 channels_nodes g1 in
  let '(b, g3) := draw 2 g2 in
  let e := mkEnv ((λ ts, Some (ts.*2)) <$> tss)
                 30 (Some (take 30 Y)) 4 (Some (take 4 (drop 74 Y)))
                 (4 / 10) tracking in
  '(_, losses, _) ←
    train_values x_1e L_tilde_pinv A e (Py.range 1 (num_epochs + 1))
                 (mkVals (T2 W) (T1 b) None None) [] [];
  Some losses.

Lemma notebook_refines (A L_tilde_pinv : matrix) (num_epochs : Z) (w : World)
    Y x_1e tss g1 W g2 b g3 :
  y_true = Some Y →
  pointwise Rmult A L_tilde_pinv = Some x_1e →
  layer_tensors channels_nodes 10 (rng w) = (tss, g1) →
  draw_matrix 2 channels_nodes g1 = (W, g2) →
  draw 2 g2 = (b, g3) →
  let e := mkEnv ((λ ts, Some (ts.*2)) <$> tss)
                 30 (Some (take 30 Y)) 4 (Some (take 4 (drop 74 Y)))
                 (4 / 10) (grad_enabled w) in
  match train_values x_1e L_tilde_pinv A e (Py.range 1 (num_epochs + 1))
          (mkVals (T2 W) (T1 b) None None) [] [] with
  | Some (v', losses, out) =>
      ∃ w' o' k,
        notebook A L_tilde_pinv num_epochs w = Some (w', o', losses) ∧
        param_groups o' = [k_weight k; k_bias k] ∧
        state o' !! k_weight k = v_state_weight v' ∧
        state o' !! k_bias k = v_state_bias v' ∧
        stdout w' = stdout w ++ out
  | None => notebook A L_tilde_pinv num_epochs w = None
  end.
Proof.
  intros HY Hx Htss HW Hb e.
  destruct (label_cell_spec w) as (Y' & HY' & Hsh & Hlc). cbv zeta in Hlc.
  rewrite HY in HY'. injection HY' as <-.
  unfold notebook. rewrite Hlc, Hx. cbn [mbind option_bind].
  set (w1 := with_heap (heap w ++ [Cell (T2 Y) None]) w).
  assert (length (heap w) < length (heap w1)) as Hlt.
  { subst w1. simpl. rewrite length_app. simpl. lia. }
  destruct (Dist2Cycle_init_wired channels_nodes 10 (4 / 10) w1
              (View (length (heap w)) 0 30) (View (length (heap w)) 74 78)
              tss g1 W g2 b g3 Hlt Hlt Htss HW Hb)
    as (model & w2 & o & k & -> & -> & Hwired & Hgroups & _ & _ & Hv & He & _
        & Hout).
  cbn [mbind option_bind]. unfold train.
  pose proof (train_loop_refines x_1e L_tilde_pinv A _ _ model k
                (Py.range 1 (num_epochs + 1)) w2 o _ [] []
                Hwired Hgroups Hv) as Href.
  rewrite He in Href.
  assert (heap w1 !! length (heap w) = Some (Cell (T2 Y) None)) as Hcell.
  { subst w1. simpl. by rewrite list_lookup_middle. }
  assert (read (View (length (heap w)) 0 30) w1 = Some (take 30 Y)) as Hr1.
  { unfold read. cbn [base lo hi]. rewrite Hcell. simpl. by rewrite drop_0. }
  assert (read (View (length (heap w)) 74 78) w1
          = Some (take 4 (drop 74 Y))) as Hr2.
  { unfold read. cbn [base lo hi]. by rewrite Hcell. }
  rewrite Hr1, Hr2 in Href.
  change (view_len (View (length (heap w)) 0 30)) with 30%Z in Href.
  change (view_len (View (length (heap w)) 74 78)) with 4%Z in Href.
  change (grad_enabled w1) with (grad_enabled w) in Href.
  subst e.
  destruct (train_values _ _ _ _ _ _ _ _) as [[[v' losses] out]|]; [|done].
  destruct Href as (w' & o' & Htrain & Hg' & Hv' & _ & Hout' & _).
  apply vals_of_Some in Hv' as (_ & _ & HsW & Hsb).
  exists w', o', k. split_and!; try done; try congruence.
  rewrite (Hout' (stdout w)); [done|]. rewrite Hout. simpl.
  by rewrite app_nil_r.
Qed.

Lemma notebook_losses (A L_tilde_pinv : matrix) (num_epochs : Z) (w : World) :
  (λ r, r.2) <$> notebook A L_tilde_pinv num_epochs w
  = notebook_values A L_tilde_pinv num_epochs (rng w) (grad_enabled w).
Proof.
  unfold notebook_values.
  destruct y_true as [Y|] eqn:HY.
  2:{ unfold notebook, label_cell. by rewrite HY. }
  destruct (pointwise Rmult A L_tilde_pinv) as [x_1e|] eqn:Hx.
  2:{ destruct (label_cell_spec w) as (Y' & _ & _ & Hlc).
      unfold notebook. by rewrite Hlc, Hx. }
  cbn [mbind option_bind].
  destruct (layer_tensors channels_nodes 10 (rng w)) as [tss g1] eqn:Htss.
  destruct (draw_matrix 2 channels_nodes g1) as [W g2] eqn:HW.
  destruct (draw 2 g2) as [b g3] eqn:Hb.
  pose proof (notebook_refines A L_tilde_pinv num_epochs w
                Y x_1e tss g1 W g2 b g3 HY Hx Htss HW Hb) as Href.
  cbv zeta in Href.
  destruct (train_values _ _ _ _ _ _ _ _) as [[[v' losses] out]|].
  - by destruct Href as (w' & o' & k & -> & _).
  - by rewrite Href.
Qed.

(** C5. Two runs of the notebook for the same epoch count, started with
    the random generator in the same state (the seed) and in the same
    gradient mode, compute the same sequence of per-epoch losses, or raise
    both, whatever else differs between the worlds they start in (objects
    already allocated, text already printed). *)
Theorem same_seed_same_losses (A L_tilde_pinv : matrix) (num_epochs : Z)
    (w1 w2 : World) :
  rng w1 = rng w2 →
  grad_enabled w1 = grad_enabled w2 →
  (λ r, r.2) <$> notebook A L_tilde_pinv num_epochs w1
  = (λ r, r.2) <$> notebook A L_tilde_pinv num_epochs w2.
Proof. intros Hrng Hgrad. by rewrite !notebook_losses, Hrng, Hgrad. Qed.

(** C10. [y_train] and [y_test] are views of the buffer of [y_true], its
    rows 0..29 and its rows 74..77 (the last four): no index lies in both.
    Neither the construction of the model and of the optimizer nor any
    number of training epochs writes to that buffer: the three arrays read
    the same after the loop as when they were made. *)
Theorem labels_split_and_immutable (w : World) :
  ∃ (Y : matrix) (y_true' y_train y_test : ndarray) (w1 : World),
    y_true = Some Y ∧ length Y = 78 ∧
    label_cell w = Some (y_true', y_train, y_test, w1) ∧
    base y_train = base y_true' ∧ base y_test = base y_true' ∧
    (lo y_train, hi y_train) = (0, 30) ∧
    (lo y_test, hi y_test) = (74, 78) ∧
    read y_true' w1 = Some Y ∧
    read y_train w1 = Some (take 30 Y) ∧
    read y_test w1 = Some (drop 74 Y) ∧
    (∀ i, lo y_train ≤ i < hi y_train → lo y_test ≤ i < hi y_test → False) ∧
    ∀ (x_1e Linv adjacency : matrix) (channels : nat) (n_layers : Z) (lr : R)
      (num_epochs : Z) (model : module) (w2 : World) (o : Adam)
      (w3 : World) (o3 : Adam) (losses : list R),
      Dist2Cycle_init channels n_layers w1 = (model, w2) →
      Adam_new (parameters model) lr = Some o →
      train x_1e Linv adjacency y_train y_test model num_epochs (w2, o)
        = Some (w3, o3, losses) →
      heap w3 !! base y_true' = heap w1 !! base y_true' ∧
      read y_true' w3 = Some Y ∧
      read y_train w3 = Some (take 30 Y) ∧
      read y_test w3 = Some (drop 74 Y).
Proof.
  destruct (label_cell_spec w) as (Y & HY & [HlenY HrowsY] & Hlc).
  cbv zeta in Hlc.
  set (b := length (heap w)) in *.
  set (w1 := with_heap (heap w ++ [Cell (T2 Y) None]) w) in *.
  assert (heap w1 !! b = Some (Cell (T2 Y) None)) as Hcell.
  { subst w1 b. simpl. by rewrite list_lookup_middle. }
  assert (∀ w', heap w' !! b = heap w1 !! b →
            read (View b 0 78) w' = Some Y ∧
            read (View b 0 30) w' = Some (take 30 Y) ∧
            read (View b 74 78) w' = Some (drop 74 Y)) as Hreads.
  { intros w' Hw'. unfold read. cbn [base lo hi]. rewrite Hw', Hcell. simpl.
    rewrite drop_0. split_and!; f_equal.
    - apply take_ge. lia.
    - apply take_ge. rewrite length_drop. lia. }
  exists Y, (View b 0 78), (View b 0 30), (View b 74 78), w1.
  destruct (Hreads w1 eq_refl) as (Hr0 & Hr1 & Hr2).
  split_and!; try done.
  - simpl. lia.
  - intros x_1e Linv adjacency channels n_layers lr num_epochs model w2 o
      w3 o3 losses Hinit Hadam Htrain.
    destruct (layer_tensors channels (Z.to_nat n_layers) (rng w1))
      as [tss g1] eqn:Htss.
    destruct (draw_matrix 2 channels g1) as [W g2] eqn:HW.
    destruct (draw 2 g2) as [bias g3] eqn:Hb.
    assert (b < length (heap w1)) as Hlt by (by eapply lookup_lt_Some).
    destruct (Dist2Cycle_init_wired channels n_layers lr w1
                (View b 0 30) (View b 74 78) tss g1 W g2 bias g3
                Hlt Hlt Htss HW Hb)
      as (model' & w2' & o' & k & Hinit' & Hadam' & Hwired & Hgroups & _
          & Hle & Hv & _ & Hpre & _).
    rewrite Hinit in Hinit'. injection Hinit' as <- <-.
    rewrite Hadam in Hadam'. injection Hadam' as <-.
    pose proof (train_same_others _ _ _ _ _ _ k _ _ _ _ _ _ _
                  Hwired Hgroups Hv Htrain) as (Hframe & _).
    assert (heap w3 !! b = heap w1 !! b) as Hsame.
    { rewrite Hframe, Hpre; [done|lia|..].
      - destruct Hwired as (_ & _ & _ & _ & [? _] & _). done.
      - destruct Hwired as (_ & _ & _ & _ & [_ ?] & _). done. }
    split; [done|]. by apply Hreads.
Qed.

(** *** The notebook on well-shaped inputs *)

Lemma draw_length (n : nat) (g : RNG) : length (draw n g).1 = n.
Proof.
  revert g. induction n as [|n IH]; intros g; simpl; [done|].
  destruct (sample g) as [x g1]. specialize (IH g1).
  destruct (draw n g1) as [xs g2]. simpl in *. by rewrite IH.
Qed.

Lemma draw_matrix_shape (rows cols : nat) (g : RNG) :
  is_shape rows cols (draw_matrix rows cols g).1.
Proof.
  revert g. induction rows as [|rows IH]; intros g; simpl.
  - split; [done|constructor].
  - pose proof (draw_length cols g) as Hr.
    destruct (draw cols g) as [r g1]. specialize (IH g1).
    destruct (draw_matrix rows cols g1) as [rs g2]. simpl in *.
    destruct IH as [<- Hrs]. split; [done|]. by constructor.
Qed.

Lemma pointwise_total (f : R → R → R) (r c : nat) (P Q : matrix) :
  is_shape r c P → is_shape r c Q →
  ∃ M, pointwise f P Q = Some M ∧ is_shape r c M.
Proof.
  intros HP%is_shape_lengths HQ%is_shape_lengths.
  unfold pointwise.
  destruct (tzip_is_Some (T2 P) (T2 Q)) as (m & Hm & Hs);
    [simpl; congruence|].
  rewrite Hm. destruct m as [|m]; [done|].
  eexists. split; [reflexivity|]. apply is_shape_lengths.
  simpl in Hs. injection Hs as Hs. rewrite <- HP, <- Hs.
  rewrite <- list_fmap_compose. apply list_fmap_ext.
  intros i row _. simpl. apply length_fmap.
Qed.

Lemma layers_values_total (x_1e Linv adjacency : matrix)
    (tss : list (list (string * tensor R))) :
  (∀ ts, ts ∈ tss →
         is_Some (Dist2CycleLayer_forward (ts.*2) x_1e Linv adjacency)) →
  layers_values x_1e Linv adjacency ((λ ts, Some (ts.*2)) <$> tss) = Some tt.
Proof.
  induction tss as [|ts tss IH]; intros H; [done|]. csimpl.
  destruct (H ts) as [y ->]; [left|]. simpl. apply IH.
  intros ts' Hts'. apply H. by right.
Qed.

Lemma train_values_length (x_1e Linv adjacency : matrix) (e : env)
    (epochs : list Z) (v v' : vals) (losses losses' : list R)
    (out out' : list string) :
  train_values x_1e Linv adjacency e epochs v losses out
    = Some (v', losses', out') →
  length losses' = length losses + length epochs.
Proof.
  revert v losses out. induction epochs as [|epoch_i epochs IH];
    intros v losses out H; simpl in H.
  - injection H as <- <- <-. simpl. lia.
  - bind_inv H. destruct x as [[v1 loss] lines]. apply IH in H.
    rewrite H, length_app. simpl. lia.
Qed.

(** C6. On inputs of the notebook's shapes (adjacency and pseudo-inverse
    with as many rows, at least 30, of [channels_nodes] entries, layers that
    accept them, gradient tracking enabled) the notebook runs to completion
    for every epoch count [num_epochs >= 0], and the loop has then made
    exactly [num_epochs] iterations: one loss value was recorded per
    iteration, [num_epochs] in all, and the step counter the optimizer
    keeps for each of its parameters stands at [num_epochs]. *)
Theorem notebook_runs_num_epochs (A L_tilde_pinv : matrix) (num_epochs : Z)
    (w : World) (r : nat) :
  is_shape r channels_nodes A →
  is_shape r channels_nodes L_tilde_pinv →
  30 ≤ r →
  (∀ ts x_1e,
     ts ∈ (layer_tensors channels_nodes 10 (rng w)).1 →
     pointwise Rmult A L_tilde_pinv = Some x_1e →
     is_Some (Dist2CycleLayer_forward (ts.*2) x_1e L_tilde_pinv A)) →
  grad_enabled w = true →
  (0 ≤ num_epochs)%Z →
  ∃ w' o' losses,
    notebook A L_tilde_pinv num_epochs w = Some (w', o', losses) ∧
    Z.of_nat (length losses) = num_epochs ∧
    length (param_groups o') = 2 ∧
    Forall (λ p, steps_of (state o' !! p) = num_epochs) (param_groups o').
Proof.
  intros HA HL Hr Hlayers Hge Hn.
  destruct (pointwise_total Rmult r channels_nodes A L_tilde_pinv HA HL)
    as (x_1e & Hx & Hxs).
  destruct (layer_tensors channels_nodes 10 (rng w)) as [tss g1] eqn:Htss.
  pose proof (draw_matrix_shape 2 channels_nodes g1) as HWs.
  destruct (draw_matrix 2 channels_nodes g1) as [W g2] eqn:HW.
  pose proof (draw_length 2 g2) as Hbs.
  destruct (draw 2 g2) as [b g3] eqn:Hb.
  simpl in HWs, Hbs, Hlayers.
  pose proof (notebook_refines A L_tilde_pinv num_epochs w _ x_1e tss g1 W g2
                b g3 y_true_value Hx Htss HW Hb) as Href.
  cbv zeta in Href.
  set (Y := (λ v, [IZR v; IZR (1 - v)]) <$> y) in *.
  assert (is_shape 78 2 Y) as HY.
  { split; [reflexivity|]. subst Y. rewrite Forall_fmap.
    by apply Forall_forall. }
  destruct Hxs as [Hxlen Hxrows].
  set (e := mkEnv _ _ _ _ _ _ _) in Href.
  assert (well_shaped x_1e L_tilde_pinv A
            channels_nodes e (mkVals (T2 W) (T1 b) None None)) as Hws.
  { unfold well_shaped, labels_ok. subst e. simpl. split_and!; try done.
    - apply layers_values_total. intros ts Hts. by apply Hlayers.
    - f_equal. by apply (is_shape_lengths 2 channels_nodes).
    - by rewrite Hbs.
    - exists 30, (take 30 Y). split_and!; try done; try lia.
      apply (is_shape_take 78); [done|lia].
    - exists 4, (take 4 (drop 74 Y)). split_and!; try done; try lia.
      apply (is_shape_take 4); [|lia]. apply (is_shape_drop 78 2 74). done. }
  destruct (train_values_total x_1e L_tilde_pinv A
              channels_nodes e (Py.range 1 (num_epochs + 1)) _ [] [] Hws)
    as (v' & losses & out & Htv & _ & HsW & Hsb).
  rewrite Htv in Href.
  destruct Href as (w' & o' & k & Hnb & Hgroups & HW' & Hb' & _).
  exists w', o', losses. split; [done|].
  apply train_values_length in Htv. rewrite length_range in *.
  simpl in Htv.
  split; [lia|]. rewrite Hgroups. split; [done|].
  repeat constructor.
  - rewrite HW', HsW. unfold steps_of. simpl. lia.
  - rewrite Hb', Hsb. unfold steps_of. simpl. lia.
Qed.

End Notebook.

(* ================================================================= *)
(** ** The forward pass and the layers *)

(** C1 (what the code does). The tensor returned by [forward] is the
    softmax of the linear projection of the input [x_1e] itself. The loop
    over the layers assigns each layer's output to [x_1], which is never
    read: two models with the same linear layer return the same tensor
    whatever their layers are and compute, and whatever is passed for
    [Linv] and [adjacency]. *)
Theorem forward_ignores_layers {RNG : Type}
    (F1 F2 : list (tensor R) → matrix → matrix → matrix → option matrix)
    (self1 self2 : module) (w1 w2 : World (RNG := RNG))
    (x_1e Linv1 Linv2 adjacency1 adjacency2 : matrix) (y1 y2 : Tensor) :
  getattr_module self1 "linear" = getattr_module self2 "linear" →
  (∀ linear name p,
     getattr_module self1 "linear" = Some linear →
     getattr_parameter linear name = Some p →
     param_data w1 p = param_data w2 p) →
  forward F1 self1 w1 x_1e Linv1 adjacency1 = Some y1 →
  forward F2 self2 w2 x_1e Linv2 adjacency2 = Some y2 →
  values y1 = values y2 ∧
  ∃ linear logits,
    getattr_module self1 "linear" = Some linear ∧
    Linear_call linear w1 x_1e = Some logits ∧
    values y1 = Torch.softmax logits.
Proof.
  intros Hlin Hdata
    (layers1 & x1 & linear1 & logits1 & _ & _ & Hl1 & Hc1 & ->)%forward_Some
    (layers2 & x2 & linear2 & logits2 & _ & _ & Hl2 & Hc2 & ->)%forward_Some.
  rewrite Hl1, Hl2 in Hlin. injection Hlin as <-.
  split; [|by eauto].
  simpl. f_equal.
  apply Linear_call_Some in Hc1 as (wt1 & bs1 & W1 & b1 & Hw1 & Hb1 & HW1 & HB1 & Hr1).
  apply Linear_call_Some in Hc2 as (wt2 & bs2 & W2 & b2 & Hw2 & Hb2 & HW2 & HB2 & Hr2).
  rewrite Hw1 in Hw2. injection Hw2 as <-.
  rewrite Hb1 in Hb2. injection Hb2 as <-.
  rewrite (Hdata _ _ _ Hl1 Hw1), HW2 in HW1. injection HW1 as <-.
  rewrite (Hdata _ _ _ Hl1 Hb1), HB2 in HB1. injection HB1 as <-.
  congruence.
Qed.

(* ================================================================= *)
(** ** Shapes of the structural matrices *)

Section StructureFacts.

Variable pinv : matrix → matrix.
Variable dataset : SimplicialComplex.

Lemma incidence_1_shape :
  is_shape (length (nodes dataset)) (length (edges dataset))
           (incidence_1 dataset).
Proof.
  unfold incidence_1. split; [apply length_fmap|].
  rewrite Forall_fmap. apply Forall_forall. intros v _. simpl.
  apply length_fmap.
Qed.

Lemma transpose_shape (cols : nat) (M : matrix) :
  is_shape cols (length M) (transpose cols M).
Proof.
  unfold transpose. split; [by rewrite length_fmap, length_seq|].
  rewrite Forall_fmap. apply Forall_forall. intros j _. simpl.
  apply length_fmap.
Qed.

Lemma matmul_shape (cols : nat) (P Q : matrix) :
  is_shape (length P) cols (matmul cols P Q).
Proof.
  unfold matmul. split; [apply length_fmap|].
  rewrite Forall_fmap. apply Forall_forall. intros row _. simpl.
  rewrite length_fmap. apply transpose_shape.
Qed.

Lemma eye_shape (n : nat) : is_shape n n (eye n).
Proof.
  unfold eye. split; [by rewrite length_fmap, length_seq|].
  rewrite Forall_fmap. apply Forall_forall. intros i _. simpl.
  by rewrite length_fmap, length_seq.
Qed.

Lemma ld_shape :
  is_shape (length (edges dataset)) (length (edges dataset)) (ld dataset).
Proof.
  unfold ld.
  pose proof (matmul_shape (length (edges dataset))
                (transpose (length (edges dataset)) (incidence_1 dataset))
                (incidence_1 dataset)) as H.
  destruct (transpose_shape (length (edges dataset)) (incidence_1 dataset))
    as [Hl _].
  by rewrite Hl in H.
Qed.

(** C7. For a dataset of 34 nodes and 78 edges, the incidence matrix of
    rank 1 has 34 rows (of 78 entries), and [L_tilde_pinv] is computed and
    is a square matrix of dimension 78, given that the pseudo-inverse of an
    [r] by [c] matrix is [c] by [r]. *)
Theorem structural_shapes :
  (∀ M r c, 0 < r → 0 < c → is_shape r c M → is_shape c r (pinv M)) →
  length (nodes dataset) = 34 →
  length (edges dataset) = 78 →
  is_shape 34 78 (incidence_1 dataset) ∧
  ∃ P, L_tilde_pinv pinv dataset = Some P ∧ is_shape 78 78 P.
Proof.
  intros Hpinv Hn He. split.
  - pose proof incidence_1_shape as H. by rewrite Hn, He in H.
  - unfold L_tilde_pinv. pose proof ld_shape as Hld. rewrite He in Hld.
    destruct Hld as [Hlen Hrows]. rewrite Hlen.
    destruct (pointwise_total Rplus 78 78 (ld dataset) (eye 78))
      as (M & -> & HM); [done|apply eye_shape|].
    simpl. eexists. split; [reflexivity|]. apply Hpinv; [lia|lia|done].
Qed.

End StructureFacts.

(* ================================================================= *)
(** ** A small instance

    A backend and a layer on which the results above are exercised: the
    generator counts its draws, a layer has one parameter and returns its
    input, every partial derivative is 1, and the update rule is a plain
    gradient step. *)

Module Demo.

Definition sample (g : nat) : R * nat := (IZR (Z.of_nat g), S g).

Definition layer_params (channels : nat) (g : nat)
  : list (string * tensor R) * nat :=
  ([("weight", T1 (replicate channels 1%R))], S g).

Definition layer_forward (ps : list (tensor R)) (x_1e Linv adjacency : matrix)
  : option matrix := Some x_1e.

(** A layer that returns no rows at all. *)
Definition layer_forward' (ps : list (tensor R)) (x_1e Linv adjacency : matrix)
  : option matrix := Some [].

Definition dloss_dweight (W : matrix) (b : list R) (x target : matrix)
    (i j : nat) : R := 1%R.

Definition dloss_dbias (W : matrix) (b : list R) (x target : matrix)
    (i : nat) : R := 1%R.

Definition adam_rule (lr : R) (t : Z) (pgmv : R * R * R * R) : R * R * R :=
  let '(p, g, m, v) := pgmv in ((p - lr * g)%R, g, (g * g)%R).

Definition format_4f (x : R) : string := "0.0000".

(** A fresh interpreter, and one that has already allocated an object and
    printed a line. *)
Definition fresh : World := mkWorld 0 [] [] true.
Definition used : World := mkWorld 0 [Cell (T1 [1%R]) None] ["hello"] true.

(** Three edges with two channels, labels for them, a model with one
    layer. *)
Definition x_1e : matrix := [[1; 0]; [0; 1]; [1; 1]]%R.

Definition labelled : World :=
  (alloc (T2 [[1; 0]; [0; 1]; [1; 0]]%R) fresh).2.

Definition y_train : ndarray := View 0 0 2.
Definition y_test : ndarray := View 0 2 3.

Definition built : module * World :=
  Dist2Cycle_init sample layer_params 2 1 labelled.

Definition model : module := built.1.
Definition world : World := built.2.

Definition optimizer : Adam := mkAdam (parameters model) (4 / 10) ∅.

(** The same model with its layers removed. *)
Definition model' : module := setattr model "layers" (VList []).

(** Structural matrices of the notebook's size. *)
Definition A : matrix := zeros 78 78.
Definition L_tilde_pinv : matrix := eye 78.

(** A complex with 34 nodes and 78 edges. *)
Definition complex : SimplicialComplex :=
  mkComplex (seq 0 34)
            (((λ i, (i, i + 1)) <$> seq 0 33)
               ++ ((λ i, (i, i + 2)) <$> seq 0 32)
               ++ ((λ i, (i, i + 3)) <$> seq 0 13)).

(** A stand-in for the pseudo-inverse with the shape of its result. *)
Definition pinv (M : matrix) : matrix :=
  transpose (length (default [] (head M))) M.

(** A run in which the model classifies the 30 training rows correctly and
    the last 30 rows the opposite way: the notebook's labels, one channel,
    one layer, a generator whose draws make the weight [[1], [-1]] and the
    bias [0, 0], and an input of 78 rows whose single entry is 1 or -1,
    according to [signs]. *)
Definition signs : list Z :=
  take 30 y ++ replicate 18 1%Z ++ ((λ v, 1 - v)%Z <$> take 30 y).

Definition sample' (g : nat) : R * nat :=
  (match g with 1 => 1 | 2 => -1 | _ => 0 end%R, S g).

Definition labelled78 : World :=
  mkWorld 0 [Cell (T2 ((λ v, [IZR v; IZR (1 - v)]) <$> y)) None] [] true.

Definition y_train78 : ndarray := View 0 0 30.
Definition y_test78 : ndarray := View 0 74 78.

Definition built78 : module * World :=
  Dist2Cycle_init sample' layer_params 1 1 labelled78.

Definition optimizer78 : Adam := mkAdam (parameters built78.1) (4 / 10) ∅.

Definition x_signed : matrix := (λ v : Z, [IZR (2 * v - 1)]) <$> signs.

End Demo.

(** *** The results at the small instance *)

Lemma forward_ignores_layers_witness :
  ∃ y1 y2,
    getattr_module Demo.model "linear" = getattr_module Demo.model' "linear" ∧
    getattr_list Demo.model "layers" ≠ getattr_list Demo.model' "layers" ∧
    forward Demo.layer_forward Demo.model Demo.world Demo.x_1e [] []
      = Some y1 ∧
    forward Demo.layer_forward' Demo.model' Demo.world Demo.x_1e
            Demo.x_1e Demo.x_1e = Some y2 ∧
    values y1 = values y2.
Proof.
  eexists _, _. split; [reflexivity|]. split; [done|].
  split; [reflexivity|]. split; [reflexivity|].
  eapply (forward_ignores_layers Demo.layer_forward Demo.layer_forward'
            Demo.model Demo.model' Demo.world Demo.world Demo.x_1e
            [] Demo.x_1e [] Demo.x_1e); reflexivity.
Defined.

(** The world after a backward pass: the weight and the bias have
    gradients. *)
Definition demo_graded : World :=
  default Demo.world
    (y_hat ← forward Demo.layer_forward Demo.model Demo.world Demo.x_1e [] [];
     backward Demo.dloss_dweight Demo.dloss_dbias Demo.model y_hat Demo.x_1e
              [[1; 0]; [0; 1]]%R Demo.world).

Lemma optimizer_leaves_layers_unchanged_witness :
  ∃ layer w' o',
    Dist2Cycle_init Demo.sample Demo.layer_params 2 1 Demo.labelled
      = (Demo.model, Demo.world) ∧
    getattr_list Demo.model "layers" = Some [layer] ∧
    1 ∈ parameters layer ∧
    param_groups Demo.optimizer = parameters Demo.model ∧
    Adam_step Demo.adam_rule Demo.optimizer demo_graded = Some (w', o') ∧
    heap w' !! 2 ≠ heap demo_graded !! 2 ∧
    heap w' !! 1 = heap demo_graded !! 1.
Proof.
  eexists _, _, _. split; [reflexivity|]. split; [reflexivity|].
  split; [by left|]. split; [reflexivity|]. split; [reflexivity|].
  split.
  - vm_compute. intros [= H]. lra.
  - eapply (optimizer_leaves_layers_unchanged Demo.sample Demo.layer_params
              Demo.adam_rule 2 1 Demo.labelled Demo.world Demo.model
              _ _ 1 Demo.optimizer _ demo_graded);
      [reflexivity|reflexivity|by left|by left|reflexivity|reflexivity].
Defined.

Lemma epoch_prints_witness :
  ∃ w' o' loss,
    epoch Demo.layer_forward Demo.dloss_dweight Demo.dloss_dbias
          Demo.adam_rule Demo.format_4f Demo.x_1e [] [] Demo.y_train
          Demo.y_test Demo.model (Demo.world, Demo.optimizer) 2
      = Some (w', o', loss) ∧
    stdout w'
    = ["Epoch: 2 loss: 0.0000 Train_acc: 0.0000"; "Test_acc: 0.0000"].
Proof.
  eexists _, _, _. split; [reflexivity|].
  destruct (epoch_prints Demo.layer_forward Demo.dloss_dweight
              Demo.dloss_dbias Demo.adam_rule Demo.format_4f Demo.x_1e [] []
              Demo.y_train Demo.y_test Demo.model Demo.world Demo.optimizer 2
              _ _ _ eq_refl) as (accuracy & Hout).
  simpl in Hout. destruct Hout as (y_hat_test & target & ta & _ & _ & _ & _ & Hout).
  exact Hout.
Defined.

Lemma train_accuracy_uses_last_rows_witness :
  ∃ w' o' loss y_hat target' accuracy rest,
    epoch Demo.layer_forward Demo.dloss_dweight Demo.dloss_dbias
          Demo.adam_rule Demo.format_4f Demo.x_1e [] [] Demo.y_train
          Demo.y_test Demo.model (Demo.world, Demo.optimizer) 1
      = Some (w', o', loss) ∧
    lo Demo.y_train < hi Demo.y_train ∧
    forward Demo.layer_forward Demo.model
            (zero_grad Demo.optimizer Demo.world) Demo.x_1e [] []
      = Some y_hat ∧
    Torch.accuracy (drop (3 - 2) (Torch.where_gt_half (values y_hat))) target'
      = Some accuracy ∧
    read Demo.y_train w' = Some target' ∧
    stdout w'
    = stdout Demo.world
        ++ epoch_line Demo.format_4f 1 loss accuracy :: rest.
Proof.
  assert (lo Demo.y_train < hi Demo.y_train) as Hlt by (simpl; lia).
  destruct (train_accuracy_uses_last_rows Demo.layer_forward
              Demo.dloss_dweight Demo.dloss_dbias Demo.adam_rule
              Demo.format_4f Demo.x_1e [] [] Demo.y_train Demo.y_test
              Demo.model Demo.world Demo.optimizer 1 _ _ _ eq_refl Hlt)
    as (y_hat & target & target' & accuracy & rest & Hfw & _ & Hacc & _
        & Hread & Hout).
  eexists _, _, _, y_hat, target', accuracy, rest.
  split; [reflexivity|]. split; [exact Hlt|]. split; [exact Hfw|].
  split; [|split; [exact Hread|exact Hout]].
  injection Hfw as <-. exact Hacc.
Defined.

Lemma same_seed_same_losses_witness :
  rng Demo.fresh = rng Demo.used ∧
  grad_enabled Demo.fresh = grad_enabled Demo.used ∧
  heap Demo.fresh ≠ heap Demo.used ∧
  (λ r, r.2) <$>
    notebook Demo.sample Demo.layer_params Demo.layer_forward
      Demo.dloss_dweight Demo.dloss_dbias Demo.adam_rule Demo.format_4f
      Demo.A Demo.L_tilde_pinv 3 Demo.fresh
  = (λ r, r.2) <$>
    notebook Demo.sample Demo.layer_params Demo.layer_forward
      Demo.dloss_dweight Demo.dloss_dbias Demo.adam_rule Demo.format_4f
      Demo.A Demo.L_tilde_pinv 3 Demo.used.
Proof.
  split; [reflexivity|]. split; [reflexivity|]. split; [done|].
  apply (same_seed_same_losses Demo.sample Demo.layer_params
           Demo.layer_forward Demo.dloss_dweight Demo.dloss_dbias
           Demo.adam_rule Demo.format_4f Demo.A Demo.L_tilde_pinv 3
           Demo.fresh Demo.used); reflexivity.
Defined.

Lemma demo_A_shape : is_shape 78 78 Demo.A.
Proof.
  split; [reflexivity|]. unfold Demo.A, zeros.
  apply Forall_replicate. by rewrite length_replicate.
Defined.

Lemma demo_L_shape : is_shape 78 78 Demo.L_tilde_pinv.
Proof. apply eye_shape. Defined.

Lemma notebook_runs_num_epochs_witness :
  is_shape 78 channels_nodes Demo.A ∧
  is_shape 78 channels_nodes Demo.L_tilde_pinv ∧
  30 ≤ 78 ∧
  grad_enabled Demo.fresh = true ∧
  (0 ≤ 60)%Z ∧
  ∃ w' o' losses,
    notebook Demo.sample Demo.layer_params Demo.layer_forward
      Demo.dloss_dweight Demo.dloss_dbias Demo.adam_rule Demo.format_4f
      Demo.A Demo.L_tilde_pinv 60 Demo.fresh = Some (w', o', losses) ∧
    Z.of_nat (length losses) = 60%Z ∧
    length (param_groups o') = 2 ∧
    Forall (λ p, steps_of (state o' !! p) = 60%Z) (param_groups o').
Proof.
  split; [exact demo_A_shape|]. split; [exact demo_L_shape|].
  split; [lia|]. split; [reflexivity|]. split; [lia|].
  apply (notebook_runs_num_epochs Demo.sample Demo.layer_params
           Demo.layer_forward Demo.dloss_dweight Demo.dloss_dbias
           Demo.adam_rule Demo.format_4f Demo.A Demo.L_tilde_pinv 60
           Demo.fresh 78);
    [exact demo_A_shape|exact demo_L_shape|lia| |reflexivity|lia].
  intros ts x _ _. by eexists.
Defined.

Lemma demo_pinv_shape (M : matrix) (r c : nat) :
  0 < r → 0 < c → is_shape r c M → is_shape c r (Demo.pinv M).
Proof.
  intros Hr Hc [Hlen Hrows]. unfold Demo.pinv.
  destruct M as [|row M]; [simpl in Hlen; lia|].
  apply Forall_cons in Hrows as [Hrow _]. simpl head. simpl default.
  rewrite Hrow, <- Hlen. apply transpose_shape.
Defined.

Lemma structural_shapes_witness :
  length (nodes Demo.complex) = 34 ∧
  length (edges Demo.complex) = 78 ∧
  is_shape 34 78 (incidence_1 Demo.complex) ∧
  ∃ P, L_tilde_pinv Demo.pinv Demo.complex = Some P ∧ is_shape 78 78 P.
Proof.
  split; [reflexivity|]. split; [reflexivity|].
  apply (structural_shapes Demo.pinv Demo.complex);
    [exact demo_pinv_shape|reflexivity|reflexivity].
Defined.

(* ================================================================= *)
(** ** The printed training accuracy in a concrete run *)

Lemma eq_entry_IZR (p t : Z) : Torch.eq_entry p (IZR t) = bool_decide (p = t).
Proof.
  unfold Torch.eq_entry. destruct (Req_dec_T _ _) as [H|H].
  - apply eq_IZR in H. by rewrite bool_decide_eq_true_2.
  - rewrite bool_decide_eq_false_2; [done|]. by intros ->.
Qed.

Lemma row_eq_IZR (p t : list Z) :
  length p = length t →
  forallb (λ b : bool, b) (zip_with Torch.eq_entry p (IZR <$> t))
  = bool_decide (p = t).
Proof.
  revert t. induction p as [|a p IH]; intros [|c t] Hlen; try done.
  csimpl. rewrite eq_entry_IZR, IH by (simpl in Hlen; lia).
  destruct (decide (a = c)) as [->|Hne].
  - rewrite bool_decide_eq_true_2 by done. simpl.
    apply bool_decide_ext. split; [by intros ->|by intros [= ->]].
  - rewrite (bool_decide_eq_false_2 (a = c)) by done. simpl.
    rewrite bool_decide_eq_false_2; [done|]. by intros [= ? ?].
Qed.

Lemma accuracy_IZR (pred tgt : list (list Z)) :
  length <$> pred = length <$> tgt →
  Torch.accuracy pred (fmap (M:=list) IZR <$> tgt)
  = Some (Torch.mean
            (Torch.float_of_bool
               <$> zip_with (λ p t, bool_decide (p = t)) pred tgt)).
Proof.
  intros Hlen. unfold Torch.accuracy, Torch.eq. simpl.
  rewrite decide_True.
  2:{ f_equal. rewrite Hlen, <- list_fmap_compose. apply list_fmap_ext.
      intros i row _. simpl. by rewrite length_fmap. }
  simpl. do 3 f_equal. unfold Torch.all_dim1.
  revert tgt Hlen. induction pred as [|p pred IH]; intros [|t tgt] Hlen;
    try done.
  csimpl in *. injection Hlen as Hrow Hlen.
  by rewrite row_eq_IZR, IH.
Qed.

Lemma sum_replicate (n : nat) (x : R) :
  Torch.sum (replicate n x) = (INR n * x)%R.
Proof.
  induction n as [|n IH]; [simpl; lra|].
  rewrite S_INR. simpl. rewrite IH. lra.
Qed.

Lemma mean_replicate (n : nat) (x : R) :
  0 < n → Torch.mean (replicate n x) = x.
Proof.
  intros Hn. unfold Torch.mean. rewrite sum_replicate, length_replicate.
  field. apply not_0_INR. lia.
Qed.

Lemma signs_binary : Forall (λ v, v = 0 ∨ v = 1)%Z Demo.signs.
Proof.
  set (l := Demo.signs). vm_compute in l. subst l.
  repeat (constructor; [(by left) || (by right)|]). constructor.
Qed.

(** Against the first 30 labels, the first 30 rows of the predictions
    [[v; 1 - v]] for [v] in [Demo.signs] are all right and the last 30 all
    wrong. *)
Lemma demo_accuracies :
  let pred := (λ v, [v; 1 - v]%Z) <$> Demo.signs in
  let target := take 30 ((λ v, [IZR v; IZR (1 - v)]) <$> y) in
  Torch.accuracy (take 30 pred) target = Some 1%R ∧
  Torch.accuracy (drop 48 pred) target = Some 0%R.
Proof.
  cbv zeta.
  set (tgt := (λ v, [v; 1 - v]%Z) <$> take 30 y).
  assert (take 30 ((λ v, [IZR v; IZR (1 - v)]) <$> y)
          = fmap (M:=list) IZR <$> tgt) as ->.
  { subst tgt. rewrite <- list_fmap_compose, fmap_take. reflexivity. }
  rewrite !accuracy_IZR by (by vm_compute).
  split; f_equal.
  - match goal with
    | |- Torch.mean (_ <$> ?l) = _ =>
        replace l with (replicate 30 true) by (by vm_compute)
    end.
    change (Torch.float_of_bool <$> replicate 30 true)
      with (replicate 30 1%R).
    apply mean_replicate. lia.
  - match goal with
    | |- Torch.mean (_ <$> ?l) = _ =>
        replace l with (replicate 30 false) by (by vm_compute)
    end.
    change (Torch.float_of_bool <$> replicate 30 false)
      with (replicate 30 0%R).
    apply mean_replicate. lia.
Qed.

Lemma div_gt_half (x s : R) :
  (0 < s)%R → (1 / 2 < x / s)%R ↔ (s < 2 * x)%R.
Proof.
  intros Hs. split; intros H.
  - apply (Rmult_lt_compat_r s) in H; [|exact Hs].
    replace (x / s * s)%R with x in H by (field; lra). lra.
  - apply (Rmult_lt_reg_r s); [exact Hs|].
    replace (x / s * s)%R with x by (field; lra). lra.
Qed.

Lemma softmax_pair_high (a b : R) :
  (b < a)%R →
  (λ x, if Torch.gt_half x then 1%Z else 0%Z) <$> Torch.softmax_row [a; b]
  = [1; 0]%Z.
Proof.
  intros Hab. apply exp_increasing in Hab.
  pose proof (exp_pos a). pose proof (exp_pos b).
  unfold Torch.softmax_row, Torch.gt_half. csimpl.
  assert (0 < exp a + (exp b + 0))%R as Hs by lra.
  destruct (Rlt_dec _ _) as [H1|H1]; destruct (Rlt_dec _ _) as [H2|H2];
    rewrite div_gt_half in H1, H2 by done; try done; exfalso; lra.
Qed.

Lemma softmax_pair_low (a b : R) :
  (a < b)%R →
  (λ x, if Torch.gt_half x then 1%Z else 0%Z) <$> Torch.softmax_row [a; b]
  = [0; 1]%Z.
Proof.
  intros Hab. apply exp_increasing in Hab.
  pose proof (exp_pos a). pose proof (exp_pos b).
  unfold Torch.softmax_row, Torch.gt_half. csimpl.
  assert (0 < exp a + (exp b + 0))%R as Hs by lra.
  destruct (Rlt_dec _ _) as [H1|H1]; destruct (Rlt_dec _ _) as [H2|H2];
    rewrite div_gt_half in H1, H2 by done; try done; exfalso; lra.
Qed.

Lemma where_gt_half_signed (l : list Z) :
  Forall (λ v, v = 0 ∨ v = 1)%Z l →
  Torch.where_gt_half
    (Torch.softmax
       ((λ v : Z, [IZR (2 * v - 1) * 1 + 0 + 0;
                   IZR (2 * v - 1) * -1 + 0 + 0]%R) <$> l))
  = (λ v, [v; 1 - v]%Z) <$> l.
Proof.
  unfold Torch.where_gt_half, Torch.softmax. rewrite <- !list_fmap_compose.
  intros Hl. apply Forall_fmap_ext_1. eapply Forall_impl; [exact Hl|].
  intros v [-> | ->]; unfold compose.
  - change (2 * 0 - 1)%Z with (-1)%Z. apply softmax_pair_low. lra.
  - change (2 * 1 - 1)%Z with 1%Z. apply softmax_pair_high. lra.
Qed.

Section WrongRows.

Variable dloss_dweight : matrix → list R → matrix → matrix → nat → nat → R.
Variable dloss_dbias : matrix → list R → matrix → matrix → nat → R.
Variable adam_rule : R → Z → R * R * R * R → R * R * R.
Variable format_4f : R → string.

Local Abbreviation model := (Demo.built78.1).
Local Abbreviation world := (Demo.built78.2).
Local Abbreviation epoch :=
  (epoch Demo.layer_forward dloss_dweight dloss_dbias adam_rule format_4f
         Demo.x_signed [] [] Demo.y_train78 Demo.y_test78 model).

Lemma epoch78_runs :
  ∃ w' o' loss, epoch (world, Demo.optimizer78) 1 = Some (w', o', loss).
Proof. eexists _, _, _. reflexivity. Qed.

Lemma forward78 (w : @World nat) :
  heap w = heap world → grad_enabled w = true →
  forward Demo.layer_forward model w Demo.x_signed [] []
  = Some (mkTensor
            (Torch.softmax
               ((λ v : Z, [IZR (2 * v - 1) * 1 + 0 + 0;
                           IZR (2 * v - 1) * -1 + 0 + 0]%R) <$> Demo.signs))
            true).
Proof.
  intros Hh Hg.
  transitivity (forward Demo.layer_forward model world Demo.x_signed [] []).
  - by apply forward_ext.
  - reflexivity.
Qed.

(** C2 (the code at a failing input). In the first epoch of the run
    described in [Demo], the model classifies all 30 training rows
    correctly: the accuracy of rows 0..29 of its thresholded output against
    [y_train] is 1. The line the epoch prints reports a [Train_acc] of 0,
    the accuracy of rows 48..77 against [y_train]. *)
Theorem train_accuracy_printed_for_wrong_rows :
  label_cell (mkWorld 0 [] [] true)
  = Some (View 0 0 78, Demo.y_train78, Demo.y_test78, Demo.labelled78) ∧
  ∃ w' o' loss y_hat target,
    epoch (world, Demo.optimizer78) 1 = Some (w', o', loss) ∧
    forward Demo.layer_forward model (zero_grad Demo.optimizer78 world)
            Demo.x_signed [] [] = Some y_hat ∧
    length (values y_hat) = 78 ∧
    read Demo.y_train78 world = Some target ∧
    Torch.accuracy
      (Py.slice_to (view_len Demo.y_train78)
         (Torch.where_gt_half (values y_hat))) target = Some 1%R ∧
    stdout w' = [epoch_line format_4f 1 loss 0].
Proof.
  split.
  { unfold label_cell. rewrite y_true_value. reflexivity. }
  destruct epoch78_runs as (w' & o' & loss & E).
  pose proof E as (y_hat & target & w1 & w2 & target' & accuracy & Hfw & Hread
                   & _ & Hbw & Hstep & Hread' & Hacc & Hbranch)%epoch_Some.
  rewrite forward78 in Hfw by reflexivity. apply (inj Some) in Hfw as <-.
  cbn [values] in Hacc.
  rewrite (where_gt_half_signed _ signs_binary) in Hacc.
  change (view_len Demo.y_train78) with (Z.of_nat 30) in *.
  rewrite slice_from_neg_drop in Hacc by lia.
  change (length ((λ v, [v; 1 - v]%Z) <$> Demo.signs) - 30) with 48 in Hacc.
  destruct demo_accuracies as [Hfirst Hlast].
  unfold Adam_step in Hstep.
  apply Adam_step_params_frame in Hstep as (Hheap2 & _ & _ & Hout2 & _).
  assert (read Demo.y_train78 w2
          = Some (take 30 ((λ v, [IZR v; IZR (1 - v)]) <$> y))) as Hr2.
  { transitivity (read Demo.y_train78 world); [|reflexivity].
    assert (0 ∉ param_groups Demo.optimizer78) as Hfresh.
    { intros Hin. vm_compute in Hin.
      apply elem_of_cons in Hin as [?|Hin]; [done|].
      apply elem_of_cons in Hin as [?|Hin]; [done|].
      by apply elem_of_nil in Hin. }
    apply read_ext. change (base Demo.y_train78) with 0.
    rewrite Hheap2 by done.
    erewrite backward_frame_heap; [|exact Hbw|reflexivity..|done|done].
    by apply zero_grad_frame. }
  rewrite Hr2 in Hread'. apply (inj Some) in Hread' as <-.
  rewrite Hlast in Hacc. apply (inj Some) in Hacc as <-.
  apply backward_frame in Hbw as (_ & _ & _ & Hout1 & _).
  cbv zeta in Hbranch. rewrite mean_singleton in Hbranch.
  change ((1 `mod` test_interval =? 0)%Z) with false in Hbranch.
  eexists w', o', loss, _, _.
  split; [exact E|]. split; [by apply forward78|].
  split; [reflexivity|]. split; [reflexivity|].
  split.
  - cbn [values]. rewrite (where_gt_half_signed _ signs_binary).
    rewrite slice_to_take. exact Hfirst.
  - rewrite (Hbranch : w' = _). simpl. by rewrite Hout2, Hout1.
Qed.

End WrongRows.
(* ================================================================= *)
(** * Further properties of the notebook's code *)

(** Inversion of a successful chain of binds in the option monad. *)
Ltac bind_inv H :=
  repeat match type of H with
  | (?m ≫= _) = Some _ =>
      let x := fresh "x" in
      let E := fresh "E" in
      destruct m as [x|] eqn:E; [simpl in H|discriminate H]
  end.

(** ** The feature cells *)

Lemma append_values_app (d : attributes) (x : list (list R)) :
  append_values d x = x ++ d.*2.
Proof.
  revert x. induction d as [|[k v] d IH]; intros x; simpl.
  - by rewrite app_nil_r.
  - by rewrite IH, <- app_assoc.
Qed.

Lemma stack_Some (arrays x : list (list R)) :
  stack arrays = Some x ↔
  arrays ≠ [] ∧ x = arrays ∧
  Forall (λ v, length v = length (default [] (head arrays))) arrays.
Proof.
  unfold stack. destruct arrays as [|a l].
  { split; [done|]. by intros (? & _). }
  cbn [head default].
  destruct (forallb _ _) eqn:E.
  - split; [|by intros (_ & -> & _)].
    intros [= <-]. split; [done|]. split; [done|].
    apply Is_true_true, forallb_True in E.
    eapply Forall_impl; [exact E|]. intros v Hv. simpl in Hv.
    by apply Nat.eqb_eq, Is_true_true.
  - split; [done|]. intros (_ & _ & HF). exfalso.
    apply Is_true_false in E. apply E, forallb_True.
    eapply Forall_impl; [exact HF|]. intros v Hv. simpl.
    by apply Is_true_true, Nat.eqb_eq.
Qed.

(** X1. A feature cell returns the vectors of the attribute dictionary, one
    row per entry and in the order of the dictionary, and they all have one
    length; the line printed for it reports the number of entries and that
    length. It raises exactly when the dictionary is empty or holds two
    vectors of different lengths. *)
Theorem feature_cell_rows {RNG : Type} (d : attributes) :
  match feature_cell d with
  | Some x =>
      d ≠ [] ∧ x = d.*2 ∧
      is_shape (length d) (length (default [] (head x))) x ∧
      ∀ (kind : string) (w : @World RNG),
        stdout (report_cell kind x w)
        = stdout w ++ ["There are " +:+ pretty (length d) +:+ " " +:+ kind
                         +:+ " with features of dimension "
                         +:+ pretty (length (default [] (head x))) +:+ "."]
  | None =>
      d = [] ∨ ∃ u v, u ∈ d.*2 ∧ v ∈ d.*2 ∧ length u ≠ length v
  end.
Proof.
  unfold feature_cell. rewrite append_values_app, app_nil_l.
  destruct (stack (d.*2)) as [x|] eqn:E.
  - apply stack_Some in E as (Hne & -> & HF).
    split; [by destruct d|]. split; [done|].
    split; [split; [by rewrite length_fmap|done]|].
    intros kind w. unfold report_cell, shape_line. simpl.
    by rewrite length_fmap.
  - destruct d as [|[k a] d]; [by left|]. right.
    destruct (decide (Forall (λ v, length v = length a) (((k, a) :: d).*2)))
      as [HF|HF].
    + assert (stack (((k, a) :: d).*2) = Some (((k, a) :: d).*2)) as E'.
      { by apply stack_Some. }
      congruence.
    + apply not_Forall_Exists in HF; [|intros ?; apply _].
      apply Exists_exists in HF as (v & Hv & Hne).
      exists v, a. split; [done|]. split; [left|done].
Qed.

(* ================================================================= *)
(** ** Thresholding and the loss on softmax outputs *)

Lemma sum_ge_entry (l : list R) :
  Forall (λ p, (0 <= p)%R) l → Forall (λ p, (p <= Torch.sum l)%R) l.
Proof.
  induction 1 as [|x l Hx Hl IH]; constructor; simpl.
  - assert (0 <= Torch.sum l)%R; [|lra].
    clear IH. induction Hl; simpl; lra.
  - eapply Forall_impl; [exact IH|]. intros p Hp. simpl in Hp. lra.
Qed.

Lemma softmax_row_unit (z : list R) :
  Forall (λ p, (0 <= p <= 1)%R) (Torch.softmax_row z).
Proof.
  destruct z as [|a z]; [constructor|].
  pose proof (softmax_row_nonneg (a :: z)) as Hnn.
  pose proof (sum_ge_entry _ Hnn) as Hle.
  rewrite softmax_row_sum in Hle by done.
  apply Forall_forall. intros p Hp.
  rewrite Forall_forall in Hnn, Hle. split; [by apply Hnn|by apply Hle].
Qed.

Lemma exp_monotone (x y : R) : (x <= y)%R → (exp x <= exp y)%R.
Proof.
  intros [H| ->]; [|lra]. apply exp_increasing in H. lra.
Qed.

Lemma ln_monotone (x y : R) : (0 < x)%R → (x <= y)%R → (ln x <= ln y)%R.
Proof.
  intros Hx [H| ->]; [|lra]. apply ln_increasing in H; [lra|done].
Qed.

(** The entry of the loss in closed form. *)
Lemma bce_entry_eq (x t : R) :
  Torch.bce_entry (x, t) = ((1 - t) * x + ln (1 + exp (- x)))%R.
Proof.
  unfold Torch.bce_entry, Torch.sigmoid.
  pose proof (exp_pos (- x)) as He.
  set (e := exp (- x)) in *.
  assert (0 < 1 + e)%R as Hs by lra.
  assert (0 < / (1 + e))%R as Hi by (by apply Rinv_0_lt_compat).
  replace (1 / (1 + e))%R with (/ (1 + e))%R by (field; lra).
  replace (1 - / (1 + e))%R with (e * / (1 + e))%R by (field; lra).
  assert (ln e = - x)%R as Hln by (unfold e; apply ln_exp).
  rewrite ln_mult, ln_Rinv, Hln by done. ring.
Qed.

Lemma bce_entry_bounds (x t : R) :
  (0 <= x <= 1)%R → (0 <= t <= 1)%R →
  (ln (1 + exp (- 1)) <= Torch.bce_entry (x, t) <= 1 + ln 2)%R.
Proof.
  intros Hx Ht. rewrite bce_entry_eq.
  pose proof (exp_pos (- 1)). pose proof (exp_pos (- x)).
  assert (exp (- 1) <= exp (- x))%R by (apply exp_monotone; lra).
  assert (exp (- x) <= 1)%R by (rewrite <- exp_0; apply exp_monotone; lra).
  assert (ln (1 + exp (- 1)) <= ln (1 + exp (- x)))%R by (apply ln_monotone; lra).
  assert (ln (1 + exp (- x)) <= ln 2)%R by (apply ln_monotone; lra).
  assert (0 <= (1 - t) * x <= 1)%R by nra.
  lra.
Qed.

Lemma mean_bounds (c d : R) (l : list R) :
  l ≠ [] → Forall (λ v, (c <= v <= d)%R) l → (c <= Torch.mean l <= d)%R.
Proof.
  intros Hne Hl. unfold Torch.mean.
  assert (0 < INR (length l))%R as Hn.
  { apply lt_0_INR. destruct l; [done|simpl; lia]. }
  assert (c * INR (length l) <= Torch.sum l <= d * INR (length l))%R as Hs.
  { clear Hne Hn. induction Hl as [|v l Hv Hl IH].
    - simpl. lra.
    - rewrite length_cons, S_INR. simpl. lra. }
  split.
  - apply (Rmult_le_reg_r (INR (length l))); [done|].
    replace (Torch.sum l / INR (length l) * INR (length l))%R
      with (Torch.sum l) by (field; lra).
    lra.
  - apply (Rmult_le_reg_r (INR (length l))); [done|].
    replace (Torch.sum l / INR (length l) * INR (length l))%R
      with (Torch.sum l) by (field; lra).
    lra.
Qed.

Lemma Forall_zip_pairs {A B} (P : A → Prop) (Q : B → Prop) (u : list A)
    (v : list B) :
  Forall P u → Forall Q v → Forall (λ xt, P xt.1 ∧ Q xt.2) (zip u v).
Proof.
  intros Hu. revert v. induction Hu as [|x u Hx Hu IH]; intros v Hv; [constructor|].
  destruct Hv as [|t v Ht Hv]; [constructor|].
  simpl. constructor; [done|]. by apply IH.
Qed.

Lemma Forall_concat_zip {A B} (P : A → Prop) (Q : B → Prop)
    (a : list (list A)) (b : list (list B)) :
  Forall (Forall P) a → Forall (Forall Q) b →
  Forall (λ xt, P xt.1 ∧ Q xt.2) (concat (zip_with zip a b)).
Proof.
  intros Ha. revert b. induction Ha as [|u a Hu Ha IH]; intros b Hb; [constructor|].
  destruct Hb as [|v b Hv Hb]; [constructor|].
  simpl. apply Forall_app. split; [by apply Forall_zip_pairs|by apply IH].
Qed.

(** [binary_cross_entropy_with_logits] applied to values that are already
    probabilities: with inputs and targets in [0, 1] the mean loss lies
    between [ln (1 + 1/e)] and [1 + ln 2]. *)
Lemma bce_of_probabilities (input target : matrix) (loss : R) :
  Torch.binary_cross_entropy_with_logits input target = Some loss →
  target ≠ [] →
  Forall (λ row, row ≠ []) target →
  Forall (Forall (λ x, (0 <= x <= 1)%R)) input →
  Forall (Forall (λ t, (0 <= t <= 1)%R)) target →
  (ln (1 + exp (- 1)) <= loss <= 1 + ln 2)%R.
Proof.
  unfold Torch.binary_cross_entropy_with_logits, tzip.
  case_decide as Hshape; [|done]. intros [= <-] Hne Hrows Hin Htg.
  injection Hshape as Hshape.
  apply mean_bounds.
  - destruct target as [|r target]; [done|].
    destruct input as [|u input]; [done|].
    injection Hshape as Hlen _. apply Forall_cons_1 in Hrows as [Hr _].
    destruct r as [|t r]; [done|]. destruct u as [|x u]; [done|]. done.
  - rewrite Forall_fmap.
    eapply Forall_impl; [by apply Forall_concat_zip|].
    intros [x t] [Hx Ht]. by apply bce_entry_bounds.
Qed.

#[local] Instance R_eq_dec : EqDecision R := Req_dec_T.

(** The number of label rows that the prediction at the same position
    equals in every entry. *)
Definition matching_rows (pred : list (list Z)) (target : matrix) : nat :=
  length (filter (λ pt, fmap (M:=list) IZR pt.1 = pt.2) (zip pred target)).

Lemma row_matches (p : list Z) (t : list R) :
  length p = length t →
  forallb (λ b : bool, b) (zip_with Torch.eq_entry p t)
  = bool_decide (fmap (M:=list) IZR p = t).
Proof.
  revert t. induction p as [|x p IH]; intros [|y t] Hlen; try done.
  simpl in Hlen. csimpl. rewrite IH by lia. unfold Torch.eq_entry.
  destruct (Req_dec_T (IZR x) y) as [->|Hne]; simpl.
  - destruct (decide (IZR <$> p = t)) as [->|Hn].
    + by rewrite !bool_decide_eq_true_2.
    + rewrite !bool_decide_eq_false_2; [done| |done]. by intros [= ?].
  - symmetry. apply bool_decide_eq_false_2. by intros [= ? ?].
Qed.

Lemma sum_matching_rows (pred : list (list Z)) (target : matrix) :
  length <$> pred = length <$> target →
  Torch.sum (Torch.float_of_bool
               <$> Torch.all_dim1 (zip_with (zip_with Torch.eq_entry) pred target))
  = INR (matching_rows pred target).
Proof.
  revert target. induction pred as [|p pred IH]; intros [|t target] Hshape;
    try done.
  injection Hshape as Hpt Hshape. specialize (IH _ Hshape).
  unfold matching_rows, Torch.all_dim1 in *.
  change (zip (p :: pred) (t :: target)) with ((p, t) :: zip pred target).
  rewrite filter_cons. csimpl. rewrite IH, row_matches by done.
  destruct (decide (IZR <$> p = t)) as [E|E].
  - rewrite bool_decide_eq_true_2 by done.
    rewrite length_cons, S_INR. simpl. lra.
  - rewrite bool_decide_eq_false_2 by done. simpl. lra.
Qed.

Lemma accuracy_counts (pred : list (list Z)) (target : matrix) (a : R) :
  Torch.accuracy pred target = Some a →
  a = (INR (matching_rows pred target) / INR (length target))%R.
Proof.
  unfold Torch.accuracy, Torch.eq. case_decide as Hshape; [|done].
  simpl. intros [= <-]. injection Hshape as Hshape.
  unfold Torch.mean. rewrite sum_matching_rows by done. do 2 f_equal.
  unfold Torch.all_dim1. rewrite !length_fmap, length_zip_with.
  apply (f_equal length) in Hshape. rewrite !length_fmap in Hshape. lia.
Qed.

(* ================================================================= *)
(** ** The model *)

Section ModelProperties.

Context {RNG : Type}.
Variable sample : RNG → R * RNG.
Variable Dist2CycleLayer_params : nat → RNG → list (string * tensor R) * RNG.
Variable Dist2CycleLayer_forward :
  list (tensor R) → matrix → matrix → matrix → option matrix.

Local Abbreviation World := (@World RNG).
Local Abbreviation layer_tensors := (layer_tensors Dist2CycleLayer_params).
Local Abbreviation Dist2Cycle_init :=
  (Dist2Cycle_init sample Dist2CycleLayer_params).
Local Abbreviation Dist2CycleLayer_call :=
  (Dist2CycleLayer_call Dist2CycleLayer_forward).
Local Abbreviation forward_layers := (forward_layers Dist2CycleLayer_forward).
Local Abbreviation forward := (forward Dist2CycleLayer_forward).

Lemma layer_tensors_length (channels k : nat) (g : RNG) :
  length (layer_tensors channels k g).1 = k.
Proof.
  revert g. induction k as [|k IH]; intros g; simpl; [done|].
  destruct (Dist2CycleLayer_params channels g) as [ts g1].
  specialize (IH g1). destruct (layer_tensors channels k g1) as [tss g2].
  simpl in *. by rewrite IH.
Qed.

Lemma length_layers_at (base : nat) (tss : list (list (string * tensor R))) :
  length (layers_at base tss) = length tss.
Proof.
  revert base. induction tss as [|ts tss IH]; intros base; simpl; [done|].
  by rewrite IH.
Qed.

Lemma layers_at_disjoint (base : nat) tss (i j : nat) (l1 l2 : module) (p : nat) :
  layers_at base tss !! i = Some l1 →
  layers_at base tss !! j = Some l2 →
  i ≠ j → p ∈ parameters l1 → p ∉ parameters l2.
Proof.
  revert base i j. induction tss as [|ts tss IH]; intros base i j H1 H2 Hij Hp Hp';
    [done|].
  assert (∀ l, mkModule (params_at base ts) [] [] = l →
               ∀ q, q ∈ parameters l → base ≤ q < base + length ts) as Hhead.
  { intros l <- q Hq.
    pose proof (parameters_layers_at base [ts] _ q (list_elem_of_here _ _) Hq)
      as Hr.
    simpl in Hr. rewrite app_nil_r in Hr. exact Hr. }
  destruct i as [|i], j as [|j]; simpl in H1, H2; [done| | |].
  - injection H1 as H1. apply list_elem_of_lookup_2 in H2.
    pose proof (Hhead _ H1 _ Hp). 
    pose proof (parameters_layers_at _ _ _ _ H2 Hp'). lia.
  - injection H2 as H2. apply list_elem_of_lookup_2 in H1.
    pose proof (Hhead _ H2 _ Hp').
    pose proof (parameters_layers_at _ _ _ _ H1 Hp). lia.
  - eapply (IH _ i j); eauto.
Qed.

(** What [Dist2Cycle.__init__] leaves behind. *)
Lemma Dist2Cycle_init_built (channels : nat) (n_layers : Z) (w0 w1 : World)
    (self : module) :
  Dist2Cycle_init channels n_layers w0 = (self, w1) →
  ∃ tss linear weight W b,
    length tss = Z.to_nat n_layers ∧
    getattr_list self "layers" = Some (layers_at (length (heap w0)) tss) ∧
    getattr_module self "linear" = Some linear ∧
    getattr_parameter linear "weight" = Some weight ∧
    getattr_parameter linear "bias" = Some (S weight) ∧
    weight = length (heap w0) + length (concat tss) ∧
    parameters self = [weight; S weight] ∧
    heap w1 = heap w0 ++ cells_of (concat tss)
                ++ [Cell (T2 W) None; Cell (T1 b) None] ∧
    is_shape 2 channels W ∧ length b = 2 ∧
    param_data w1 weight = Some (T2 W) ∧
    param_data w1 (S weight) = Some (T1 b) ∧
    stdout w1 = stdout w0 ∧ grad_enabled w1 = grad_enabled w0.
Proof.
  pose proof (layer_tensors_length channels (Z.to_nat n_layers) (rng w0)) as Hlen.
  destruct (layer_tensors channels (Z.to_nat n_layers) (rng w0))
    as [tss g1] eqn:Htss.
  pose proof (draw_matrix_shape sample 2 channels g1) as HWs.
  destruct (draw_matrix sample 2 channels g1) as [W g2] eqn:HW.
  pose proof (draw_length sample 2 g2) as Hbl.
  destruct (draw sample 2 g2) as [b g3] eqn:Hb.
  rewrite (Dist2Cycle_init_spec _ _ _ _ _ _ _ _ _ _ _ Htss HW Hb).
  intros [= <- <-]. exists tss. eexists _, _, W, b.
  assert (length (cells_of (concat tss)) = length (concat tss)) as Hlc.
  { unfold cells_of. apply length_fmap. }
  split_and!; try reflexivity; try done.
  - unfold parameters. simpl. rewrite decide_False; [done|].
    rewrite elem_of_cons, elem_of_nil. lia.
  - unfold param_data. simpl. rewrite !app_assoc.
    rewrite (lookup_app_r _ [_; _]) by (rewrite length_app, Hlc; lia).
    rewrite length_app, Hlc.
    by replace (_ - _) with 0 by lia.
  - unfold param_data. simpl. rewrite !app_assoc.
    rewrite (lookup_app_r _ [_; _]) by (rewrite length_app, Hlc; lia).
    rewrite length_app, Hlc.
    by replace (_ - _) with 1 by lia.
Qed.

(** X2. [Dist2Cycle(channels, n_layers)] builds exactly [n_layers] layers, none
    for a zero or negative count. Each layer has parameter objects of its
    own: no two layers share a parameter, and none is a parameter reported
    by [model.parameters()]. The objects that existed before are untouched
    and nothing is printed. *)
Theorem init_builds_separate_layers (channels : nat) (n_layers : Z)
    (w0 w1 : World) (self : module) :
  Dist2Cycle_init channels n_layers w0 = (self, w1) →
  ∃ layers,
    getattr_list self "layers" = Some layers ∧
    length layers = Z.to_nat n_layers ∧
    (∀ i j l1 l2 p,
       layers !! i = Some l1 → layers !! j = Some l2 → i ≠ j →
       p ∈ parameters l1 → p ∉ parameters l2) ∧
    (∀ layer p,
       layer ∈ layers → p ∈ parameters layer →
       length (heap w0) ≤ p < length (heap w1) ∧ p ∉ parameters self) ∧
    (∀ l, l < length (heap w0) → heap w1 !! l = heap w0 !! l) ∧
    stdout w1 = stdout w0.
Proof.
  intros (tss & linear & weight & W & b & Hlen & Hlayers & _ & _ & _ & Hw & Hps
          & Hheap & _ & _ & _ & _ & Hout & _)%Dist2Cycle_init_built.
  exists (layers_at (length (heap w0)) tss).
  assert (length (cells_of (concat tss)) = length (concat tss)) as Hlc.
  { unfold cells_of. apply length_fmap. }
  split_and!; try done.
  - by rewrite length_layers_at.
  - intros i j l1 l2 p. apply layers_at_disjoint.
  - intros layer p Hl Hp.
    pose proof (parameters_layers_at _ _ _ _ Hl Hp) as Hr.
    rewrite Hheap, !length_app, Hlc, Hps. simpl.
    split; [lia|]. rewrite !elem_of_cons, elem_of_nil. lia.
  - intros l Hl. by rewrite Hheap, lookup_app_l.
Qed.

Lemma length_softmax_row (z : list R) : length (Torch.softmax_row z) = length z.
Proof. unfold Torch.softmax_row. by rewrite !length_fmap. Qed.

(** The shape of what [forward] returns, for any model. *)
Lemma forward_shape (self : module) (w : World) (x_1e Linv adjacency : matrix)
    (y_hat : Tensor) :
  forward self w x_1e Linv adjacency = Some y_hat →
  ∃ linear logits W b,
    getattr_module self "linear" = Some linear ∧
    Linear_call linear w x_1e = Some logits ∧
    Torch.linear W b x_1e = Some logits ∧
    y_hat = mkTensor (Torch.softmax logits) (grad_enabled w) ∧
    out_features self w = Some (length W) ∧
    length (values y_hat) = length x_1e ∧
    Forall (λ row, length row = length W) logits ∧
    Forall (λ row, length row = length W) (values y_hat).
Proof.
  intros (layers & x_1 & linear & logits & _ & _ & Hlin & Hcall & ->)%forward_Some.
  pose proof Hcall as (weight & bias & W & b & Hw & _ & HW & _ & Hl)%Linear_call_Some.
  exists linear, logits, W, b.
  pose proof Hl as [Hrows Hcols]%linear_Some.
  split_and!; try done.
  - unfold out_features. rewrite Hlin. simpl. rewrite Hw. simpl.
    by rewrite HW.
  - simpl. unfold Torch.softmax. by rewrite length_fmap.
  - simpl. unfold Torch.softmax. rewrite Forall_fmap.
    eapply Forall_impl; [exact Hcols|]. intros row Hrow. simpl.
    by rewrite length_softmax_row.
Qed.



End ModelProperties.

(* ================================================================= *)
(** ** The training loop *)

Lemma range_empty (lo hi : Z) : (hi ≤ lo)%Z → Py.range lo hi = [].
Proof.
  intros H. unfold Py.range. by replace (Z.to_nat (hi - lo)) with 0 by lia.
Qed.

Lemma range_snoc (lo hi : Z) :
  (lo ≤ hi)%Z → Py.range lo (hi + 1) = Py.range lo hi ++ [hi].
Proof.
  intros H. unfold Py.range.
  replace (Z.to_nat (hi + 1 - lo)) with (S (Z.to_nat (hi - lo))) by lia.
  rewrite seq_S, fmap_app. simpl. do 3 f_equal. lia.
Qed.

Lemma even_epochs (n : nat) :
  Z.of_nat (length (filter (λ i, (i `mod` 2 = 0)%Z)
                           (Py.range 1 (Z.of_nat n + 1))))
  = (Z.of_nat n / 2)%Z.
Proof.
  induction n as [|n IH]; [done|].
  replace (Z.of_nat (S n) + 1)%Z with (Z.of_nat n + 1 + 1)%Z by lia.
  rewrite range_snoc, filter_app, length_app, Nat2Z.inj_add, IH by lia.
  rewrite filter_cons, filter_nil.
  replace (Z.of_nat (S n)) with (Z.of_nat n + 1)%Z by lia.
  generalize (Z.of_nat n). intros z.
  destruct (decide ((z + 1) `mod` 2 = 0)%Z) as [Hm|Hm]; simpl length;
    Z.div_mod_to_equations; lia.
Qed.

Section LoopProperties.

Context {RNG : Type}.
Variable sample : RNG → R * RNG.
Variable Dist2CycleLayer_params : nat → RNG → list (string * tensor R) * RNG.
Variable Dist2CycleLayer_forward :
  list (tensor R) → matrix → matrix → matrix → option matrix.
Variable dloss_dweight : matrix → list R → matrix → matrix → nat → nat → R.
Variable dloss_dbias : matrix → list R → matrix → matrix → nat → R.
Variable adam_rule : R → Z → R * R * R * R → R * R * R.
Variable format_4f : R → string.
Variables x_1e Linv adjacency : matrix.
Variables y_train y_test : ndarray.
Variable model : module.

Local Abbreviation World := (@World RNG).
Local Abbreviation Dist2Cycle_init :=
  (Dist2Cycle_init sample Dist2CycleLayer_params).
Local Abbreviation forward := (forward Dist2CycleLayer_forward).
Local Abbreviation backward := (backward dloss_dweight dloss_dbias).
Local Abbreviation Adam_step := (Adam_step adam_rule).
Local Abbreviation evaluate_on :=
  (evaluate Dist2CycleLayer_forward format_4f x_1e Linv adjacency).
Local Abbreviation evaluate := (evaluate_on y_test model).
Local Abbreviation train_on :=
  (train Dist2CycleLayer_forward dloss_dweight dloss_dbias adam_rule
         format_4f x_1e Linv adjacency).
Local Abbreviation epoch :=
  (epoch Dist2CycleLayer_forward dloss_dweight dloss_dbias adam_rule format_4f
         x_1e Linv adjacency y_train y_test model).
Local Abbreviation train_loop :=
  (train_loop Dist2CycleLayer_forward dloss_dweight dloss_dbias adam_rule
              format_4f x_1e Linv adjacency y_train y_test model).
Local Abbreviation train :=
  (train Dist2CycleLayer_forward dloss_dweight dloss_dbias adam_rule
         format_4f x_1e Linv adjacency y_train y_test model).

(** X13. [range(1, num_epochs + 1)] is empty for a zero or negative epoch count:
    the loop body is not entered, nothing is computed or printed, and the
    state is returned as it was. *)
Theorem train_nonpositive_epochs (num_epochs : Z) (st : World * Adam) :
  (num_epochs ≤ 0)%Z → train num_epochs st = Some (st, []).
Proof.
  intros H. unfold train. by rewrite range_empty by lia.
Qed.

Lemma epoch_lines (w : World) (o : Adam) (epoch_i : Z) (w' : World) (o' : Adam)
    (loss : R) :
  epoch (w, o) epoch_i = Some (w', o', loss) →
  ∃ lines,
    stdout w' = stdout w ++ lines ∧
    length lines = (if (epoch_i `mod` 2 =? 0)%Z then 2 else 1).
Proof.
  intros (y_hat & target & w1 & w2 & target' & accuracy & _ & _ & _ & Hbw
          & Hstep & _ & _ & Hbranch)%epoch_Some.
  apply backward_frame in Hbw as (_ & _ & _ & Hout1 & _).
  apply Adam_step_params_frame in Hstep as (_ & _ & _ & Hout2 & _).
  cbv zeta in Hbranch. change test_interval with 2%Z in Hbranch.
  destruct (epoch_i `mod` 2 =? 0)%Z.
  - apply evaluate_Some in Hbranch as (? & ? & acc & _ & _ & _ & _ & ->).
    eexists [_; _]. split; [|done]. simpl.
    by rewrite Hout2, Hout1, <- app_assoc.
  - subst w'. eexists [_]. split; [|done]. simpl. by rewrite Hout2, Hout1.
Qed.

(** X5. Slicing a view and slicing the array it reads are the same thing:
    [v[:stop]] and [v[start:]] read as the Python slices of what [v]
    reads, for every integer bound, negative ones included. This is what
    makes [y_train] and [y_test] the rows [:30] and [-4:] of [y_true]. *)
Theorem view_slices_read_as_slices (v : ndarray) (w : World) (M : matrix)
    (c : cell) (buf : matrix) (i : Z) :
  heap w !! base v = Some c →
  data c = T2 buf →
  lo v ≤ hi v ≤ length buf →
  read v w = Some M →
  read (view_slice_to i v) w = Some (Py.slice_to i M) ∧
  read (view_slice_from i v) w = Some (Py.slice_from i M).
Proof.
  intros Hc Hd Hb. unfold read. simpl. rewrite Hc. simpl. rewrite Hd.
  intros [= <-].
  assert (Py.len (take (hi v - lo v) (drop (lo v) buf)) = view_len v) as Hlen.
  { unfold Py.len, view_len. rewrite length_take, length_drop. lia. }
  unfold Py.slice_to, Py.slice_from. rewrite Hlen.
  assert (0 ≤ Py.adjust (view_len v) i ≤ view_len v)%Z as Ha.
  { unfold Py.adjust, view_len. destruct (Z.ltb_spec i 0); lia. }
  assert (Z.to_nat (Py.adjust (view_len v) i) ≤ hi v - lo v) as Ha'
    by (unfold view_len in *; lia).
  revert Ha'. generalize (Z.to_nat (Py.adjust (view_len v) i)). intros a Ha'.
  split; f_equal.
  - rewrite take_take. f_equal; lia.
  - rewrite skipn_firstn_comm, drop_drop. f_equal; lia.
Qed.

Lemma read_zero_grad (v : ndarray) (o : Adam) (w : World) :
  read v (zero_grad o w) = read v w.
Proof.
  unfold read. rewrite zero_grad_heap.
  destruct (heap w !! base v) as [c|]; simpl; [|done]. by case_decide.
Qed.

Lemma out_features_zero_grad (self : module) (o : Adam) (w : World) :
  out_features self (zero_grad o w) = out_features self w.
Proof.
  unfold out_features.
  destruct (getattr_module self "linear") as [linear|]; simpl; [|done].
  destruct (getattr_parameter linear "weight") as [weight|]; simpl; [|done].
  by rewrite zero_grad_param_data.
Qed.

(** X7. An epoch completes only if the model input has at least as many rows
    as [y_train] and every row of [y_train] has as many entries as the
    linear layer has outputs: otherwise the loss computation raises. *)
Theorem epoch_requires_matching_labels (w : World) (o : Adam) (epoch_i : Z)
    (w' : World) (o' : Adam) (loss : R) :
  epoch (w, o) epoch_i = Some (w', o', loss) →
  ∃ target k,
    read y_train w = Some target ∧
    out_features model w = Some k ∧
    length target ≤ length x_1e ∧
    Forall (λ row, length row = k) target.
Proof.
  intros (y_hat & target & w1 & w2 & target' & accuracy & Hfw & Hread & Hloss
          & _)%epoch_Some.
  rewrite read_zero_grad in Hread.
  apply forward_shape in Hfw
    as (_ & logits & W & _ & _ & _ & _ & _ & Hout & Hlen & _ & Hcols).
  rewrite out_features_zero_grad in Hout.
  exists target, (length W). split; [done|]. split; [done|].
  unfold Torch.binary_cross_entropy_with_logits, tzip in Hloss.
  case_decide as Hshape; [|done]. injection Hshape as Hshape.
  unfold Py.slice_to in Hshape.
  split.
  - apply (f_equal length) in Hshape. rewrite !length_fmap, length_take in Hshape.
    lia.
  - assert (Forall (λ n, n = length W) (length <$> target)) as HF.
    { rewrite <- Hshape. apply Forall_fmap, Forall_take. exact Hcols. }
    apply Forall_fmap in HF. exact HF.
Qed.

(** X8. [Test_acc] is computed on the rows of the test slice: when [y_test] is
    the last [k] rows of a label array of [m] rows and the model input has
    [m] rows, the evaluation compares the thresholded output rows
    [m-k .. m-1] with the label rows [m-k .. m-1] (rows 74..77 in the
    notebook), changes no tensor and restores the gradient mode. *)
Theorem test_accuracy_uses_test_rows (b m k : nat) (Y : matrix) (g : option (tensor R))
    (w w' : World) :
  0 < k ≤ m →
  length x_1e = m →
  heap w !! b = Some (Cell (T2 Y) g) →
  length Y = m →
  evaluate_on (view_slice_from (- Z.of_nat k) (View b 0 m)) model w = Some w' →
  ∃ y_hat_test test_accuracy,
    forward model (with_grad_enabled false w) x_1e Linv adjacency
      = Some y_hat_test ∧
    Torch.accuracy
      (drop (m - k) (Torch.where_gt_half (values y_hat_test))) (drop (m - k) Y)
      = Some test_accuracy ∧
    w' = print (test_line format_4f test_accuracy) w.
Proof.
  intros Hk Hx Hb HY
    (y_hat_test & target & test_accuracy & Hfw & _ & Hread & Hacc & ->)%evaluate_Some.
  exists y_hat_test, test_accuracy. split; [done|]. split; [|done].
  assert (view_slice_from (- Z.of_nat k) (View b 0 m) = View b (m - k) m) as Hv.
  { unfold view_slice_from, view_len, Py.adjust. simpl.
    destruct (Z.ltb_spec (- Z.of_nat k) 0); [|lia]. f_equal. lia. }
  rewrite Hv in Hread, Hacc.
  unfold read in Hread. simpl in Hread. rewrite Hb in Hread. simpl in Hread.
  injection Hread as <-.
  unfold view_len in Hacc. simpl in Hacc.
  replace (m - (m - k)) with k in * by lia.
  rewrite slice_from_neg_drop in Hacc by lia.
  apply forward_shape in Hfw as (_ & _ & _ & _ & _ & _ & _ & _ & _ & Hlen & _).
  unfold Torch.where_gt_half in Hacc at 1. rewrite length_fmap, Hlen, Hx in Hacc.
  rewrite take_ge in Hacc by (rewrite length_drop; lia).
  exact Hacc.
Qed.

Lemma Adam_update_grad (p : nat) (w w' : World) (o o' : Adam) (l : nat) :
  Adam_update adam_rule p (w, o) = Some (w', o') →
  grad <$> heap w' !! l = grad <$> heap w !! l.
Proof.
  unfold Adam_update. intros H.
  destruct (heap w !! p) as [c|] eqn:Hc; [|done]. simpl in H.
  destruct (grad c) as [g|] eqn:Hg; [|by injection H as <- <-].
  destruct (single_tensor_adam _ _ _ _ _) as [[p' s']|]; [|done].
  simpl in H. injection H as <- <-. simpl.
  destruct (decide (l = p)) as [->|Hne].
  - rewrite list_lookup_insert_eq by (by eapply lookup_lt_Some).
    rewrite Hc. simpl. by rewrite Hg.
  - by rewrite list_lookup_insert_ne.
Qed.

Lemma Adam_step_params_grad (ps : list nat) (w w' : World) (o o' : Adam)
    (l : nat) :
  Adam_step_params adam_rule ps (w, o) = Some (w', o') →
  grad <$> heap w' !! l = grad <$> heap w !! l.
Proof.
  revert w o. induction ps as [|p ps IH]; intros w o H; simpl in H.
  - by injection H as <- <-.
  - bind_inv H. destruct x as [w1 o1].
    apply IH in H. apply (Adam_update_grad _ _ _ _ _ l) in E. congruence.
Qed.

Lemma zero_grad_cell (o : Adam) (w : World) (p : nat) (d : tensor R) :
  p ∈ param_groups o →
  param_data (zero_grad o w) p = Some d →
  heap (zero_grad o w) !! p = Some (Cell d None).
Proof.
  intros Hin. unfold param_data. rewrite zero_grad_heap, decide_True by done.
  destruct (heap w !! p) as [c|]; simpl; [|done]. by intros [= ->].
Qed.

Lemma epoch_end_heap (w2 w' : World) (line : string) (epoch_i : Z) :
  (let w3 := print line w2 in
   if (epoch_i `mod` test_interval =? 0)%Z
   then evaluate w3 = Some w' else w' = w3) →
  heap w' = heap w2 ∧ rng w' = rng w2 ∧ grad_enabled w' = grad_enabled w2.
Proof.
  cbv zeta. destruct (_ =? _)%Z.
  - by intros (? & ? & ? & _ & _ & _ & _ & ->)%evaluate_Some.
  - by intros ->.
Qed.

(** X9. Gradients do not accumulate from one epoch to the next: whatever the
    [.grad] attributes hold when an epoch starts, at its end the [.grad] of
    the weight and of the bias of the linear layer are the derivatives of
    this epoch's loss alone, taken at the parameter values the epoch
    started with. *)
Theorem gradients_do_not_accumulate (channels : nat) (n_layers : Z)
    (w0 w1 : World) (w : World) (o : Adam) (epoch_i : Z)
    (w' : World) (o' : Adam) (loss : R) :
  Dist2Cycle_init channels n_layers w0 = (model, w1) →
  param_groups o = parameters model →
  epoch (w, o) epoch_i = Some (w', o', loss) →
  ∃ linear weight bias W b target,
    getattr_module model "linear" = Some linear ∧
    getattr_parameter linear "weight" = Some weight ∧
    getattr_parameter linear "bias" = Some bias ∧
    param_data w weight = Some (T2 W) ∧
    param_data w bias = Some (T1 b) ∧
    read y_train w = Some target ∧
    grad <$> heap w' !! weight
    = Some (Some (tabulate_like (T2 W) (λ _, 0%R)
                    (dloss_dweight W b x_1e target))) ∧
    grad <$> heap w' !! bias
    = Some (Some (tabulate_like (T1 b) (dloss_dbias W b x_1e target)
                    (λ _ _, 0%R))).
Proof.
  intros (tss & linear & weight & _ & _ & _ & _ & Hlin & Hw & Hb & _ & Hps
          & _)%Dist2Cycle_init_built Hgroups
         (y_hat & target & w2 & w3 & target' & accuracy & _ & Hread & _ & Hbw
          & Hstep & _ & _ & Hbranch)%epoch_Some.
  rewrite Hps in Hgroups.
  apply backward_Some in Hbw
    as (linear' & weight' & bias' & W & b & wa & _ & Hlin' & Hw' & Hb' & HW
        & Hbias & Hg1 & Hg2).
  assert (linear' = linear) as -> by congruence.
  assert (weight' = weight) as -> by congruence.
  assert (bias' = S weight) as -> by congruence.
  rewrite read_zero_grad in Hread.
  assert (heap (zero_grad o w) !! weight = Some (Cell (T2 W) None)) as HzW.
  { apply zero_grad_cell; [|done]. rewrite Hgroups. by left. }
  assert (heap (zero_grad o w) !! S weight = Some (Cell (T1 b) None)) as Hzb.
  { apply zero_grad_cell; [|done]. rewrite Hgroups. right. by left. }
  rewrite zero_grad_param_data in HW, Hbias.
  exists linear, weight, (S weight), W, b, target.
  do 6 (split; [done|]).
  rewrite (add_grad_fresh _ _ _ _ HzW) in Hg1. injection Hg1 as <-.
  rewrite (add_grad_fresh _ _ (T1 b)) in Hg2
    by (simpl; by rewrite list_lookup_insert_ne by lia).
  injection Hg2 as <-.
  apply epoch_end_heap in Hbranch as (-> & _).
  unfold Adam_step in Hstep.
  rewrite (Adam_step_params_grad _ _ _ _ _ weight Hstep).
  rewrite (Adam_step_params_grad _ _ _ _ _ (S weight) Hstep). simpl.
  split.
  - rewrite list_lookup_insert_ne by lia.
    by rewrite list_lookup_insert_eq by (by eapply lookup_lt_Some).
  - rewrite list_lookup_insert_eq; [done|].
    rewrite length_insert. by eapply lookup_lt_Some.
Qed.

Lemma epoch_frame (linear : module) (weight bias : nat) (w : World) (o : Adam)
    (epoch_i : Z) (w' : World) (o' : Adam) (loss : R) :
  getattr_module model "linear" = Some linear →
  getattr_parameter linear "weight" = Some weight →
  getattr_parameter linear "bias" = Some bias →
  param_groups o = [weight; bias] →
  epoch (w, o) epoch_i = Some (w', o', loss) →
  (∀ l, l ≠ weight → l ≠ bias → heap w' !! l = heap w !! l) ∧
  length (heap w') = length (heap w) ∧
  rng w' = rng w ∧ grad_enabled w' = grad_enabled w ∧
  param_groups o' = param_groups o ∧ lr o' = lr o.
Proof.
  intros Hlin Hw Hb Hgroups
    (y_hat & target & w1 & w2 & target' & accuracy & _ & _ & _ & Hbw
     & Hstep & _ & _ & Hbranch)%epoch_Some.
  apply epoch_end_heap in Hbranch as (Hh3 & Hr3 & Hg3).
  pose proof Hbw as (_ & Hl1 & Hr1 & _ & Hg1)%backward_frame.
  unfold Adam_step in Hstep.
  pose proof Hstep as (Hh2 & Hl2 & Hr2 & _ & Hg2 & Hp2 & Hlr2)%Adam_step_params_frame.
  split_and!; try done.
  - intros l H1 H2. rewrite Hh3, Hh2.
    2:{ rewrite Hgroups, !elem_of_cons, elem_of_nil. intros [?|[?|?]]; done. }
    erewrite backward_frame_heap; [|exact Hbw|exact Hlin|exact Hw|exact Hb|done|done].
    apply zero_grad_frame.
    rewrite Hgroups, !elem_of_cons, elem_of_nil. intros [?|[?|?]]; done.
  - by rewrite Hh3, Hl2, Hl1, zero_grad_length.
  - by rewrite Hr3, Hr2, Hr1.
  - by rewrite Hg3, Hg2, Hg1.
Qed.

(** X10. A training run writes to two objects only, the weight and the bias of
    the linear layer: every other tensor is left as it was. It creates no
    object, draws no random number, leaves the gradient mode as it found it
    (the [no_grad] blocks restore it) and keeps the optimizer's parameter
    list and learning rate. *)
Theorem train_changes_only_linear (channels : nat) (n_layers : Z)
    (w0 w1 : World) (num_epochs : Z) (w : World) (o : Adam)
    (w' : World) (o' : Adam) (losses : list R) :
  Dist2Cycle_init channels n_layers w0 = (model, w1) →
  param_groups o = parameters model →
  train num_epochs (w, o) = Some (w', o', losses) →
  ∃ weight bias,
    parameters model = [weight; bias] ∧
    (∀ l, l ≠ weight → l ≠ bias → heap w' !! l = heap w !! l) ∧
    length (heap w') = length (heap w) ∧
    rng w' = rng w ∧ grad_enabled w' = grad_enabled w ∧
    param_groups o' = param_groups o ∧ lr o' = lr o.
Proof.
  intros (tss & linear & weight & _ & _ & _ & _ & Hlin & Hw & Hb & _ & Hps
          & _)%Dist2Cycle_init_built Hgroups H.
  rewrite Hps in Hgroups. exists weight, (S weight). split; [done|].
  unfold train in H. revert H.
  generalize (Py.range 1 (num_epochs + 1)) (@nil R). intros epochs.
  revert w o Hgroups. induction epochs as [|i epochs IH]; intros w o Hgroups ls H.
  - by injection H as <- <- <-.
  - simpl in H. bind_inv H. destruct x as [[wa oa] loss]. simpl in H.
    pose proof (epoch_frame _ _ _ _ _ _ _ _ _ Hlin Hw Hb Hgroups E)
      as (Hh & Hl & Hr & Hg & Hp & Hlr).
    apply IH in H as (Hh' & Hl' & Hr' & Hg' & Hp' & Hlr'); [|congruence].
    split_and!; try congruence.
    intros l H1 H2. rewrite Hh', Hh; done.
Qed.

(** X11. The loop reads the labels through [y_train] and [y_test] only. Two runs
    that start from states which differ at most in the label buffers, and
    in which [y_train] and [y_test] read the same, compute the same losses,
    end with the same parameter values and print the same lines, or raise
    both: the label rows outside the two slices (rows 30..73 of [y_true])
    have no influence on training. *)
Theorem labels_outside_slices_are_unused (channels : nat) (n_layers : Z)
    (w0 w1 w2 : World) (o : Adam) (num_epochs : Z) :
  Dist2Cycle_init channels n_layers w0 = (model, w1) →
  base y_train < length (heap w0) →
  base y_test < length (heap w0) →
  param_groups o = parameters model →
  (∀ l, l ≠ base y_train → l ≠ base y_test → heap w2 !! l = heap w1 !! l) →
  read y_train w2 = read y_train w1 →
  read y_test w2 = read y_test w1 →
  grad_enabled w2 = grad_enabled w1 →
  match train num_epochs (w1, o), train num_epochs (w2, o) with
  | Some (wa, oa, la), Some (wb, ob, lb) =>
      la = lb ∧
      (∀ p, p ∈ parameters model → param_data wa p = param_data wb p) ∧
      ∃ lines, stdout wa = stdout w1 ++ lines ∧ stdout wb = stdout w2 ++ lines
  | None, None => True
  | _, _ => False
  end.
Proof.
  intros (tss & linear & weight & W & b & _ & Hlayers & Hlin & Hw & Hb & Hwt
          & Hps & _ & _ & _ & HdW & Hdb & _)%Dist2Cycle_init_built
         Htr Hte Hgroups Hdiff Hrtr Hrte Hgrad.
  rewrite Hps in Hgroups.
  set (k := mkWiring (layers_at (length (heap w0)) tss) weight (S weight)).
  assert (wired y_train y_test model k) as Hwired.
  { unfold wired. simpl. split_and!; try done; try lia.
    - by exists linear.
    - intros layer p Hl Hp.
      pose proof (parameters_layers_at _ _ _ _ Hl Hp). lia. }
  set (v := mkVals (T2 W) (T1 b) (state o !! weight) (state o !! S weight)).
  assert (vals_of k w1 o = Some v) as Hv1.
  { unfold vals_of. simpl. by rewrite HdW, Hdb. }
  assert (vals_of k w2 o = Some v) as Hv2.
  { unfold vals_of, param_data in *. simpl.
    rewrite !Hdiff by lia. by rewrite HdW, Hdb. }
  assert (env_of y_train y_test k w2 o = env_of y_train y_test k w1 o) as Henv.
  { unfold env_of. rewrite Hrtr, Hrte, Hgrad. f_equal.
    apply layer_values_ext. intros layer p Hl Hp. simpl in Hl.
    pose proof (parameters_layers_at _ _ _ _ Hl Hp).
    unfold param_data. rewrite Hdiff by lia. done. }
  unfold train.
  pose proof (train_loop_refines Dist2CycleLayer_forward dloss_dweight
                dloss_dbias adam_rule format_4f x_1e Linv adjacency y_train
                y_test model k (Py.range 1 (num_epochs + 1)) w1 o v [] []
                Hwired Hgroups Hv1) as H1.
  pose proof (train_loop_refines Dist2CycleLayer_forward dloss_dweight
                dloss_dbias adam_rule format_4f x_1e Linv adjacency y_train
                y_test model k (Py.range 1 (num_epochs + 1)) w2 o v [] []
                Hwired Hgroups Hv2) as H2.
  rewrite Henv in H2.
  destruct (train_values _ _ _ _ _ _ _ _ _ _ _ _ _)
    as [[[v' losses'] out']|].
  - destruct H1 as (wa & oa & -> & _ & Hva & _ & Hsa & _).
    destruct H2 as (wb & ob & -> & _ & Hvb & _ & Hsb & _).
    split; [done|]. split.
    + apply vals_of_Some in Hva as (HaW & Hab & _).
      apply vals_of_Some in Hvb as (HbW & Hbb & _).
      simpl in *. intros p. rewrite Hps, !elem_of_cons, elem_of_nil.
      intros [->|[->|?]]; [congruence|congruence|done].
    + exists out'. split.
      * apply Hsa. by rewrite app_nil_r.
      * apply Hsb. by rewrite app_nil_r.
  - by rewrite H1, H2.
Qed.

(** X12. For non-empty training labels, the value printed as [Train_acc]
    is the number of label rows that the compared prediction row equals in
    every entry, divided by the number of label rows. The compared rows
    are the last [len(y_train)] rows of the thresholded output that the
    epoch computed before its optimizer step. *)
Theorem train_accuracy_is_a_fraction (w : World) (o : Adam) (epoch_i : Z)
    (w' : World) (o' : Adam) (loss : R) (target : matrix) :
  epoch (w, o) epoch_i = Some (w', o', loss) →
  read y_train w' = Some target →
  target ≠ [] →
  ∃ (y_hat : Tensor) (accuracy : R) (rest : list string),
    forward model (zero_grad o w) x_1e Linv adjacency = Some y_hat ∧
    accuracy
    = (INR (matching_rows
              (Py.slice_from (- view_len y_train)
                 (Torch.where_gt_half (values y_hat))) target)
       / INR (length target))%R ∧
    stdout w' = stdout w ++ epoch_line format_4f epoch_i loss accuracy :: rest.
Proof.
  intros (y_hat & target0 & w1 & w2 & target' & accuracy & Hfw & _ & _ & Hbw
          & Hstep & Hread & Hacc & Hbranch)%epoch_Some Htarget _.
  pose proof Hbranch as (Hheap & _)%epoch_end_heap.
  assert (target' = target) as ->.
  { apply (inj Some). rewrite <- Hread, <- Htarget.
    apply read_ext. by rewrite Hheap. }
  apply accuracy_counts in Hacc.
  apply backward_frame in Hbw as (_ & _ & _ & Hout1 & _).
  apply Adam_step_params_frame in Hstep as (_ & _ & _ & Hout2 & _).
  exists y_hat, accuracy.
  cbv zeta in Hbranch. rewrite mean_singleton in Hbranch.
  destruct (_ =? _)%Z.
  - apply evaluate_Some in Hbranch as (? & ? & acc & _ & _ & _ & _ & ->).
    eexists [_]. split; [done|]. split; [done|].
    simpl. by rewrite Hout2, Hout1, <- app_assoc.
  - subst w'. exists []. split; [done|]. split; [done|].
    simpl. by rewrite Hout2, Hout1.
Qed.

Lemma train_loop_lines (epochs : list Z) (w : World) (o : Adam)
    (losses : list R) (w' : World) (o' : Adam) (losses' : list R) :
  train_loop epochs (w, o) losses = Some (w', o', losses') →
  ∃ lines,
    stdout w' = stdout w ++ lines ∧
    length lines
    = length epochs + length (filter (λ i, (i `mod` 2 = 0)%Z) epochs).
Proof.
  revert w o losses. induction epochs as [|i epochs IH]; intros w o losses H.
  - injection H as <- <- <-. exists []. by rewrite app_nil_r.
  - simpl in H. bind_inv H. destruct x as [[w1 o1] loss]. simpl in H.
    apply epoch_lines in E as (l1 & Hl1 & Hn1).
    apply IH in H as (l2 & Hl2 & Hn2).
    exists (l1 ++ l2). split; [by rewrite Hl2, Hl1, app_assoc|].
    rewrite length_app, Hn1, Hn2, filter_cons.
    destruct (Z.eqb_spec (i `mod` 2) 0) as [Hm|Hm].
    + rewrite decide_True by done. simpl. lia.
    + rewrite decide_False by done. simpl. lia.
Qed.

(** X14. A run of [num_epochs >= 0] epochs appends exactly
    [num_epochs + num_epochs // 2] lines to the console: one per epoch and
    one more for every even epoch index (90 lines for 60 epochs). *)
Theorem train_prints_lines (num_epochs : Z) (w : World) (o : Adam)
    (w' : World) (o' : Adam) (losses : list R) :
  (0 ≤ num_epochs)%Z →
  train num_epochs (w, o) = Some (w', o', losses) →
  ∃ lines,
    stdout w' = stdout w ++ lines ∧
    Z.of_nat (length lines) = (num_epochs + num_epochs / 2)%Z.
Proof.
  intros [n ->]%Z_of_nat_complete H. unfold train in H.
  apply train_loop_lines in H as (lines & Hl & Hlen).
  exists lines. split; [done|].
  rewrite Hlen, Nat2Z.inj_add, length_range, even_epochs. lia.
Qed.

End LoopProperties.

(* ================================================================= *)
(** ** The further properties on the small run *)

Lemma train_nonpositive_epochs_witness :
  train Demo.layer_forward Demo.dloss_dweight Demo.dloss_dbias Demo.adam_rule
        Demo.format_4f Demo.x_1e [] [] Demo.y_train Demo.y_test Demo.model
        (-3) (Demo.world, Demo.optimizer)
  = Some (Demo.world, Demo.optimizer, []).
Proof. apply train_nonpositive_epochs. lia. Defined.

Lemma train_prints_lines_witness :
  ∃ w' o' losses lines,
    train Demo.layer_forward Demo.dloss_dweight Demo.dloss_dbias
          Demo.adam_rule Demo.format_4f Demo.x_1e [] [] Demo.y_train
          Demo.y_test Demo.model 2 (Demo.world, Demo.optimizer)
      = Some (w', o', losses) ∧
    stdout w' = stdout Demo.world ++ lines ∧
    Z.of_nat (length lines) = 3%Z.
Proof.
  destruct (train Demo.layer_forward Demo.dloss_dweight Demo.dloss_dbias
              Demo.adam_rule Demo.format_4f Demo.x_1e [] [] Demo.y_train
              Demo.y_test Demo.model 2 (Demo.world, Demo.optimizer))
    as [[[w' o'] losses]|] eqn:E.
  - assert (0 ≤ 2)%Z as Hn by lia.
    destruct (train_prints_lines _ _ _ _ _ _ _ _ _ _ _ _ _ _ _ _ _ Hn E)
      as (lines & Hl & Hlen).
    exists w', o', losses, lines.
    split; [reflexivity|]. split; [exact Hl|exact Hlen].
  - exfalso. vm_compute in E. discriminate E.
Defined.

Lemma init_builds_separate_layers_witness :
  ∃ layers,
    getattr_list Demo.model "layers" = Some layers ∧
    length layers = 1 ∧
    stdout Demo.world = stdout Demo.labelled.
Proof.
  destruct (init_builds_separate_layers Demo.sample Demo.layer_params 2 1
              Demo.labelled Demo.world Demo.model eq_refl)
    as (layers & H1 & H2 & _ & _ & _ & H3).
  by exists layers.
Defined.


Lemma epoch_requires_matching_labels_witness :
  ∃ w' o' loss target k,
    epoch Demo.layer_forward Demo.dloss_dweight Demo.dloss_dbias
          Demo.adam_rule Demo.format_4f Demo.x_1e [] [] Demo.y_train
          Demo.y_test Demo.model (Demo.world, Demo.optimizer) 1
      = Some (w', o', loss) ∧
    read Demo.y_train Demo.world = Some target ∧
    out_features Demo.model Demo.world = Some k ∧
    length target ≤ length Demo.x_1e ∧
    Forall (λ row, length row = k) target.
Proof.
  destruct (epoch_requires_matching_labels Demo.layer_forward
              Demo.dloss_dweight Demo.dloss_dbias Demo.adam_rule
              Demo.format_4f Demo.x_1e [] [] Demo.y_train Demo.y_test
              Demo.model Demo.world Demo.optimizer 1 _ _ _ eq_refl)
    as (target & k & H).
  eexists _, _, _, target, k. split; [reflexivity|exact H].
Defined.

Lemma test_accuracy_uses_test_rows_witness :
  ∃ w' y_hat_test test_accuracy,
    evaluate Demo.layer_forward Demo.format_4f Demo.x_1e [] []
             (view_slice_from (-1) (View 0 0 3)) Demo.model Demo.world
      = Some w' ∧
    Torch.accuracy
      (drop 2 (Torch.where_gt_half (values y_hat_test))) [[1; 0]]%R
      = Some test_accuracy ∧
    w' = print (test_line Demo.format_4f test_accuracy) Demo.world.
Proof.
  assert (0 < 1 ≤ 3) as Hk by lia.
  destruct (test_accuracy_uses_test_rows Demo.layer_forward Demo.format_4f
              Demo.x_1e [] [] Demo.model 0 3 1
              [[1; 0]; [0; 1]; [1; 0]]%R None Demo.world _
              Hk eq_refl eq_refl eq_refl eq_refl)
    as (y_hat_test & test_accuracy & _ & H2 & H3).
  eexists _, y_hat_test, test_accuracy. split; [reflexivity|]. by split.
Defined.

Lemma gradients_do_not_accumulate_witness :
  ∃ w' o' loss linear weight W b target,
    epoch Demo.layer_forward Demo.dloss_dweight Demo.dloss_dbias
          Demo.adam_rule Demo.format_4f Demo.x_1e [] [] Demo.y_train
          Demo.y_test Demo.model (demo_graded, Demo.optimizer) 1
      = Some (w', o', loss) ∧
    getattr_module Demo.model "linear" = Some linear ∧
    getattr_parameter linear "weight" = Some weight ∧
    param_data demo_graded weight = Some (T2 W) ∧
    (∃ g, grad <$> heap demo_graded !! weight = Some (Some g)) ∧
    grad <$> heap w' !! weight
    = Some (Some (tabulate_like (T2 W) (λ _, 0%R)
                    (Demo.dloss_dweight W b Demo.x_1e target))).
Proof.
  destruct (gradients_do_not_accumulate Demo.sample Demo.layer_params
              Demo.layer_forward Demo.dloss_dweight Demo.dloss_dbias
              Demo.adam_rule Demo.format_4f Demo.x_1e [] [] Demo.y_train
              Demo.y_test Demo.model 2 1 Demo.labelled Demo.world
              demo_graded Demo.optimizer 1 _ _ _ eq_refl eq_refl eq_refl)
    as (linear & weight & bias & W & b & target & H1 & H2 & _ & H4 & _ & _
        & H7 & _).
  eexists _, _, _, linear, weight, W, b, target.
  split; [reflexivity|]. split; [exact H1|]. split; [exact H2|].
  split; [exact H4|]. split; [|exact H7].
  vm_compute in H1. injection H1 as <-.
  vm_compute in H2. injection H2 as <-.
  eexists. reflexivity.
Defined.

Lemma train_changes_only_linear_witness :
  ∃ w' o' losses weight bias,
    train Demo.layer_forward Demo.dloss_dweight Demo.dloss_dbias
          Demo.adam_rule Demo.format_4f Demo.x_1e [] [] Demo.y_train
          Demo.y_test Demo.model 2 (Demo.world, Demo.optimizer)
      = Some (w', o', losses) ∧
    parameters Demo.model = [weight; bias] ∧
    (∀ l, l ≠ weight → l ≠ bias → heap w' !! l = heap Demo.world !! l) ∧
    length (heap w') = length (heap Demo.world) ∧
    rng w' = rng Demo.world.
Proof.
  destruct (train Demo.layer_forward Demo.dloss_dweight Demo.dloss_dbias
              Demo.adam_rule Demo.format_4f Demo.x_1e [] [] Demo.y_train
              Demo.y_test Demo.model 2 (Demo.world, Demo.optimizer))
    as [[[w' o'] losses]|] eqn:E.
  - destruct (train_changes_only_linear Demo.sample Demo.layer_params
                Demo.layer_forward Demo.dloss_dweight Demo.dloss_dbias
                Demo.adam_rule Demo.format_4f Demo.x_1e [] [] Demo.y_train
                Demo.y_test Demo.model 2 1 Demo.labelled Demo.world 2
                Demo.world Demo.optimizer w' o' losses eq_refl eq_refl E)
      as (weight & bias & H1 & H2 & H3 & H4 & _).
    exists w', o', losses, weight, bias.
    split; [reflexivity|]. split; [exact H1|]. split; [exact H2|].
    split; [exact H3|exact H4].
  - exfalso. vm_compute in E. discriminate E.
Defined.

Lemma train_accuracy_is_a_fraction_witness :
  ∃ w' o' loss y_hat accuracy rest,
    epoch Demo.layer_forward Demo.dloss_dweight Demo.dloss_dbias
          Demo.adam_rule Demo.format_4f Demo.x_1e [] [] Demo.y_train
          Demo.y_test Demo.model (Demo.world, Demo.optimizer) 1
      = Some (w', o', loss) ∧
    read Demo.y_train w' = Some [[1; 0]; [0; 1]]%R ∧
    forward Demo.layer_forward Demo.model
            (zero_grad Demo.optimizer Demo.world) Demo.x_1e [] []
      = Some y_hat ∧
    accuracy
    = (INR (matching_rows
              (Py.slice_from (- view_len Demo.y_train)
                 (Torch.where_gt_half (values y_hat)))
              [[1; 0]; [0; 1]]%R)
       / INR 2)%R ∧
    stdout w'
    = stdout Demo.world ++ epoch_line Demo.format_4f 1 loss accuracy :: rest.
Proof.
  destruct (train_accuracy_is_a_fraction Demo.layer_forward
              Demo.dloss_dweight Demo.dloss_dbias Demo.adam_rule
              Demo.format_4f Demo.x_1e [] [] Demo.y_train Demo.y_test
              Demo.model Demo.world Demo.optimizer 1 _ _ _
              [[1; 0]; [0; 1]]%R eq_refl eq_refl)
    as (y_hat & accuracy & rest & H1 & H2 & H3); [discriminate|].
  eexists _, _, _, y_hat, accuracy, rest.
  split; [reflexivity|]. split; [reflexivity|]. split; [exact H1|].
  split; [exact H2|exact H3].
Defined.

(** Two states that differ in the label row that neither slice reads. *)
Lemma labels_outside_slices_are_unused_witness :
  let y_train := View 0 0 1 in
  let y_test := View 0 2 3 in
  let w2 :=
    with_heap (<[0 := Cell (T2 [[1; 0]; [7; 7]; [1; 0]]%R) None]>
                 (heap Demo.world)) Demo.world in
  let run :=
    train Demo.layer_forward Demo.dloss_dweight Demo.dloss_dbias
          Demo.adam_rule Demo.format_4f Demo.x_1e [] [] y_train y_test
          Demo.model 2 in
  heap w2 !! 0 ≠ heap Demo.world !! 0 ∧
  match run (Demo.world, Demo.optimizer), run (w2, Demo.optimizer) with
  | Some (wa, oa, la), Some (wb, ob, lb) =>
      la = lb ∧
      (∀ p, p ∈ parameters Demo.model → param_data wa p = param_data wb p) ∧
      ∃ lines,
        stdout wa = stdout Demo.world ++ lines ∧ stdout wb = stdout w2 ++ lines
  | None, None => True
  | _, _ => False
  end.
Proof.
  intros y_train y_test w2 run. split.
  { vm_compute. intros [= H]. lra. }
  apply (labels_outside_slices_are_unused Demo.sample Demo.layer_params
           Demo.layer_forward Demo.dloss_dweight Demo.dloss_dbias
           Demo.adam_rule Demo.format_4f Demo.x_1e [] [] y_train y_test
           Demo.model 2 1 Demo.labelled Demo.world w2 Demo.optimizer 2).
  - reflexivity.
  - simpl. lia.
  - simpl. lia.
  - reflexivity.
  - intros l Hl _. subst w2. unfold with_heap. cbn [heap].
    apply list_lookup_insert_ne. intros <-. by apply Hl.
  - reflexivity.
  - reflexivity.
  - reflexivity.
Defined.

Lemma view_slices_read_as_slices_witness :
  let Y := [[1; 0]; [0; 1]; [1; 0]]%R in
  read (view_slice_to (-1) (View 0 0 3)) Demo.world
  = Some (Py.slice_to (-1) Y) ∧
  read (view_slice_from (-1) (View 0 0 3)) Demo.world
  = Some (Py.slice_from (-1) Y).
Proof.
  intros Y.
  apply (view_slices_read_as_slices (View 0 0 3) Demo.world Y
           (Cell (T2 Y) None) Y (-1)).
  - reflexivity.
  - reflexivity.
  - simpl. lia.
  - reflexivity.
Defined.

(* ================================================================= *)
(** ** The notebook as a whole *)

Lemma range_cons (lo hi : Z) :
  (lo < hi)%Z → Py.range lo hi = lo :: Py.range (lo + 1) hi.
Proof.
  intros H. unfold Py.range.
  replace (Z.to_nat (hi - lo)) with (S (Z.to_nat (hi - (lo + 1)))) by lia.
  cbn [seq]. rewrite fmap_cons, <- fmap_S_seq, <- list_fmap_compose.
  f_equal; [lia|]. apply list_fmap_ext. intros i k _. simpl. lia.
Qed.

Lemma linear_Some_rows (c : nat) (W : matrix) (b : list R) (x out : matrix) :
  Torch.linear W b x = Some out →
  W ≠ [] → Forall (λ w_j, length w_j = c) W →
  Forall (λ row, length row = c) x.
Proof.
  unfold Torch.linear. case_match eqn:Hc; [|done]. intros _ Hne HW.
  apply andb_prop in Hc as [Hc _].
  apply Is_true_true, forallb_True in Hc.
  eapply Forall_impl; [exact Hc|]. intros row Hrow. simpl in Hrow.
  apply forallb_True in Hrow.
  destruct W as [|r W]; [done|]. apply Forall_cons_1 in HW as [Hr _].
  apply Forall_cons_1 in Hrow as [Hrow _].
  apply Is_true_true, Nat.eqb_eq in Hrow. congruence.
Qed.

Lemma pointwise_Some (f : R → R → R) (P Q M : matrix) :
  pointwise f P Q = Some M →
  length <$> P = length <$> Q ∧ length <$> M = length <$> P.
Proof.
  unfold pointwise. destruct (tzip (T2 P) (T2 Q)) as [[|m]|] eqn:E; try done.
  intros [= <-]. apply tzip_Some in E as [HPQ Hm]. simpl in HPQ, Hm.
  injection HPQ as HPQ. injection Hm as Hm. split; [done|].
  rewrite <- Hm, <- list_fmap_compose. apply list_fmap_ext.
  intros i row _. simpl. apply length_fmap.
Qed.

Section NotebookProperties.

Context {RNG : Type}.
Variable sample : RNG → R * RNG.
Variable Dist2CycleLayer_params : nat → RNG → list (string * tensor R) * RNG.
Variable Dist2CycleLayer_forward :
  list (tensor R) → matrix → matrix → matrix → option matrix.
Variable dloss_dweight : matrix → list R → matrix → matrix → nat → nat → R.
Variable dloss_dbias : matrix → list R → matrix → matrix → nat → R.
Variable adam_rule : R → Z → R * R * R * R → R * R * R.
Variable format_4f : R → string.

Local Abbreviation World := (@World RNG).
Local Abbreviation notebook :=
  (notebook sample Dist2CycleLayer_params Dist2CycleLayer_forward
            dloss_dweight dloss_dbias adam_rule format_4f).

(** X15. The notebook fixes [channels_nodes = 78] and 30 training labels:
    a run of at least one epoch completes only if the adjacency matrix and
    the pseudo-inverse have the same shape, with rows of exactly 78 entries
    and at least 30 rows. For any other complex the first epoch raises. *)
Theorem notebook_requires_78_columns (A L_tilde_pinv : matrix)
    (num_epochs : Z) (w : World) (r : World * Adam * list R) :
  (1 ≤ num_epochs)%Z →
  notebook A L_tilde_pinv num_epochs w = Some r →
  length <$> A = length <$> L_tilde_pinv ∧
  Forall (λ row, length row = channels_nodes) A ∧
  30 ≤ length A.
Proof.
  intros Hn H.
  destruct (label_cell_spec w) as (Y & HY & [HYlen _] & Hlc). cbv zeta in Hlc.
  destruct (pointwise Rmult A L_tilde_pinv) as [x_1e|] eqn:Hx.
  2:{ exfalso. unfold notebook in H. rewrite Hlc in H. simpl in H.
      by rewrite Hx in H. }
  destruct (layer_tensors Dist2CycleLayer_params channels_nodes 10 (rng w))
    as [tss g1] eqn:Htss.
  pose proof (draw_matrix_shape sample 2 channels_nodes g1) as [HW2 HWc].
  destruct (draw_matrix sample 2 channels_nodes g1) as [W g2] eqn:HW.
  simpl in HW2, HWc.
  destruct (draw sample 2 g2) as [b g3] eqn:Hb.
  pose proof (notebook_refines sample Dist2CycleLayer_params
                Dist2CycleLayer_forward dloss_dweight dloss_dbias adam_rule
                format_4f A L_tilde_pinv num_epochs w Y x_1e tss g1 W g2 b g3
                HY Hx Htss HW Hb) as Href.
  cbv zeta in Href.
  destruct (train_values _ _ _ _ _ _ _ _ _ _ _ _ _)
    as [[[v' losses] out]|] eqn:Htv; [|congruence].
  clear Href H.
  rewrite range_cons in Htv by lia. cbn [train_values] in Htv.
  destruct (epoch_values _ _ _ _ _ _ _ _ _ _ _) as [[[v1 loss] lines]|] eqn:E;
    [|done].
  clear Htv. unfold epoch_values in E. cbn [e_layers v_weight v_bias
    e_grad_enabled e_train e_train_len] in E.
  destruct (forward_values _ _ _ _ _ _ _ _) as [y_hat|] eqn:Hfw; [|done].
  cbn [mbind option_bind] in E.
  destruct (Torch.binary_cross_entropy_with_logits _ _) as [l|] eqn:Hloss;
    [|done].
  clear E. unfold forward_values in Hfw.
  destruct (layers_values _ _ _ _ _) as [[]|]; [|done].
  cbn [mbind option_bind] in Hfw.
  destruct (Torch.linear W b x_1e) as [logits|] eqn:Hlin; [|done].
  injection Hfw as <-. simpl in Hloss.
  apply pointwise_Some in Hx as [HAL HxA].
  assert (Forall (λ row, length row = channels_nodes) x_1e) as Hrows.
  { eapply linear_Some_rows; [exact Hlin| |exact HWc]. by destruct W. }
  apply linear_Some in Hlin as [Hlen _].
  split; [done|]. split.
  - assert (Forall (λ n, n = channels_nodes) (length <$> A)) as HF.
    { rewrite <- HxA. by apply Forall_fmap. }
    apply Forall_fmap in HF. exact HF.
  - unfold Torch.binary_cross_entropy_with_logits, tzip in Hloss.
    case_decide as Hshape; [|done]. injection Hshape as Hshape.
    apply (f_equal length) in Hshape.
    change 30%Z with (Z.of_nat 30) in Hshape.
    rewrite slice_to_take in Hshape.
    unfold Torch.softmax in Hshape.
    rewrite !length_fmap, !length_take, length_fmap, Hlen, HYlen in Hshape.
    apply (f_equal length) in HxA. rewrite !length_fmap in HxA. lia.
Qed.

End NotebookProperties.

Lemma notebook_requires_78_columns_witness :
  ∃ r,
    notebook Demo.sample Demo.layer_params Demo.layer_forward
      Demo.dloss_dweight Demo.dloss_dbias Demo.adam_rule Demo.format_4f
      Demo.A Demo.L_tilde_pinv 1 Demo.fresh = Some r ∧
    length <$> Demo.A = length <$> Demo.L_tilde_pinv ∧
    Forall (λ row, length row = channels_nodes) Demo.A ∧
    30 ≤ length Demo.A.
Proof.
  assert (match notebook Demo.sample Demo.layer_params Demo.layer_forward
                  Demo.dloss_dweight Demo.dloss_dbias Demo.adam_rule
                  Demo.format_4f Demo.A Demo.L_tilde_pinv 1 Demo.fresh
          with Some _ => True | None => False end) as Hrun.
  { vm_compute. exact I. }
  destruct (notebook Demo.sample Demo.layer_params Demo.layer_forward
              Demo.dloss_dweight Demo.dloss_dbias Demo.adam_rule
              Demo.format_4f Demo.A Demo.L_tilde_pinv 1 Demo.fresh)
    as [r|] eqn:E; [|destruct Hrun].
  exists r. split; [reflexivity|].
  assert (1 ≤ 1)%Z as Hn by lia.
  exact (notebook_requires_78_columns Demo.sample Demo.layer_params
           Demo.layer_forward Demo.dloss_dweight Demo.dloss_dbias
           Demo.adam_rule Demo.format_4f Demo.A Demo.L_tilde_pinv 1
           Demo.fresh r Hn E).
Defined.

(* ================================================================= *)
(** ** The output of [forward] on float32 values *)

Lemma max_float_ge_2 : (2 <= F32.max_float)%R.
Proof.
  unfold F32.max_float.
  assert (1 <= 2 ^ 126)%R as H1 by (apply pow_R1_Rle; lra).
  assert (1 <= 2 ^ 23)%R as H2 by (apply pow_R1_Rle; lra).
  assert (/ 2 ^ 23 <= 1)%R as H3.
  { rewrite <- Rinv_1. apply Rinv_le_contravar; lra. }
  change (2 ^ 127)%R with (2 * 2 ^ 126)%R. nra.
Qed.

Lemma round_in_range (x : R) :
  (- F32.max_float <= x <= F32.max_float)%R → F32.round x = F32.Finite x.
Proof.
  intros H. unfold F32.round.
  destruct (Rlt_dec _ _); [lra|]. destruct (Rlt_dec _ _); [lra|]. done.
Qed.

Lemma round_above (x : R) : (F32.max_float < x)%R → F32.round x = F32.PInf.
Proof. intros H. unfold F32.round. by destruct (Rlt_dec _ _). Qed.

Lemma finite_row (z : list F32.float) :
  Forall F32.is_finite z → ∃ zs, z = F32.Finite <$> zs.
Proof.
  induction 1 as [|a z Ha _ (zs & ->)]; [by exists []|].
  destruct a as [x| | |]; try done. by exists (x :: zs).
Qed.

(** The maximum of a non-empty row of finite values is one of them and
    bounds them all. *)
Lemma finite_row_max (zs : list R) :
  zs ≠ [] →
  ∃ m, foldr F32.max F32.NInf (F32.Finite <$> zs) = F32.Finite m ∧
       m ∈ zs ∧ Forall (λ x, (x <= m)%R) zs.
Proof.
  induction zs as [|x zs IH]; [done|]. intros _.
  destruct zs as [|y zs].
  - exists x. simpl. split; [done|]. split; [left|]. constructor; [lra|done].
  - destruct IH as (m & Hm & Hin & Hle); [done|].
    exists (Rmax x m). split.
    + change (foldr F32.max F32.NInf (F32.Finite <$> x :: y :: zs))
        with (F32.max (F32.Finite x)
                (foldr F32.max F32.NInf (F32.Finite <$> y :: zs))).
      by rewrite Hm.
    + split.
      * unfold Rmax. destruct (Rle_dec x m); [by right|left].
      * constructor; [apply Rmax_l|].
        eapply Forall_impl; [exact Hle|]. intros r Hr. simpl in Hr.
        pose proof (Rmax_r x m). lra.
Qed.

(** [exp(x - m)] for [x <= m]: a number in [0, 1], and 1 for [x = m]. When
    [x - m] overflows, it is 0. *)
Definition shifted_exp (m x : R) : R :=
  if Rlt_dec (x - m) (- F32.max_float) then 0%R else exp (x - m).

Lemma exp_sub_finite (m x : R) :
  (x <= m)%R →
  F32.exp (F32.sub (F32.Finite x) (F32.Finite m))
  = F32.Finite (shifted_exp m x) ∧
  (0 <= shifted_exp m x <= 1)%R ∧
  (x = m → shifted_exp m x = 1%R).
Proof.
  intros Hle. pose proof max_float_ge_2 as HM.
  unfold F32.sub, F32.neg, F32.add, F32.round, shifted_exp.
  replace (x + - m)%R with (x - m)%R by lra.
  destruct (Rlt_dec F32.max_float (x - m)); [lra|].
  destruct (Rlt_dec (x - m) (- F32.max_float)).
  - simpl. split; [done|]. split; [lra|]. intros ->. lra.
  - unfold F32.exp.
    assert (0 < exp (x - m) <= 1)%R as He.
    { split; [apply exp_pos|]. rewrite <- exp_0. apply exp_monotone. lra. }
    rewrite round_in_range by lra.
    split; [done|]. split; [lra|]. intros ->.
    replace (m - m)%R with 0%R by lra. apply exp_0.
Qed.

Lemma sum_unit_interval (rs : list R) :
  Forall (λ r, (0 <= r <= 1)%R) rs →
  (0 <= Torch.sum rs <= INR (length rs))%R.
Proof.
  induction 1 as [|r rs Hr _ IH]; simpl; [lra|].
  destruct (length rs); [simpl in *; lra|]. lra.
Qed.

Lemma sum_finite (rs : list R) :
  Forall (λ r, (0 <= r <= 1)%R) rs →
  (INR (length rs) <= F32.max_float)%R →
  F32.sum (F32.Finite <$> rs) = F32.Finite (Torch.sum rs).
Proof.
  pose proof max_float_ge_2 as HM.
  induction 1 as [|r rs Hr Hrs IH]; intros Hn; [done|].
  rewrite length_cons, S_INR in Hn.
  pose proof (sum_unit_interval rs Hrs) as Hs.
  change (F32.sum (F32.Finite <$> r :: rs))
    with (F32.add (F32.Finite r) (F32.sum (F32.Finite <$> rs))).
  rewrite IH by lra. simpl. apply round_in_range. lra.
Qed.

Lemma sum_ge_member (rs : list R) (r : R) :
  Forall (λ r, (0 <= r)%R) rs → r ∈ rs → (r <= Torch.sum rs)%R.
Proof.
  intros Hrs Hin. apply sum_ge_entry in Hrs.
  by eapply Forall_forall in Hrs.
Qed.

Lemma div_unit (r s : R) :
  (0 <= r <= 1)%R → (1 <= s)%R → (0 <= r / s <= 1)%R.
Proof.
  intros Hr Hs. split.
  - apply (Rmult_le_reg_r s); [lra|].
    replace (r / s * s)%R with r by (field; lra). lra.
  - apply (Rmult_le_reg_r s); [lra|].
    replace (r / s * s)%R with r by (field; lra). lra.
Qed.

(** The softmax of a non-empty row of finite logits, in terms of real
    numbers. *)
Lemma softmax_row_finite (zs : list R) :
  zs ≠ [] →
  (INR (length zs) <= F32.max_float)%R →
  ∃ (m : R) (ps : list R),
    let rs := shifted_exp m <$> zs in
    m ∈ zs ∧ Forall (λ x, (x <= m)%R) zs ∧
    ps = (λ r, r / Torch.sum rs)%R <$> rs ∧
    (1 <= Torch.sum rs)%R ∧
    F32.softmax_row (F32.Finite <$> zs) = F32.Finite <$> ps ∧
    Forall (λ p, (0 <= p <= 1)%R) ps ∧
    Torch.sum ps = 1%R.
Proof.
  intros Hne Hn. pose proof max_float_ge_2 as HM.
  destruct (finite_row_max zs Hne) as (m & Hm & Hin & Hle).
  exists m, ((λ r, r / Torch.sum (shifted_exp m <$> zs))%R
               <$> (shifted_exp m <$> zs)).
  cbv zeta. set (rs := shifted_exp m <$> zs).
  assert (Forall (λ r, (0 <= r <= 1)%R) rs) as Hrs.
  { subst rs. apply Forall_fmap. eapply Forall_impl; [exact Hle|].
    intros x Hx. simpl. by apply exp_sub_finite. }
  assert (1 <= Torch.sum rs)%R as Hs1.
  { apply sum_ge_member.
    - eapply Forall_impl; [exact Hrs|]. intros r Hr. simpl in Hr. lra.
    - subst rs. apply list_elem_of_fmap. exists m. split; [|done].
      symmetry. apply exp_sub_finite; lra. }
  pose proof (sum_unit_interval rs Hrs) as Hs.
  assert (length rs = length zs) as Hlen by (subst rs; apply length_fmap).
  assert ((λ x, F32.exp (F32.sub x (F32.Finite m))) <$> (F32.Finite <$> zs)
          = F32.Finite <$> rs) as He.
  { subst rs. rewrite <- !list_fmap_compose.
    apply Forall_fmap_ext_1. eapply Forall_impl; [exact Hle|].
    intros x Hx. simpl. by apply exp_sub_finite. }
  split_and!; try done.
  - unfold F32.softmax_row. rewrite Hm. cbv zeta. rewrite He.
    rewrite sum_finite by (rewrite ?Hlen; done).
    rewrite <- !list_fmap_compose. apply Forall_fmap_ext_1.
    eapply Forall_impl; [exact Hrs|]. intros r Hr. simpl in *.
    destruct (Req_dec_T (Torch.sum rs) 0) as [E|_]; [lra|].
    apply round_in_range.
    pose proof (div_unit r (Torch.sum rs) Hr Hs1). lra.
  - apply Forall_fmap. eapply Forall_impl; [exact Hrs|].
    intros r Hr. simpl in *. by apply div_unit.
  - rewrite sum_fmap_div. field. lra.
Qed.

Lemma F32_linear_Some (W : list (list F32.float)) (b : list F32.float)
    (x out : list (list F32.float)) :
  F32.linear W b x = Some out →
  length out = length x ∧ Forall (λ row, length row = length W) out.
Proof.
  unfold F32.linear. case_match eqn:Hc; [|done]. intros [= <-].
  apply andb_prop in Hc as [_ Hb]. apply Nat.eqb_eq in Hb.
  split; [apply length_fmap|].
  rewrite Forall_fmap. apply Forall_forall. intros row _. simpl.
  rewrite length_zip_with. lia.
Qed.

(** With finite logits in two columns, the output of [forward] is a matrix
    of real numbers in [0, 1] whose rows sum to 1. *)
Lemma softmax_of_finite_logits (logits : list (list F32.float)) :
  Forall (λ row, length row = 2) logits →
  Forall (Forall F32.is_finite) logits →
  ∃ P : matrix,
    F32.softmax logits = fmap (M:=list) F32.Finite <$> P ∧
    Forall (λ ps, length ps = 2 ∧ Forall (λ p, (0 <= p <= 1)%R) ps ∧
                  Torch.sum ps = 1%R) P.
Proof.
  pose proof max_float_ge_2 as HM.
  induction logits as [|z logits IH]; intros Hlen Hfin.
  { exists []. split; [done|constructor]. }
  apply Forall_cons_1 in Hlen as [Hz Hlen].
  apply Forall_cons_1 in Hfin as [Hzf Hfin].
  destruct (IH Hlen Hfin) as (P & HP & HPs).
  destruct (finite_row z Hzf) as (zs & ->). rewrite length_fmap in Hz.
  destruct (softmax_row_finite zs) as (m & ps & _ & _ & Hps & _ & Hsm & Hu & Hs).
  { by destruct zs. }
  { rewrite Hz. simpl. lra. }
  exists (ps :: P). split.
  - unfold F32.softmax in *. by rewrite !fmap_cons, Hsm, HP.
  - constructor; [|done]. split; [|done].
    rewrite Hps, !length_fmap. exact Hz.
Qed.

Lemma distribution_of_reals (ps : list R) :
  length ps = 2 → Forall (λ p, (0 <= p <= 1)%R) ps → Torch.sum ps = 1%R →
  F32.is_distribution (F32.Finite <$> ps).
Proof.
  intros Hlen Hu Hs. pose proof max_float_ge_2 as HM. split.
  - apply Forall_fmap. eapply Forall_impl; [exact Hu|].
    intros p Hp. simpl in *. lra.
  - rewrite sum_finite, Hs; [|done|rewrite Hlen; simpl; lra].
    exists 1%R. split; [done|].
    replace (1 - 1)%R with 0%R by lra. rewrite Rabs_R0.
    unfold F32.tolerance. apply Rlt_le, Rinv_0_lt_compat, pow_lt. lra.
Qed.

(** C4 (amended). Whatever the layers, the weight, the bias and the
    input, if no layer raises, the linear layer has its two outputs and the
    logits it computes are finite float values (no NaN, no overflow to an
    infinity), [forward] returns a tensor of which every row is a
    probability vector: its entries are non-negative and their sum is 1
    within the tolerance. *)
Theorem finite_logits_give_distributions (layers : list F32.layer)
    (W : list (list F32.float)) (b : list F32.float)
    (x_1e Linv adjacency : list (list F32.float))
    (x_1 : option (list (list F32.float))) (logits : list (list F32.float)) :
  length W = 2 →
  F32.forward_layers layers x_1e Linv adjacency None = Some x_1 →
  F32.linear W b x_1e = Some logits →
  Forall (Forall F32.is_finite) logits →
  ∃ y_hat,
    F32.forward layers W b x_1e Linv adjacency = Some y_hat ∧
    length y_hat = length x_1e ∧
    Forall F32.is_distribution y_hat.
Proof.
  intros HW Hlay Hlin Hfin.
  pose proof Hlin as [Hrows Hcols]%F32_linear_Some. rewrite HW in Hcols.
  destruct (softmax_of_finite_logits logits Hcols Hfin) as (P & HP & HPs).
  exists (F32.softmax logits). split.
  - unfold F32.forward. rewrite Hlay. simpl. by rewrite Hlin.
  - split.
    + unfold F32.softmax. by rewrite length_fmap.
    + rewrite HP. apply Forall_fmap.
      eapply Forall_impl; [exact HPs|]. intros ps (Hl & Hu & Hs). simpl.
      by apply distribution_of_reals.
Qed.

Lemma add_in_range (x y : R) :
  (- F32.max_float <= x + y <= F32.max_float)%R →
  F32.add (F32.Finite x) (F32.Finite y) = F32.Finite (x + y).
Proof. intros H. simpl. by apply round_in_range. Qed.

Lemma mul_in_range (x y : R) :
  (- F32.max_float <= x * y <= F32.max_float)%R →
  F32.mul (F32.Finite x) (F32.Finite y) = F32.Finite (x * y).
Proof. intros H. simpl. by apply round_in_range. Qed.

(** A linear layer with finite logits. *)
Lemma finite_linear :
  F32.linear [[F32.Finite 1]; [F32.Finite (-1)]] [F32.Finite 0; F32.Finite 0]
             [[F32.Finite 1]]
  = Some [[F32.Finite (1 * 1 + 0 + 0); F32.Finite (1 * -1 + 0 + 0)]].
Proof.
  pose proof max_float_ge_2 as HM.
  unfold F32.linear, F32.dot, F32.sum. cbn [forallb length Nat.eqb andb].
  cbn [fmap list_fmap zip_with foldr].
  rewrite !mul_in_range by lra. rewrite !add_in_range by lra. reflexivity.
Qed.

Lemma finite_logits_give_distributions_witness :
  let layers : list F32.layer := [λ x _ _, Some x; λ x _ _, Some x] in
  let W := [[F32.Finite 1]; [F32.Finite (-1)]] in
  let b := [F32.Finite 0; F32.Finite 0] in
  let x_1e := [[F32.Finite 1]] in
  ∃ y_hat,
    F32.forward layers W b x_1e [] [] = Some y_hat ∧
    length y_hat = length x_1e ∧
    Forall F32.is_distribution y_hat.
Proof.
  intros layers W b x_1e.
  apply (finite_logits_give_distributions layers W b x_1e [] [] _ _
           eq_refl eq_refl finite_linear).
  repeat constructor.
Defined.

(** A linear layer that overflows on a finite input. *)
Lemma linear_overflows :
  F32.linear [[F32.Finite 2]; [F32.Finite 2]] [F32.Finite 0; F32.Finite 0]
             [[F32.Finite F32.max_float]]
  = Some [[F32.PInf; F32.PInf]].
Proof.
  pose proof max_float_ge_2 as HM.
  unfold F32.linear, F32.dot, F32.sum. cbn [forallb length Nat.eqb andb].
  cbn [fmap list_fmap zip_with foldr].
  assert (F32.mul (F32.Finite F32.max_float) (F32.Finite 2) = F32.PInf) as ->.
  { simpl. apply round_above. lra. }
  reflexivity.
Qed.

(** On that input [forward] returns the row [nan, nan], whatever the
    layers, as long as none raises: their results are not used. *)
Lemma forward_overflows (layers : list F32.layer)
    (Linv adjacency : list (list F32.float))
    (x_1 : option (list (list F32.float))) :
  F32.forward_layers layers [[F32.Finite F32.max_float]] Linv adjacency None
  = Some x_1 →
  F32.forward layers [[F32.Finite 2]; [F32.Finite 2]]
              [F32.Finite 0; F32.Finite 0] [[F32.Finite F32.max_float]]
              Linv adjacency
  = Some [[F32.NaN; F32.NaN]].
Proof.
  intros Hlay. unfold F32.forward. rewrite Hlay. cbn [mbind option_bind].
  rewrite linear_overflows. reflexivity.
Qed.

(** C4 (the claim as worded fails). A model of one channel and no layer
    ([Dist2Cycle(channels=1, n_layers=0)]) with weight [[2], [2]] and bias
    [0, 0], on an input of one finite float32 value, the largest one. The
    linear layer overflows: both logits are infinite, so the softmax
    computes [inf - inf] and the row that [forward] returns is [nan, nan],
    which is neither non-negative nor of a sum near 1. *)
Lemma overflowing_logits_give_nan :
  let W := [[F32.Finite 2]; [F32.Finite 2]] in
  let b := [F32.Finite 0; F32.Finite 0] in
  let x_1e := [[F32.Finite F32.max_float]] in
  length W = 2 ∧
  F32.linear W b x_1e = Some [[F32.PInf; F32.PInf]] ∧
  F32.forward [] W b x_1e [] [] = Some [[F32.NaN; F32.NaN]] ∧
  ¬ Forall F32.is_distribution [[F32.NaN; F32.NaN]].
Proof.
  intros W b x_1e.
  split; [reflexivity|]. split; [exact linear_overflows|]. split.
  - by apply (forward_overflows [] [] [] None).
  - intros H. apply Forall_cons_1 in H as [[H _] _].
    apply Forall_cons_1 in H as [H _]. exact H.
Qed.

(** The thresholded softmax of two finite logits: an entry can exceed 0.5
    only if its logit is strictly the larger one. *)
Lemma threshold_finite_pair (x y : R) :
  ∃ p q,
    F32.softmax_row [F32.Finite x; F32.Finite y]
    = [F32.Finite p; F32.Finite q] ∧
    (1 / 2 < p → y < x)%R ∧ (1 / 2 < q → x < y)%R.
Proof.
  pose proof max_float_ge_2 as HM.
  destruct (softmax_row_finite [x; y]) as (m & ps & Hin & Hle & Hps & Hs1 & Hsm & _).
  { done. }
  { simpl. lra. }
  cbv zeta in *. cbn [fmap list_fmap] in Hps, Hs1, Hsm.
  apply Forall_cons_1 in Hle as [Hx Hle]. apply Forall_cons_1 in Hle as [Hy _].
  destruct (exp_sub_finite m x Hx) as (_ & Hrx & Hx1).
  destruct (exp_sub_finite m y Hy) as (_ & Hry & Hy1).
  set (rx := shifted_exp m x) in *. set (ry := shifted_exp m y) in *.
  simpl in Hs1.
  exists (rx / Torch.sum [rx; ry])%R, (ry / Torch.sum [rx; ry])%R.
  split; [rewrite Hps in Hsm; exact Hsm|].
  simpl. split; intros Hp.
  - apply div_gt_half in Hp; [|lra].
    destruct (Rlt_dec y x) as [|Hn]; [done|]. exfalso.
    assert (y = m) as Hm.
    { apply elem_of_cons in Hin as [->|Hin]; [lra|].
      apply elem_of_cons in Hin as [->|Hin]; [done|]. by apply elem_of_nil in Hin. }
    specialize (Hy1 Hm). lra.
  - apply div_gt_half in Hp; [|lra].
    destruct (Rlt_dec x y) as [|Hn]; [done|]. exfalso.
    assert (x = m) as Hm.
    { apply elem_of_cons in Hin as [->|Hin]; [done|].
      apply elem_of_cons in Hin as [->|Hin]; [lra|]. by apply elem_of_nil in Hin. }
    specialize (Hx1 Hm). lra.
Qed.

(** The same with a logit of minus infinity, whose exponential is 0. *)
Lemma softmax_row_ninf_l (y : R) :
  F32.softmax_row [F32.NInf; F32.Finite y]
  = [F32.Finite (0 / (0 + (1 + 0))); F32.Finite (1 / (0 + (1 + 0)))].
Proof.
  pose proof max_float_ge_2 as HM.
  destruct (exp_sub_finite y y) as (He & _ & H1); [lra|].
  rewrite H1 in He by done.
  unfold F32.softmax_row.
  change (foldr F32.max F32.NInf [F32.NInf; F32.Finite y]) with (F32.Finite y).
  cbv zeta. cbn [fmap list_fmap]. rewrite He.
  change (F32.exp (F32.sub F32.NInf (F32.Finite y))) with (F32.Finite 0).
  change [F32.Finite 0; F32.Finite 1] with (F32.Finite <$> [0; 1]%R).
  rewrite sum_finite.
  2:{ repeat constructor; lra. }
  2:{ simpl. lra. }
  cbn [fmap list_fmap Torch.sum foldr F32.div].
  destruct (Req_dec_T _ _) as [E|_]; [lra|].
  rewrite !round_in_range; [done| |].
  - replace (1 / (0 + (1 + 0)))%R with 1%R by field. lra.
  - replace (0 / (0 + (1 + 0)))%R with 0%R by field. lra.
Qed.

Lemma softmax_row_ninf_r (x : R) :
  F32.softmax_row [F32.Finite x; F32.NInf]
  = [F32.Finite (1 / (1 + (0 + 0))); F32.Finite (0 / (1 + (0 + 0)))].
Proof.
  pose proof max_float_ge_2 as HM.
  destruct (exp_sub_finite x x) as (He & _ & H1); [lra|].
  rewrite H1 in He by done.
  unfold F32.softmax_row.
  change (foldr F32.max F32.NInf [F32.Finite x; F32.NInf]) with (F32.Finite x).
  cbv zeta. cbn [fmap list_fmap]. rewrite He.
  change (F32.exp (F32.sub F32.NInf (F32.Finite x))) with (F32.Finite 0).
  change [F32.Finite 1; F32.Finite 0] with (F32.Finite <$> [1; 0]%R).
  rewrite sum_finite.
  2:{ repeat constructor; lra. }
  2:{ simpl. lra. }
  cbn [fmap list_fmap Torch.sum foldr F32.div].
  destruct (Req_dec_T _ _) as [E|_]; [lra|].
  rewrite !round_in_range; [done| |].
  - replace (0 / (1 + (0 + 0)))%R with 0%R by field. lra.
  - replace (1 / (1 + (0 + 0)))%R with 1%R by field. lra.
Qed.

(** What a thresholded row says about its two logits. *)
Definition respects_logits (a c : F32.float) (r : list Z) : Prop :=
  (r = [1; 0]%Z ∧ F32.lt c a) ∨ (r = [0; 1]%Z ∧ F32.lt a c) ∨ r = [0; 0]%Z.

Lemma threshold_pair (a c : F32.float) :
  respects_logits a c
    ((λ x, if F32.gt_half x then 1%Z else 0%Z) <$> F32.softmax_row [a; c]).
Proof.
  unfold respects_logits.
  destruct a as [x| | |], c as [y| | |];
    try (right; right; reflexivity).
  - destruct (threshold_finite_pair x y) as (p & q & -> & Hp & Hq).
    cbn [fmap list_fmap F32.gt_half].
    destruct (Rlt_dec (1 / 2) p) as [H1|H1], (Rlt_dec (1 / 2) q) as [H2|H2].
    + exfalso. specialize (Hp H1). specialize (Hq H2). lra.
    + left. split; [done|]. by apply Hp.
    + right. left. split; [done|]. by apply Hq.
    + by right; right.
  - rewrite softmax_row_ninf_r. cbn [fmap list_fmap F32.gt_half].
    destruct (Rlt_dec _ _) as [H1|H1], (Rlt_dec _ _) as [H2|H2].
    + exfalso. lra.
    + by left.
    + exfalso. lra.
    + by right; right.
  - rewrite softmax_row_ninf_l. cbn [fmap list_fmap F32.gt_half].
    destruct (Rlt_dec _ _) as [H1|H1], (Rlt_dec _ _) as [H2|H2].
    + exfalso. lra.
    + exfalso. lra.
    + by right; left.
    + by right; right.
Qed.

(** X4. Thresholding the output of [forward] at 0.5 gives, for each pair
    of logits, float infinities and NaN included, a row that is [1, 0],
    [0, 1] or [0, 0], never [1, 1]. It is [1, 0] only if the first logit is
    strictly larger than the second and [0, 1] only if the second is
    strictly larger than the first: equal logits, and rows with an infinite
    or NaN output, give [0, 0] and match no one-hot label. *)
Theorem thresholded_rows_respect_logits (layers : list F32.layer)
    (W : list (list F32.float)) (b : list F32.float)
    (x_1e Linv adjacency : list (list F32.float))
    (x_1 : option (list (list F32.float))) (logits : list (list F32.float)) :
  length W = 2 →
  F32.forward_layers layers x_1e Linv adjacency None = Some x_1 →
  F32.linear W b x_1e = Some logits →
  ∃ y_hat,
    F32.forward layers W b x_1e Linv adjacency = Some y_hat ∧
    Forall2 (λ z r, ∃ a c, z = [a; c] ∧ respects_logits a c r)
            logits (F32.where_gt_half y_hat).
Proof.
  intros HW Hlay Hlin.
  pose proof Hlin as [_ Hcols]%F32_linear_Some. rewrite HW in Hcols.
  exists (F32.softmax logits). split.
  { unfold F32.forward. rewrite Hlay. simpl. by rewrite Hlin. }
  unfold F32.where_gt_half, F32.softmax.
  rewrite <- list_fmap_compose. apply Forall2_fmap_r, Forall_Forall2_diag.
  eapply Forall_impl; [exact Hcols|]. intros row Hrow. simpl.
  destruct row as [|a [|c [|? ?]]]; try done.
  exists a, c. split; [done|]. apply threshold_pair.
Qed.

Lemma thresholded_rows_respect_logits_witness :
  let layers : list F32.layer := [λ x _ _, Some x; λ x _ _, Some x] in
  let W := [[F32.Finite 2]; [F32.Finite 2]] in
  let b := [F32.Finite 0; F32.Finite 0] in
  let x_1e := [[F32.Finite F32.max_float]] in
  ∃ y_hat,
    F32.forward layers W b x_1e [] [] = Some y_hat ∧
    Forall2 (λ z r, ∃ a c, z = [a; c] ∧ respects_logits a c r)
            [[F32.PInf; F32.PInf]] (F32.where_gt_half y_hat).
Proof.
  intros layers W b x_1e.
  exact (thresholded_rows_respect_logits layers W b x_1e [] [] _ _
           eq_refl eq_refl linear_overflows).
Defined.

(** X6. [binary_cross_entropy_with_logits] is applied to the output of
    [forward], a softmax, not to logits. When the logits are finite floats
    that output is a matrix of numbers in [0, 1], and for labels in [0, 1]
    the loss computed from its first rows, [y_hat[: len(y_train)]], lies
    between [ln (1 + 1/e)] (about 0.3133) and [1 + ln 2]: it cannot
    approach 0 however well the model fits. *)
Theorem loss_of_finite_logits_is_bounded (layers : list F32.layer)
    (W : list (list F32.float)) (b : list F32.float)
    (x_1e Linv adjacency : list (list F32.float))
    (x_1 : option (list (list F32.float))) (logits : list (list F32.float)) :
  length W = 2 →
  F32.forward_layers layers x_1e Linv adjacency None = Some x_1 →
  F32.linear W b x_1e = Some logits →
  Forall (Forall F32.is_finite) logits →
  ∃ P : matrix,
    F32.forward layers W b x_1e Linv adjacency
    = Some (fmap (M:=list) F32.Finite <$> P) ∧
    Forall (Forall (λ p, (0 <= p <= 1)%R)) P ∧
    ∀ (n : Z) (target : matrix) (loss : R),
      Torch.binary_cross_entropy_with_logits (Py.slice_to n P) target
        = Some loss →
      target ≠ [] →
      Forall (λ row, row ≠ []) target →
      Forall (Forall (λ t, (0 <= t <= 1)%R)) target →
      (ln (1 + exp (- 1)) <= loss <= 1 + ln 2)%R.
Proof.
  intros HW Hlay Hlin Hfin.
  pose proof Hlin as [_ Hcols]%F32_linear_Some. rewrite HW in Hcols.
  destruct (softmax_of_finite_logits logits Hcols Hfin) as (P & HP & HPs).
  assert (Forall (Forall (λ p, (0 <= p <= 1)%R)) P) as Hunit.
  { eapply Forall_impl; [exact HPs|]. by intros ps (_ & Hu & _). }
  exists P. split; [|split; [exact Hunit|]].
  - unfold F32.forward. rewrite Hlay. simpl. rewrite Hlin. simpl.
    by rewrite HP.
  - intros n target loss Hloss Hne Hrows Htarget.
    eapply bce_of_probabilities; [exact Hloss|done|done| |done].
    unfold Py.slice_to. by apply Forall_take.
Qed.

Lemma loss_of_finite_logits_is_bounded_witness :
  let layers : list F32.layer := [λ x _ _, Some x; λ x _ _, Some x] in
  let W := [[F32.Finite 1]; [F32.Finite (-1)]] in
  let b := [F32.Finite 0; F32.Finite 0] in
  let x_1e := [[F32.Finite 1]] in
  ∃ P : matrix,
    F32.forward layers W b x_1e [] []
    = Some (fmap (M:=list) F32.Finite <$> P) ∧
    Forall (Forall (λ p, (0 <= p <= 1)%R)) P ∧
    ∀ (n : Z) (target : matrix) (loss : R),
      Torch.binary_cross_entropy_with_logits (Py.slice_to n P) target
        = Some loss →
      target ≠ [] →
      Forall (λ row, row ≠ []) target →
      Forall (Forall (λ t, (0 <= t <= 1)%R)) target →
      (ln (1 + exp (- 1)) <= loss <= 1 + ln 2)%R.
Proof.
  intros layers W b x_1e.
  apply (loss_of_finite_logits_is_bounded layers W b x_1e [] [] _ _
           eq_refl eq_refl finite_linear).
  repeat constructor.
Defined.
